(** * The request layer of the OpenHands front end: queue, backoff, retries

    A shallow embedding of the two TypeScript modules of the request layer:

    - the API module ([request], the [RateLimiter] class with its queue and
      its backoff, the allow-list of routes that need no token);
    - the [OpenHands] facade (the endpoint catalogue, its cache policy and
      its own rate-limit snapshot).

    Conventions of the embedding.

    - A JavaScript number is a [number]: NaN, the two infinities, the
      negative zero, or a finite value held as the rational it is equal
      to.  Division, multiplication and [parseInt] round their exact
      result to binary64 ([round64]: to nearest, ties to even, with
      overflow to an infinity and underflow to a signed zero).
    - A JavaScript string is a [string] of bytes (UTF-8, a surrogate on its
      own as the three bytes of its code point).
    - Objects that the code shares by reference (the rate-limit records and
      their [Date]s) live in an explicit [heap]; everything else is a value.
    - Asynchronous code is a machine: the state records where the drain loop
      and the unit it runs are suspended, and [resume] runs the machine from
      one suspension to the next. *)

From Stdlib Require Import ZArith QArith Qabs Ascii List Bool Lia.
From stdpp Require Import gmap strings list pretty.

#[local] Set Warnings "-register-all".
Local Close Scope Q_scope.
Local Open Scope Z_scope.

(** ** Numbers *)

Inductive number : Type :=
| NaN
| Inf (neg : bool)
| NegZero
| Fin (q : Q).

Definition Infinity : number := Inf false.

Definition num_of_Z (z : Z) : number := Fin (inject_Z z).

Definition num_q (a : number) : Q :=
  match a with
  | Fin q => q
  | _ => 0%Q
  end.

(** Sign bit of a number that is not NaN. *)
Definition num_neg (a : number) : bool :=
  match a with
  | NaN => false
  | Inf s => s
  | NegZero => true
  | Fin q => Qnum q <? 0
  end.

Definition num_is_zero (a : number) : bool :=
  match a with
  | NegZero => true
  | Fin q => Qnum q =? 0
  | _ => false
  end.

Definition zero_of (neg : bool) : number :=
  if neg then NegZero else Fin 0%Q.

(** The Number value of the real [q]: the binary64 value nearest to [q],
    the one with an even significand on a tie.  The significand has 53
    bits, the least exponent of a unit in the last place is -1074
    (subnormal values), and a result of magnitude 2^1024 or more is an
    infinity; a result that rounds to zero keeps the sign of [q]. *)
Definition round64 (q : Q) : number :=
  let neg := Qnum q <? 0 in
  let n := Z.abs (Qnum q) in
  let d := Zpos (Qden q) in
  if n =? 0 then Fin 0%Q
  else
    let k := Z.log2 n - Z.log2 d - 52 in
    let floor_at e := if 0 <=? e then n / (d * 2 ^ e) else (n * 2 ^ (- e)) / d in
    let e := Z.max (if floor_at k <? 2 ^ 52 then k - 1 else k) (-1074) in
    let num := if 0 <=? e then n else n * 2 ^ (- e) in
    let den := if 0 <=? e then d * 2 ^ e else d in
    let m0 := num / den in
    let r := num mod den in
    let m := if (den <? 2 * r) || ((den =? 2 * r) && Z.odd m0) then m0 + 1 else m0 in
    if (971 <? e) || ((e =? 971) && (2 ^ 53 <=? m)) then Inf neg
    else if m =? 0 then zero_of neg
    else
      let s := if neg then - m else m in
      Fin (if 0 <=? e then inject_Z (s * 2 ^ e) else Qred (s # Z.to_pos (2 ^ (- e)))).

Arguments round64 : simpl never.

(** [a / b] *)
Definition num_div (a b : number) : number :=
  match a, b with
  | NaN, _ | _, NaN => NaN
  | Inf _, Inf _ => NaN
  | Inf s, _ => Inf (xorb s (num_neg b))
  | _, Inf s => zero_of (xorb (num_neg a) s)
  | _, _ =>
      if num_is_zero b then
        if num_is_zero a then NaN else Inf (xorb (num_neg a) (num_neg b))
      else if num_is_zero a then zero_of (xorb (num_neg a) (num_neg b))
      else round64 (num_q a / num_q b)
  end.

(** [a * b] *)
Definition num_mul (a b : number) : number :=
  match a, b with
  | NaN, _ | _, NaN => NaN
  | Inf s, _ => if num_is_zero b then NaN else Inf (xorb s (num_neg b))
  | _, Inf s => if num_is_zero a then NaN else Inf (xorb (num_neg a) s)
  | _, _ =>
      if num_is_zero a || num_is_zero b
      then zero_of (xorb (num_neg a) (num_neg b))
      else round64 (num_q a * num_q b)
  end.

(** The order of the numbers that are not NaN; [None] when one side is NaN. *)
Definition num_compare (a b : number) : option comparison :=
  match a, b with
  | NaN, _ | _, NaN => None
  | Inf s, Inf t =>
      Some (if s then (if t then Eq else Lt) else (if t then Gt else Eq))
  | Inf s, _ => Some (if s then Lt else Gt)
  | _, Inf t => Some (if t then Gt else Lt)
  | _, _ => Some (Qcompare (num_q a) (num_q b))
  end.

(** [a > b] *)
Definition num_gt (a b : number) : bool :=
  match num_compare a b with
  | Some Gt => true
  | _ => false
  end.

(** [a <= b] *)
Definition num_le (a b : number) : bool :=
  match num_compare a b with
  | Some Lt | Some Eq => true
  | _ => false
  end.

(** [a < b] *)
Definition num_lt (a b : number) : bool := num_gt b a.

(** [a === b] on numbers *)
Definition num_strict_eq (a b : number) : bool :=
  match num_compare a b with
  | Some Eq => true
  | _ => false
  end.

(** ** Strings *)

(** [s.startsWith(p)] *)
Fixpoint startsWith (p s : string) : bool :=
  match p with
  | EmptyString => true
  | String a p' =>
      match s with
      | EmptyString => false
      | String b s' => if Ascii.eqb a b then startsWith p' s' else false
      end
  end.

(** [s.split(sep)] for a separator of one character. *)
Fixpoint split (sep : ascii) (s : string) : list string :=
  match s with
  | EmptyString => [EmptyString]
  | String c s' =>
      if Ascii.eqb c sep then EmptyString :: split sep s'
      else
        match split sep s' with
        | w :: ws => String c w :: ws
        | [] => [String c EmptyString]
        end
  end.

(** [l.join(sep)] *)
Fixpoint join (sep : string) (l : list string) : string :=
  match l with
  | [] => ""
  | [x] => x
  | x :: l' => x +:+ sep +:+ join sep l'
  end.

(** [l.slice(0, -1)] *)
Definition slice_0_m1 {A} (l : list A) : list A := removelast l.

(** [s] without the prefix [p], when it starts with it. *)
Fixpoint drop_prefix (p s : string) : option string :=
  match p with
  | EmptyString => Some s
  | String a p' =>
      match s with
      | EmptyString => None
      | String b s' => if Ascii.eqb a b then drop_prefix p' s' else None
      end
  end.

Definition bytes (l : list nat) : string :=
  fold_right (fun n s => String (ascii_of_nat n) s) EmptyString l.

(** The white space and line terminators that [parseInt] skips, in UTF-8:
    TAB, LF, VT, FF, CR, SP, NBSP, U+1680, U+2000 to U+200A, U+2028,
    U+2029, U+202F, U+205F, U+3000 and U+FEFF. *)
Definition white_space : list string :=
  map bytes
    ([[9]; [10]; [11]; [12]; [13]; [32]; [194; 160]; [225; 154; 128]]
     ++ map (fun n => [226; 128; n]) (seq 128 11)
     ++ [[226; 128; 168]; [226; 128; 169]; [226; 128; 175];
         [226; 129; 159]; [227; 128; 128]; [239; 187; 191]])%nat.

Fixpoint first_prefix (ps : list string) (s : string) : option string :=
  match ps with
  | [] => None
  | p :: ps' =>
      match drop_prefix p s with
      | Some r => Some r
      | None => first_prefix ps' s
      end
  end.

Fixpoint trimStart_go (fuel : nat) (s : string) : string :=
  match fuel with
  | O => s
  | S fuel' =>
      match first_prefix white_space s with
      | Some r => trimStart_go fuel' r
      | None => s
      end
  end.

(** [s.trimStart()]: every stripped token has at least one byte, so the
    length of [s] is fuel enough. *)
Definition trimStart (s : string) : string := trimStart_go (String.length s) s.

(** The value of a digit in radix 36, [None] for any other byte. *)
Definition digit_value (c : ascii) : option Z :=
  let n := Z.of_nat (nat_of_ascii c) in
  if (48 <=? n) && (n <=? 57) then Some (n - 48)
  else if (97 <=? n) && (n <=? 122) then Some (n - 87)
  else if (65 <=? n) && (n <=? 90) then Some (n - 55)
  else None.

(** The longest prefix of digits of the radix, as an integer; [acc] is
    [None] until a digit has been read. *)
Fixpoint parse_digits (radix : Z) (acc : option Z) (s : string) : option Z :=
  match s with
  | EmptyString => acc
  | String c s' =>
      match digit_value c with
      | Some d =>
          if d <? radix
          then parse_digits radix (Some (default 0 acc * radix + d)) s'
          else acc
      | None => acc
      end
  end.

(** [parseInt(s)], no radix given: white space is skipped, then a sign,
    then [0x] or [0X] selects radix 16, then the longest run of digits is
    read; no digit at all gives NaN.  The result is the Number value of
    the integer read, so it is rounded above 2^53 and an infinity from
    about 1.8e308 on.  (ECMAScript lets an implementation read the decimal
    digits after the twentieth as zeros; this is the choice that reads
    them all.) *)
Definition parseInt (s : string) : number :=
  let s1 := trimStart s in
  let '(neg, s2) :=
    match drop_prefix "-" s1, drop_prefix "+" s1 with
    | Some r, _ => (true, r)
    | None, Some r => (false, r)
    | None, None => (false, s1)
    end in
  let '(radix, s3) :=
    match drop_prefix "0x" s2, drop_prefix "0X" s2 with
    | Some r, _ | None, Some r => (16, r)
    | None, None => (10, s2)
    end in
  match parse_digits radix None s3 with
  | None => NaN
  | Some v => if v =? 0 then zero_of neg else round64 (inject_Z (if neg then - v else v))
  end.

(** [a || b] on strings that may be [null]: the empty string is falsy. *)
Definition or_else (a : option string) (b : string) : string :=
  match a with
  | Some (String c s) => String c s
  | _ => b
  end.

(** ** Dates and the heap *)

(** The time value a [Date] built from the number [t] holds. *)
Definition TimeClip (t : number) : number :=
  match t with
  | NaN | Inf _ => NaN
  | NegZero => Fin 0%Q
  | Fin q =>
      if Qle_bool (Qabs q) (inject_Z 8640000000000000)
      then num_of_Z (Z.quot (Qnum q) (Zpos (Qden q)))
      else NaN
  end.

Definition loc := nat.

(** interface RateLimitInfo; [resetTime] is a reference to a [Date]. *)
Record RateLimitInfo : Type := mkInfo {
  requestsRemaining : number;
  resetTime : loc;
  totalLimit : number
}.

#[export] Instance number_inhabited : Inhabited number := populate NaN.
#[export] Instance RateLimitInfo_inhabited : Inhabited RateLimitInfo :=
  populate (mkInfo NaN 0%nat NaN).

(** The objects that are shared by reference: rate-limit records and the
    time values of [Date] objects. *)
Record heap : Type := mkHeap {
  infos : gmap loc RateLimitInfo;
  dates : gmap loc number
}.

Definition empty_heap : heap := mkHeap ∅ ∅.

(** [new Date(t)] *)
Definition new_Date (t : number) (h : heap) : loc * heap :=
  let d := fresh (dom (dates h)) in
  (d, mkHeap (infos h) (<[d := TimeClip t]> (dates h))).

(** An object literal [{ requestsRemaining, resetTime, totalLimit }]. *)
Definition new_info (i : RateLimitInfo) (h : heap) : loc * heap :=
  let l := fresh (dom (infos h)) in
  (l, mkHeap (<[l := i]> (infos h)) (dates h)).

(** [{ ...o }] for a rate-limit record [o]: a new object with the same
    fields; the [Date] in [resetTime] is the same object. *)
Definition spread_info (o : loc) (h : heap) : loc * heap :=
  new_info (infos h !!! o) h.

(** ** The rate-limit record of the limiter *)

(** The fields of [class RateLimiter]; the record is a reference into the
    heap, the queue is defined below. *)
Section Backoff.

Variable backoffTime : number.

(** [calculateBackoff()], on the record the limiter holds.  The literals
    [0.5], [0.2] and [0.1] are the Number values of these decimals. *)
Definition calculateBackoff_of (i : RateLimitInfo) : number :=
  if num_strict_eq (requestsRemaining i) Infinity then num_of_Z 0
  else
    let remainingPercentage := num_div (requestsRemaining i) (totalLimit i) in
    if num_gt remainingPercentage (round64 (1 # 2)) then num_of_Z 0
    else if num_gt remainingPercentage (round64 (1 # 5)) then backoffTime
    else if num_gt remainingPercentage (round64 (1 # 10))
         then num_mul backoffTime (num_of_Z 2)
    else num_mul backoffTime (num_of_Z 4).

End Backoff.

(** ** Requests, responses, units of work *)

Inductive json : Type :=
| JNull
| JBool (b : bool)
| JNum (n : number)
| JStr (s : string)
| JArr (l : list json)
| JObj (fields : list (string * json)).

(** [File]: the two properties the facade reads. *)
Record File : Type := mkFile {
  name : string;
  webkitRelativePath : string
}.

(** A request body.  [JSON.stringify(x)] is kept as the tree [x], a
    [FormData] as the list of its files. *)
Inductive body : Type :=
| BodyJson (j : json)
| BodyFormData (files : list File).

(** [RequestInit]: the three properties the code uses. *)
Record RequestInit : Type := mkInit {
  method : option string;
  init_body : option body;
  init_headers : option (gmap string string)
}.

Definition no_options : RequestInit := mkInit None None None.

(** [Response]; [resp_headers] is [None] for a response object without a
    [headers] property, [resp_json] is [None] when [json()] rejects. *)
Record Response : Type := mkResponse {
  status : Z;
  statusText : string;
  resp_headers : option (gmap string string);
  resp_json : option json
}.

(** [response.ok] *)
Definition ok (r : Response) : bool := (200 <=? status r) && (status r <=? 299).

Inductive fetch_result : Type :=
| FetchFails
| FetchResponse (r : Response).

(** The values that flow through promises: parsed bodies, raw responses,
    the blob of a response, and references to rate-limit records. *)
Inductive value : Type :=
| VUndefined
| VJson (j : json)
| VResponse (r : Response)
| VBlob (r : Response)
| VInfo (l : loc).

(** What a unit can throw. *)
Inductive thrown : Type :=
| ThrowError (msg : string)
| ThrowResponse (r : Response).

Inductive outcome : Type :=
| Resolved (v : value)
| Rejected (e : thrown).

(** The arguments of [request]. *)
Record call : Type := mkCall {
  url : string;
  options : RequestInit;
  disableToast : bool;
  returnResponse : bool;
  maxRetries : Z
}.

(** [request(url, options, disableToast, returnResponse)] with the default
    [maxRetries = 3]. *)
Definition default_maxRetries : Z := 3.

Definition retry (c : call) : call :=
  mkCall (url c) (options c) (disableToast c) (returnResponse c) (maxRetries c - 1).

Definition pid := nat.

(** The [execute] closure of a queued operation: either the
    [executeRequest] of a call of [request], or any other unit, given by
    the outcome of each of its successive invocations ([calls] counts the
    invocations so far). *)
Inductive unit_body : Type :=
| ExecuteRequest (c : call)
| ExecuteOther (label : string) (calls : nat) (behaviour : nat -> outcome).

(** An entry of [requestQueue]: [resolve] and [reject] settle the promise
    [promise]. *)
Record QueuedOperation : Type := mkOp {
  execute : unit_body;
  promise : pid
}.

Inductive event : Type :=
| EvExecute (p : pid) (label : string)
| EvFetch (u : string) (o : RequestInit)
| EvSleep (ms : number)
| EvToast (msg : string)
| EvSettle (p : pid) (o : outcome)
| EvLimitUpdate (l : loc).

(** Where the [async] function [executeRequest] (or another unit) is
    suspended. *)
Inductive exec_state : Type :=
| AwaitAuthDelay (c : call)
| AwaitFetch (c : call)
| AwaitReauth (c : call) (p : pid)
| AwaitRetryAfter (c : call) (ms : number)
| AwaitJson (c : call) (r : Response)
| Adopted (p : pid)
| Settled (o : outcome).

(** Where [processQueue] is suspended. *)
Inductive loop_state : Type :=
| LoopIdle
| LoopBackoff (ms : number)
| LoopExecute (op : QueuedOperation) (e : exec_state)
| LoopThrottled (ms : number)
| LoopFailed.

Record RateLimiter : Type := mkLimiter {
  rateLimitInfo : loc;
  requestQueue : list QueuedOperation;
  isProcessing : bool;
  backoffTime : number
}.

(** The API module at run time: the heap, the limiter, the suspended drain
    loop, the promises handed out by [enqueue], a clock in milliseconds,
    the number of [fetch] calls made, and what has happened so far. *)
Record machine : Type := mkMachine {
  store : heap;
  limiter : RateLimiter;
  loop : loop_state;
  promises : gmap pid outcome;
  next_pid : pid;
  now : Z;
  fetches : nat;
  trace : list event
}.

(** The collaborators: the token source, by the time of the call, and the
    network, by the rank of the [fetch] call. *)
Record env : Type := mkEnv {
  getToken : Z -> option string;
  getGitHubToken : Z -> option string;
  network : nat -> fetch_result
}.

Definition set_store (h : heap) (m : machine) : machine :=
  mkMachine h (limiter m) (loop m) (promises m) (next_pid m) (now m) (fetches m) (trace m).
Definition set_limiter (r : RateLimiter) (m : machine) : machine :=
  mkMachine (store m) r (loop m) (promises m) (next_pid m) (now m) (fetches m) (trace m).
Definition set_loop (l : loop_state) (m : machine) : machine :=
  mkMachine (store m) (limiter m) l (promises m) (next_pid m) (now m) (fetches m) (trace m).
Definition set_promises (ps : gmap pid outcome) (m : machine) : machine :=
  mkMachine (store m) (limiter m) (loop m) ps (next_pid m) (now m) (fetches m) (trace m).
Definition set_next_pid (p : pid) (m : machine) : machine :=
  mkMachine (store m) (limiter m) (loop m) (promises m) p (now m) (fetches m) (trace m).
Definition set_now (t : Z) (m : machine) : machine :=
  mkMachine (store m) (limiter m) (loop m) (promises m) (next_pid m) t (fetches m) (trace m).
Definition set_fetches (n : nat) (m : machine) : machine :=
  mkMachine (store m) (limiter m) (loop m) (promises m) (next_pid m) (now m) n (trace m).
Definition emit (e : event) (m : machine) : machine :=
  mkMachine (store m) (limiter m) (loop m) (promises m) (next_pid m) (now m) (fetches m)
    (trace m ++ [e]).

Definition set_rateLimitInfo (l : loc) (r : RateLimiter) : RateLimiter :=
  mkLimiter l (requestQueue r) (isProcessing r) (backoffTime r).
Definition set_requestQueue (q : list QueuedOperation) (r : RateLimiter) : RateLimiter :=
  mkLimiter (rateLimitInfo r) q (isProcessing r) (backoffTime r).
Definition set_isProcessing (b : bool) (r : RateLimiter) : RateLimiter :=
  mkLimiter (rateLimitInfo r) (requestQueue r) b (backoffTime r).
Definition set_backoffTime (t : number) (r : RateLimiter) : RateLimiter :=
  mkLimiter (rateLimitInfo r) (requestQueue r) (isProcessing r) t.

(** ** The limiter *)

(** The limiter as its constructor leaves it, at the time [t0]. *)
Definition new_RateLimiter (t0 : Z) : machine :=
  let '(d, h1) := new_Date (num_of_Z t0) empty_heap in
  let '(l, h2) := new_info (mkInfo Infinity d Infinity) h1 in
  mkMachine h2 (mkLimiter l [] false (num_of_Z 1000)) LoopIdle ∅ 0%nat t0 0%nat [].

(** The record the limiter holds. *)
Definition current_info (m : machine) : RateLimitInfo :=
  infos (store m) !!! rateLimitInfo (limiter m).

(** [updateRateLimits(headers)] *)
Definition updateRateLimits (headers : gmap string string) (m : machine) : machine :=
  let remaining := parseInt (or_else (headers !! "x-ratelimit-remaining") "Infinity") in
  let reset := headers !! "x-ratelimit-reset" in
  let limit := parseInt (or_else (headers !! "x-ratelimit-limit") "Infinity") in
  let t :=
    match reset with
    | Some (String c r) => num_mul (parseInt (String c r)) (num_of_Z 1000)
    | _ => num_of_Z (now m)
    end in
  let '(d, h1) := new_Date t (store m) in
  let '(l, h2) := new_info (mkInfo remaining d limit) h1 in
  emit (EvLimitUpdate l)
    (set_limiter (set_rateLimitInfo l (limiter m)) (set_store h2 m)).

(** [if (response.headers) rateLimiter.updateRateLimits(response.headers)] *)
Definition headers_read (r : Response) (m : machine) : machine :=
  match resp_headers r with
  | Some headers => updateRateLimits headers m
  | None => m
  end.

(** [calculateBackoff()] *)
Definition calculateBackoff (m : machine) : number :=
  calculateBackoff_of (backoffTime (limiter m)) (current_info m).

(** [getRateLimitInfo()]: the reference to the copy, and the machine with
    the copy allocated. *)
Definition getRateLimitInfo (m : machine) : loc * machine :=
  let '(l, h) := spread_info (rateLimitInfo (limiter m)) (store m) in
  (l, set_store h m).

(** ** The executor *)

Definition WAIT_FOR_AUTH_DELAY_MS : number := num_of_Z 500.

Definition UNAUTHED_ROUTE_PREFIXES : list string :=
  ["/api/authenticate"; "/api/options/"; "/config.json"; "/api/github/callback"].

Definition needsAuth (u : string) : bool :=
  negb (existsb (fun prefix => startsWith prefix u) UNAUTHED_ROUTE_PREFIXES).

(** Truthiness of a string that may be [null]. *)
Definition truthy (s : option string) : bool :=
  match s with
  | Some (String _ _) => true
  | _ => false
  end.

(** The [headers] of [finalOptions]: the caller's, then the two tokens. *)
Definition final_headers (o : RequestInit) (token githubToken : option string)
  : gmap string string :=
  let h0 := default ∅ (init_headers o) in
  let h1 := if truthy token then <["Authorization" := "Bearer " +:+ default "" token]> h0 else h0 in
  if truthy githubToken then <["X-GitHub-Token" := default "" githubToken]> h1 else h1.

Definition finalOptions (o : RequestInit) (token githubToken : option string) : RequestInit :=
  mkInit (method o) (init_body o) (Some (final_headers o token githubToken)).

(** [parseInt(response.headers.get('retry-after') || '5') * 1000] *)
Definition retry_after_ms (headers : gmap string string) : number :=
  let retryAfter := parseInt (or_else (headers !! "retry-after") "5") in
  num_mul retryAfter (num_of_Z 1000).

(** The re-authentication call of the 401 branch. *)
Definition authenticate_call : call :=
  mkCall "/api/authenticate" (mkInit (Some "POST") None None) true false default_maxRetries.

(** The delay a timer really waits: not below zero, whole milliseconds, and
    none at all for NaN and the infinities. *)
Definition delay_ms (ms : number) : Z :=
  match ms with
  | Fin q => Z.max 0 (Z.quot (Qnum q) (Zpos (Qden q)))
  | _ => 0
  end.

(** A timer of [ms] milliseconds has fired. *)
Definition advance (ms : number) (m : machine) : machine :=
  set_now (now m + delay_ms ms) m.

(** [await new Promise(resolve => setTimeout(resolve, ms))], up to the
    suspension. *)
Definition sleep (ms : number) (m : machine) : machine := emit (EvSleep ms) m.

(** [onFail(msg)] up to its [throw]. *)
Definition onFail_toast (c : call) (msg : string) (m : machine) : machine :=
  if disableToast c then m else emit (EvToast msg) m.

Definition settle (p : pid) (o : outcome) (m : machine) : machine :=
  emit (EvSettle p o) (set_promises (<[p := o]> (promises m)) m).

Definition is_429 (e : thrown) : bool :=
  match e with
  | ThrowResponse r => status r =? 429
  | ThrowError _ => false
  end.

Section Executor.

Variable E : env.

(** [executeRequest], the closure that [request(c)] enqueues, from its
    call to its first suspension. *)
Definition executeRequest (c : call) (op : QueuedOperation) (m : machine) : machine :=
  if maxRetries c <? 0 then
    set_loop (LoopExecute op (Settled (Rejected (ThrowError "Max retries exceeded")))) m
  else
    let token := getToken E (now m) in
    let githubToken := getGitHubToken E (now m) in
    if negb (truthy token) && needsAuth (url c) then
      set_loop (LoopExecute op (AwaitAuthDelay c)) (sleep WAIT_FOR_AUTH_DELAY_MS m)
    else
      set_loop (LoopExecute op (AwaitFetch c))
        (emit (EvFetch (url c) (finalOptions (options c) token githubToken)) m).

(** [request.execute()] up to the first suspension of the unit.  A unit
    that is not an [executeRequest] settles as its behaviour says. *)
Definition start_execute (op : QueuedOperation) (m : machine) : machine :=
  match execute op with
  | ExecuteOther label k f =>
      set_loop (LoopExecute (mkOp (ExecuteOther label (S k) f) (promise op)) (Settled (f k)))
        (emit (EvExecute (promise op) label) m)
  | ExecuteRequest c => executeRequest c op (emit (EvExecute (promise op) (url c)) m)
  end.

(** [const request = this.requestQueue.shift()!] and the [try]. *)
Definition dispatch (m : machine) : machine :=
  match requestQueue (limiter m) with
  | op :: rest =>
      start_execute op (set_limiter (set_requestQueue rest (limiter m)) m)
  | [] => set_loop LoopFailed m
  end.

(** The head of the [while] loop of [processQueue]. *)
Definition loop_head (m : machine) : machine :=
  match requestQueue (limiter m) with
  | [] => set_loop LoopIdle (set_limiter (set_isProcessing false (limiter m)) m)
  | _ :: _ =>
      let backoff := calculateBackoff m in
      if num_gt backoff (num_of_Z 0)
      then set_loop (LoopBackoff backoff) (sleep backoff m)
      else dispatch m
  end.

(** [processQueue()] *)
Definition processQueue (m : machine) : machine :=
  if isProcessing (limiter m) then m
  else
    match requestQueue (limiter m) with
    | [] => m
    | _ :: _ => loop_head (set_limiter (set_isProcessing true (limiter m)) m)
    end.

(** [this.requestQueue.push({ execute, resolve, reject })], for a new
    promise. *)
Definition push_operation (u : unit_body) (m : machine) : machine :=
  set_limiter
    (set_requestQueue (requestQueue (limiter m) ++ [mkOp u (next_pid m)]) (limiter m))
    (set_next_pid (S (next_pid m)) m).

(** [enqueue(execute)]: the promise it returns, and the machine. *)
Definition enqueue (u : unit_body) (m : machine) : pid * machine :=
  let m1 := push_operation u m in
  (next_pid m, if isProcessing (limiter m1) then m1 else processQueue m1).

(** [request(url, options, disableToast, returnResponse, maxRetries)] *)
Definition request (c : call) (m : machine) : pid * machine :=
  enqueue (ExecuteRequest c) m.

(** The [catch (e)] of [executeRequest]: [onFail] throws before the
    [throw e] is reached. *)
Definition on_catch (c : call) (op : QueuedOperation) (m : machine) : machine :=
  let msg := "Error fetching " +:+ url c in
  set_loop (LoopExecute op (Settled (Rejected (ThrowError msg)))) (onFail_toast c msg m).

(** [executeRequest] from the response of [fetch] to its next
    suspension. *)
Definition on_response (c : call) (r : Response) (op : QueuedOperation) (m : machine)
  : machine :=
  let m := headers_read r m in
  if status r =? 401 then
    let '(p, m) := request authenticate_call m in
    set_loop (LoopExecute op (AwaitReauth c p)) m
  else if status r =? 429 then
    match resp_headers r with
    | None => on_catch c op m
    | Some headers =>
        let ms := retry_after_ms headers in
        set_loop (LoopExecute op (AwaitRetryAfter c ms)) (sleep ms m)
    end
  else if 400 <=? status r then
    on_catch c op
      (onFail_toast c
         (pretty (status r) +:+ " error while fetching " +:+ url c +:+ ": " +:+ statusText r) m)
  else if negb (ok r) then
    on_catch c op (onFail_toast c ("Error fetching " +:+ url c +:+ ": " +:+ statusText r) m)
  else if returnResponse c then
    set_loop (LoopExecute op (Settled (Resolved (VResponse r)))) m
  else set_loop (LoopExecute op (AwaitJson c r)) m.

(** [processQueue] after [await request.execute()] has an outcome. *)
Definition after_execute (op : QueuedOperation) (o : outcome) (m : machine) : machine :=
  match o with
  | Resolved v => loop_head (settle (promise op) o m)
  | Rejected e =>
      if is_429 e then
        let t := num_mul (backoffTime (limiter m)) (num_of_Z 2) in
        let r := set_requestQueue (op :: requestQueue (limiter m))
                   (set_backoffTime t (limiter m)) in
        set_loop (LoopThrottled t) (sleep t (set_limiter r m))
      else loop_head (settle (promise op) o m)
  end.

(** One turn of the event loop: the machine runs from the suspension it
    is in to the next one.  [None] when nothing can wake it: the drain
    loop is not running, or the unit it runs awaits a promise that is
    still pending. *)
Definition resume (m : machine) : option machine :=
  match loop m with
  | LoopIdle | LoopFailed => None
  | LoopBackoff ms => Some (dispatch (advance ms m))
  | LoopThrottled ms => Some (loop_head (advance ms m))
  | LoopExecute op e =>
      match e with
      | Settled o => Some (after_execute op o m)
      | AwaitAuthDelay c =>
          let '(p, m) := request (retry c) (advance WAIT_FOR_AUTH_DELAY_MS m) in
          Some (set_loop (LoopExecute op (Adopted p)) m)
      | AwaitFetch c =>
          let m' := set_fetches (S (fetches m)) m in
          match network E (fetches m) with
          | FetchFails => Some (on_catch c op m')
          | FetchResponse r => Some (on_response c r op m')
          end
      | AwaitReauth c p =>
          match promises m !! p with
          | None => None
          | Some (Resolved _) =>
              let '(p', m) := request (retry c) m in
              Some (set_loop (LoopExecute op (Adopted p')) m)
          | Some (Rejected _) => Some (on_catch c op m)
          end
      | AwaitRetryAfter c ms =>
          let '(p, m) := request (retry c) (advance ms m) in
          Some (set_loop (LoopExecute op (Adopted p)) m)
      | AwaitJson c r =>
          match resp_json r with
          | Some j => Some (set_loop (LoopExecute op (Settled (Resolved (VJson j)))) m)
          | None =>
              Some (on_catch c op (onFail_toast c ("Error parsing JSON from " +:+ url c) m))
          end
      | Adopted p =>
          match promises m !! p with
          | None => None
          | Some o => Some (set_loop (LoopExecute op (Settled o)) m)
          end
      end
  end.

(** The machine run for at most [fuel] turns. *)
Fixpoint run (fuel : nat) (m : machine) : machine :=
  match fuel with
  | O => m
  | S fuel' =>
      match resume m with
      | Some m' => run fuel' m'
      | None => m
      end
  end.

End Executor.

(** ** The facade *)

Definition hex_digit (n : nat) : ascii :=
  default "0"%char (String.get n "0123456789ABCDEF").

(** The bytes [encodeURIComponent] leaves as they are: letters, digits and
    [- _ . ! ~ * ' ( )]. *)
Definition unreserved (c : ascii) : bool :=
  let n := nat_of_ascii c in
  ((48 <=? n) && (n <=? 57) || (65 <=? n) && (n <=? 90) || (97 <=? n) && (n <=? 122)
   || existsb (Nat.eqb n) [45; 95; 46; 33; 126; 42; 39; 40; 41])%nat.

(** [encodeURIComponent(s)] on the UTF-8 bytes of [s]. *)
Fixpoint encodeURIComponent (s : string) : string :=
  match s with
  | EmptyString => EmptyString
  | String c s' =>
      if unreserved c then String c (encodeURIComponent s')
      else
        let n := nat_of_ascii c in
        String "%" (String (hex_digit (n / 16)) (String (hex_digit (n mod 16))
          (encodeURIComponent s')))
  end.

(** [OpenHands.rateLimitInfo]: the record of the class initialiser, or
    whatever [checkRateLimit] stored from a response. *)
Inductive oh_store : Type :=
| OhInfo (l : loc)
| OhResponse (v : value).

(** What an endpoint does once its [await request(...)] has an outcome. *)
Inductive cont : Type :=
| KCacheSet (key : string)
| KGetFile (key : string)
| KSaveFile (path : string)
| KUploadFiles (file : list File)
| KBlob
| KReturn
| KCheckRateLimit.

Inductive api_op : Type :=
| GetModels
| GetAgents
| GetSecurityAnalyzers
| GetConfig
| GetFiles (path : option string)
| GetFile (path : string)
| SaveFile (path content : string)
| UploadFiles (file : list File)
| GetWorkspaceZip
| SubmitFeedback (data : json)
| GetGitHubAccessToken (code : string)
| Authenticate
| CheckRateLimit.

(** The page at run time: the API module, the static field of
    [OpenHands], the cache, the endpoint calls that await a request, and
    the endpoint calls that are over, with their outcomes. *)
Record world : Type := mkWorld {
  api : machine;
  OpenHands_rateLimitInfo : oh_store;
  cache : gmap string value;
  awaiting : list (pid * (api_op * cont));
  finished : list (api_op * outcome)
}.

Definition set_api (m : machine) (w : world) : world :=
  mkWorld m (OpenHands_rateLimitInfo w) (cache w) (awaiting w) (finished w).
Definition set_OpenHands_rateLimitInfo (o : oh_store) (w : world) : world :=
  mkWorld (api w) o (cache w) (awaiting w) (finished w).
Definition set_cache (c : gmap string value) (w : world) : world :=
  mkWorld (api w) (OpenHands_rateLimitInfo w) c (awaiting w) (finished w).
Definition set_awaiting (a : list (pid * (api_op * cont))) (w : world) : world :=
  mkWorld (api w) (OpenHands_rateLimitInfo w) (cache w) a (finished w).
Definition finish (op : api_op) (o : outcome) (w : world) : world :=
  mkWorld (api w) (OpenHands_rateLimitInfo w) (cache w) (awaiting w) (finished w ++ [(op, o)]).

(** Modelled from the spec: the cache module is not part of the sources;
    the spec gives it as a key-value store with [get], [set] and [delete]
    and no expiry. *)
Definition cache_get (key : string) (w : world) : option value := cache w !! key.
Definition cache_set (key : string) (v : value) (w : world) : world :=
  set_cache (<[key := v]> (cache w)) w.
Definition cache_delete (key : string) (w : world) : world :=
  set_cache (delete key (cache w)) w.

(** Truthiness of a cached value that may be missing. *)
Definition truthy_value (v : option value) : bool :=
  match v with
  | None | Some VUndefined | Some (VJson JNull) | Some (VJson (JBool false))
  | Some (VJson (JStr EmptyString)) => false
  | Some (VJson (JNum n)) =>
      match n with
      | NaN => false
      | _ => negb (num_is_zero n)
      end
  | Some _ => true
  end.

(** [data.code]; [None] when the access throws. *)
Definition get_code (data : value) : option value :=
  match data with
  | VUndefined | VJson JNull => None
  | VJson (JObj fields) =>
      Some (from_option VJson VUndefined (snd <$> find (fun kv => String.eqb (fst kv) "code") fields))
  | _ => Some VUndefined
  end.

(** A byte of the form 10xxxxxx. *)
Definition is_continuation (c : ascii) : bool :=
  let v := N_of_ascii c in ((128 <=? v) && (v <? 192))%N.

(** The three bytes of a code unit from U+0800 on: this is how a surrogate
    on its own is held. *)
Definition unit_bytes (u : N) : string :=
  String (ascii_of_N (224 + u / 4096))
    (String (ascii_of_N (128 + (u / 64) mod 64))
       (String (ascii_of_N (128 + u mod 64)) EmptyString)).

(** U+FFFD *)
Definition replacement : string := unit_bytes 65533.

(** The UTF-16 code units of a string, each as a string of its own: a
    character of one, two or three bytes is one unit, a character of four
    bytes is the two surrogates of its pair.  Bytes that are not UTF-8,
    which no JavaScript string gives, count as U+FFFD. *)
Fixpoint code_units (s : string) : list string :=
  match s with
  | EmptyString => []
  | String b0 r0 =>
      let v0 := N_of_ascii b0 in
      if (v0 <? 128)%N then String b0 EmptyString :: code_units r0
      else
        match r0 with
        | String b1 r1 =>
            if is_continuation b1 && (192 <=? v0)%N && (v0 <? 224)%N
            then String b0 (String b1 EmptyString) :: code_units r1
            else
              match r1 with
              | String b2 r2 =>
                  if is_continuation b1 && is_continuation b2
                     && (224 <=? v0)%N && (v0 <? 240)%N
                  then String b0 (String b1 (String b2 EmptyString)) :: code_units r2
                  else
                    match r2 with
                    | String b3 r3 =>
                        let cp := ((v0 mod 8) * 262144 + (N_of_ascii b1 mod 64) * 4096
                                   + (N_of_ascii b2 mod 64) * 64 + N_of_ascii b3 mod 64)%N in
                        if is_continuation b1 && is_continuation b2 && is_continuation b3
                           && (240 <=? v0)%N && (v0 <? 248)%N
                           && (65536 <=? cp)%N && (cp <? 1114112)%N
                        then unit_bytes (55296 + (cp - 65536) / 1024)
                             :: unit_bytes (56320 + (cp - 65536) mod 1024)
                             :: code_units r3
                        else replacement :: code_units r0
                    | EmptyString => replacement :: code_units r0
                    end
              | EmptyString => replacement :: code_units r0
              end
        | EmptyString => [replacement]
        end
  end.

(** [{ ...v }] for a value that is not a rate-limit record of the heap: the
    own enumerable properties of [v], which for an array are its indices
    and for a string the indices of its UTF-16 code units. *)
Definition spread_value (v : value) : value :=
  match v with
  | VJson (JObj fields) => VJson (JObj fields)
  | VJson (JArr l) => VJson (JObj (imap (fun i x => (pretty (Z.of_nat i), x)) l))
  | VJson (JStr s) =>
      VJson (JObj (imap (fun i u => (pretty (Z.of_nat i), JStr u)) (code_units s)))
  | _ => VJson (JObj [])
  end.

(** [OpenHands.updateRateLimitInfo(headers)]; no endpoint calls it. *)
Definition updateRateLimitInfo (headers : gmap string string) (w : world) : world :=
  let remaining := parseInt (or_else (headers !! "x-ratelimit-remaining") "Infinity") in
  let reset := headers !! "x-ratelimit-reset" in
  let limit := parseInt (or_else (headers !! "x-ratelimit-limit") "Infinity") in
  let t :=
    match reset with
    | Some (String c r) => num_mul (parseInt (String c r)) (num_of_Z 1000)
    | _ => num_of_Z (now (api w))
    end in
  let '(d, h1) := new_Date t (store (api w)) in
  let '(l, h2) := new_info (mkInfo remaining d limit) h1 in
  set_OpenHands_rateLimitInfo (OhInfo l) (set_api (set_store h2 (api w)) w).

(** [OpenHands.getRateLimitStatus()] *)
Definition getRateLimitStatus (w : world) : value * world :=
  match OpenHands_rateLimitInfo w with
  | OhInfo l =>
      let '(l', h) := spread_info l (store (api w)) in
      (VInfo l', set_api (set_store h (api w)) w)
  | OhResponse v => (spread_value v, w)
  end.

(** [path.split('/').slice(0, -1).join('/')] *)
Definition parent_dir (path : string) : string :=
  join "/" (slice_0_m1 (split "/" path)).

Definition json_post (j : json) : RequestInit :=
  mkInit (Some "POST") (Some (BodyJson j)) (Some {["Content-Type" := "application/json"]}).

Definition plain_call (u : string) (o : RequestInit) : call :=
  mkCall u o false false default_maxRetries.

(** A read endpoint: the cached value when there is a truthy one, else the
    request to make and what to do with its outcome. *)
Definition cached_or (key : string) (c : call) (k : cont) (w : world)
  : outcome + call * cont :=
  if truthy_value (cache_get key w)
  then inl (Resolved (default VUndefined (cache_get key w)))
  else inr (c, k).

Definition getModels (w : world) : outcome + call * cont :=
  cached_or "models" (plain_call "/api/options/models" no_options) (KCacheSet "models") w.

Definition getAgents (w : world) : outcome + call * cont :=
  cached_or "agents" (plain_call "/api/options/agents" no_options) (KCacheSet "agents") w.

Definition getSecurityAnalyzers (w : world) : outcome + call * cont :=
  cached_or "security-analyzers"
    (plain_call "/api/options/security-analyzers" no_options)
    (KCacheSet "security-analyzers") w.

Definition getConfig (w : world) : outcome + call * cont :=
  cached_or "config" (plain_call "/config.json" no_options) (KCacheSet "config") w.

Definition files_key (path : option string) : string :=
  if truthy path then "files:" +:+ default "" path else "files:root".

Definition getFiles (path : option string) (w : world) : outcome + call * cont :=
  let cacheKey := files_key path in
  let u :=
    if truthy path
    then "/api/list-files" +:+ "?path=" +:+ encodeURIComponent (default "" path)
    else "/api/list-files" in
  cached_or cacheKey (plain_call u no_options) (KCacheSet cacheKey) w.

Definition getFile (path : string) (w : world) : outcome + call * cont :=
  let cacheKey := "file:" +:+ path in
  cached_or cacheKey
    (plain_call ("/api/select-file?file=" +:+ encodeURIComponent path) no_options)
    (KGetFile cacheKey) w.

Definition saveFile (path content : string) : call * cont :=
  (plain_call "/api/save-file"
     (json_post (JObj [("filePath", JStr path); ("content", JStr content)])),
   KSaveFile path).

Definition uploadFiles (file : list File) : call * cont :=
  (plain_call "/api/upload-files" (mkInit (Some "POST") (Some (BodyFormData file)) None),
   KUploadFiles file).

Definition getWorkspaceZip : call * cont :=
  (mkCall "/api/zip-directory" no_options false true default_maxRetries, KBlob).

Definition submitFeedback (data : json) : call * cont :=
  (plain_call "/api/submit-feedback" (json_post data), KReturn).

Definition getGitHubAccessToken (code : string) : call * cont :=
  (plain_call "/api/github/callback" (json_post (JObj [("code", JStr code)])), KReturn).

Definition authenticate : call * cont :=
  (mkCall "/api/authenticate" (mkInit (Some "POST") None None) true false default_maxRetries,
   KReturn).

Definition checkRateLimit : call * cont :=
  (mkCall "/api/rate-limit" no_options true false default_maxRetries, KCheckRateLimit).

(** An endpoint up to its [await request(...)]. *)
Definition api_start (op : api_op) (w : world) : outcome + call * cont :=
  match op with
  | GetModels => getModels w
  | GetAgents => getAgents w
  | GetSecurityAnalyzers => getSecurityAnalyzers w
  | GetConfig => getConfig w
  | GetFiles path => getFiles path w
  | GetFile path => getFile path w
  | SaveFile path content => inr (saveFile path content)
  | UploadFiles file => inr (uploadFiles file)
  | GetWorkspaceZip => inr getWorkspaceZip
  | SubmitFeedback data => inr (submitFeedback data)
  | GetGitHubAccessToken code => inr (getGitHubAccessToken code)
  | Authenticate => inr authenticate
  | CheckRateLimit => inr checkRateLimit
  end.

(** [f.webkitRelativePath || f.name] *)
Definition upload_path (f : File) : string :=
  match webkitRelativePath f with
  | EmptyString => name f
  | p => p
  end.

(** The cache entries [uploadFiles] deletes for one file. *)
Definition upload_invalidate (w : world) (f : File) : world :=
  let path := upload_path f in
  let dir := parent_dir path in
  match dir with
  | EmptyString => w
  | _ => cache_delete ("files:" +:+ dir) w
  end.

(** An endpoint from the outcome of its request to its own outcome. *)
Definition api_finish (k : cont) (o : outcome) (w : world) : outcome * world :=
  match k, o with
  | KCheckRateLimit, Resolved response =>
      (Resolved response, set_OpenHands_rateLimitInfo (OhResponse response) w)
  | KCheckRateLimit, Rejected _ =>
      let '(v, w) := getRateLimitStatus w in (Resolved v, w)
  | _, Rejected e => (Rejected e, w)
  | KCacheSet key, Resolved data => (Resolved data, cache_set key data w)
  | KGetFile key, Resolved data =>
      match get_code data with
      | Some content => (Resolved content, cache_set key content w)
      | None => (Rejected (ThrowError "TypeError"), w)
      end
  | KSaveFile path, Resolved response =>
      (Resolved response,
       cache_delete ("files:" +:+ parent_dir path)
         (cache_delete "files:root" (cache_delete ("file:" +:+ path) w)))
  | KUploadFiles file, Resolved response =>
      (Resolved response, fold_left upload_invalidate file (cache_delete "files:root" w))
  | KBlob, Resolved response =>
      match response with
      | VResponse r => (Resolved (VBlob r), w)
      | _ => (Rejected (ThrowError "TypeError"), w)
      end
  | KReturn, Resolved data => (Resolved data, w)
  end.

(** The continuations of the endpoint calls whose request is settled, in
    the order of the calls. *)
Fixpoint deliver_all (l : list (pid * (api_op * cont))) (w : world) : world :=
  match l with
  | [] => w
  | (p, (op, k)) :: l' =>
      match promises (api w) !! p with
      | Some o =>
          let '(r, w') := api_finish k o w in
          deliver_all l' (finish op r w')
      | None =>
          let w' := deliver_all l' w in
          set_awaiting ((p, (op, k)) :: awaiting w') w'
      end
  end.

Definition deliver (w : world) : world :=
  deliver_all (awaiting w) (set_awaiting [] w).

(** What the page does: it calls an endpoint, it reads one of the two
    snapshots, or the event loop takes a turn. *)
Inductive action : Type :=
| Call (op : api_op)
| ReadStatus
| ReadInfo
| Turn.

Section Page.

Variable E : env.

Definition call_api (op : api_op) (w : world) : world :=
  match api_start op w with
  | inl o => finish op o w
  | inr (c, k) =>
      let '(p, m) := request E c (api w) in
      set_awaiting (awaiting w ++ [(p, (op, k))]) (set_api m w)
  end.

Definition turn (w : world) : world :=
  match resume E (api w) with
  | Some m => deliver (set_api m w)
  | None => w
  end.

Definition act (a : action) (w : world) : world :=
  match a with
  | Call op => call_api op w
  | ReadStatus => snd (getRateLimitStatus w)
  | ReadInfo => set_api (snd (getRateLimitInfo (api w))) w
  | Turn => turn w
  end.

Definition acts (l : list action) (w : world) : world := fold_left (fun w a => act a w) l w.

End Page.

(** The page when the two modules have been loaded, at the time [t0]. *)
Definition new_world (t0 : Z) : world :=
  let m := new_RateLimiter t0 in
  let '(d, h1) := new_Date (num_of_Z t0) (store m) in
  let '(l, h2) := new_info (mkInfo Infinity d Infinity) h1 in
  mkWorld (set_store h2 m) (OhInfo l) ∅ [] [].

(** * The statements of the specification *)

(** Modelled from the spec: the backoff policy on the exact ratio of the
    remaining quota to the limit: nothing above one half, the
    base on (0.2, 0.5], twice the base on (0.1, 0.2], four times the base
    otherwise. *)
Definition stated_policy (base : number) (ratio : Q) : number :=
  if Qle_bool ratio (1 # 2) && negb (Qle_bool ratio (1 # 5)) then base
  else if Qle_bool ratio (1 # 5) && negb (Qle_bool ratio (1 # 10))
       then num_mul (num_of_Z 2) base
  else if Qle_bool ratio (1 # 10) then num_mul (num_of_Z 4) base
  else num_of_Z 0.

(** The same policy on the ratio as the program has it: [pct] is the
    quotient that binary64 division gives, and the bounds of the intervals
    are the Number values of 0.5, 0.2 and 0.1. *)
Definition backoff_policy (base remaining total : number) : number :=
  if num_strict_eq remaining Infinity then num_of_Z 0
  else
    let pct := num_div remaining total in
    if num_gt pct (round64 (1 # 2)) then num_of_Z 0
    else if num_lt (round64 (1 # 5)) pct && num_le pct (round64 (1 # 2)) then base
    else if num_lt (round64 (1 # 10)) pct && num_le pct (round64 (1 # 5))
         then num_mul (num_of_Z 2) base
    else num_mul (num_of_Z 4) base.

(** The five routes the specification lists as needing no token. *)
Definition listed_unauthenticated_routes : list string :=
  ["/api/options/models"; "/api/options/agents"; "/api/options/security-analyzers";
   "/config.json"; "/api/github/callback"].

(** [s] contains the byte [c]. *)
Fixpoint has_char (c : ascii) (s : string) : bool :=
  match s with
  | EmptyString => false
  | String b s' => Ascii.eqb b c || has_char c s'
  end.

(** The cache keys [saveFile(path, _)] deletes, by [parent_dir]. *)
Definition saveFile_keys (path : string) : list string :=
  ["file:" +:+ path; "files:root"; "files:" +:+ parent_dir path].

(** The cache keys [uploadFiles(file)] deletes, by [parent_dir]: the root
    listing and the listing of each file's directory, when [parent_dir]
    finds one. *)
Definition uploadFiles_keys (file : list File) : list string :=
  "files:root"
  :: ((fun f => "files:" +:+ parent_dir (upload_path f))
        <$> filter (fun f => parent_dir (upload_path f) <> EmptyString) file).

(** Modelled from the spec: [path] names a file of the directory [d], its
    parent directory: it is [d], a slash and a last segment without a
    slash. *)
Definition in_directory (d path : string) : Prop :=
  exists f, has_char "/" f = false /\ path = d +:+ "/" +:+ f.

(** Modelled from the spec: the parent directory of an uploaded file, by
    its relative path when it has one and by its name otherwise; [None]
    when there is no slash in it. *)
Definition uploaded_in (x : File) (od : option string) : Prop :=
  let path := if decide (webkitRelativePath x = "") then name x else webkitRelativePath x in
  match od with
  | Some d => in_directory d path
  | None => has_char "/" path = false
  end.

(** The listing keys of the directories [ods] whose text is not empty. *)
Definition directory_keys (ods : list (option string)) : list string :=
  omap (fun od => match od with
                  | Some (String a d) => Some ("files:" +:+ String a d)
                  | _ => None
                  end) ods.

(** The endpoint call [op] does not answer from the cache: it goes to the
    back end through [request]. *)
Definition refetches (op : api_op) (w : world) : Prop :=
  exists c k, api_start op w = inr (c, k).

(** What a reader of a rate-limit record sees: the two quota fields and
    the time of its [Date]. *)
Definition snapshot (h : heap) (l : loc) : number * number * number :=
  let i := infos h !!! l in
  (requestsRemaining i, dates h !!! resetTime i, totalLimit i).

Definition limiter_snapshot (m : machine) : number * number * number :=
  snapshot (store m) (rateLimitInfo (limiter m)).

(** The time of the [Date] that [updateRateLimits] stores. *)
Definition reset_time (headers : gmap string string) (t : Z) : number :=
  TimeClip
    match headers !! "x-ratelimit-reset" with
    | Some (String c r) => num_mul (parseInt (String c r)) (num_of_Z 1000)
    | _ => num_of_Z t
    end.

(** What a caller can do to a rate-limit record [o] it has been handed:
    assign one of its three fields, or change the [Date] in its
    [resetTime] in place (as [o.resetTime.setTime(t)] does). *)
Inductive mutation : Type :=
| AssignRequestsRemaining (v : number)
| AssignResetTime (d : loc)
| AssignTotalLimit (v : number)
| ResetTimeSetTime (t : number).

Definition mutate (o : loc) (mu : mutation) (h : heap) : heap :=
  let i := infos h !!! o in
  match mu with
  | AssignRequestsRemaining v =>
      mkHeap (<[o := mkInfo v (resetTime i) (totalLimit i)]> (infos h)) (dates h)
  | AssignResetTime d =>
      mkHeap (<[o := mkInfo (requestsRemaining i) d (totalLimit i)]> (infos h)) (dates h)
  | AssignTotalLimit v =>
      mkHeap (<[o := mkInfo (requestsRemaining i) (resetTime i) v]> (infos h)) (dates h)
  | ResetTimeSetTime t =>
      mkHeap (infos h) (<[resetTime i := TimeClip t]> (dates h))
  end.



(** What a reader of [OpenHands.rateLimitInfo] sees. *)
Definition oh_snapshot (w : world) : number * number * number + value :=
  match OpenHands_rateLimitInfo w with
  | OhInfo l => inl (snapshot (store (api w)) l)
  | OhResponse v => inr v
  end.


(** The machine after the calls [cs] of [request], in this order. *)
Definition request_all (E : env) (cs : list call) (m : machine) : machine :=
  fold_left (fun m c => (request E c m).2) cs m.

(** The machine after the units [us] have been enqueued, in this order. *)
Definition enqueue_all (E : env) (us : list unit_body) (m : machine) : machine :=
  fold_left (fun m u => (enqueue E u m).2) us m.

(** No drain loop is running and nothing is queued. *)
Definition idle (m : machine) : Prop :=
  loop m = LoopIdle /\ isProcessing (limiter m) = false /\ requestQueue (limiter m) = [].

(** The promises that [enqueue] has not handed out yet are pending. *)
Definition fresh_promises (m : machine) : Prop :=
  forall p, (next_pid m <= p)%nat -> promises m !! p = None.

(** A back end that answers every [fetch] with [r], and a token source
    that always has the token ["token"]. *)
Definition always_answers (r : Response) : env :=
  mkEnv (fun _ => Some "token") (fun _ => None) (fun _ => FetchResponse r).

(** A token source without a token. *)
Definition logged_out : env :=
  mkEnv (fun _ => None) (fun _ => None) (fun _ => FetchFails).

Definition list_files : call := plain_call "/api/list-files" no_options.

(** ** Notions used in the proofs *)

(** [m'] has the heap and the rate-limit record of [m]. *)
Definition same_info (m m' : machine) : Prop :=
  store m' = store m /\ rateLimitInfo (limiter m') = rateLimitInfo (limiter m).

Ltac same_info_tac :=
  unfold same_info, sleep, onFail_toast, settle, advance;
  repeat case_match; simpl; auto.

(** [m'] differs from [m] in the heap, the rate-limit record and the
    trace at most. *)
Definition same_control (m m' : machine) : Prop :=
  requestQueue (limiter m') = requestQueue (limiter m)
  /\ isProcessing (limiter m') = isProcessing (limiter m)
  /\ backoffTime (limiter m') = backoffTime (limiter m)
  /\ loop m' = loop m /\ promises m' = promises m /\ next_pid m' = next_pid m
  /\ now m' = now m /\ fetches m' = fetches m.

(** The first attempt of [c] ends in a retry: there is no token for a
    route that needs one, or the back end answers the attempt with a 401,
    or with a 429 that has headers. *)
Definition answers_retry (E : env) (F : nat) (c : call) : Prop :=
  (forall t, truthy (getToken E t) = false) /\ needsAuth (url c) = true
  \/ exists r, network E F = FetchResponse r
               /\ (status r = 401 \/ status r = 429 /\ is_Some (resp_headers r)).

(** The unit of the call [c], with the promise [p], is at the head of the
    queue or being executed, on its first attempt, and its promise is
    pending. *)
Definition waits_for_retry (E : env) (F : nat) (p : pid) (c : call) (m : machine) : Prop :=
  promises m !! p = None /\ isProcessing (limiter m) = true /\ fresh_promises m
  /\ (p < next_pid m)%nat
  /\ match loop m with
     | LoopBackoff _ =>
         (exists rest, requestQueue (limiter m) = mkOp (ExecuteRequest c) p :: rest)
         /\ fetches m = F
     | LoopExecute op e =>
         op = mkOp (ExecuteRequest c) p
         /\ match e with
            | AwaitAuthDelay c' => c' = c /\ fetches m = F
            | AwaitFetch c' =>
                c' = c /\ fetches m = F
                /\ exists r, network E F = FetchResponse r
                             /\ (status r = 401 \/ status r = 429 /\ is_Some (resp_headers r))
            | AwaitRetryAfter c' _ => c' = c /\ fetches m = S F
            | AwaitReauth c' q => c' = c /\ promises m !! q = None /\ fetches m = S F
            | Adopted q => promises m !! q = None /\ (fetches m <= S F)%nat
            | _ => False
            end
     | _ => False
     end.

Definition outcome_is_429 (o : outcome) : bool :=
  match o with
  | Rejected e => is_429 e
  | Resolved _ => false
  end.

(** The unit signals 429 on its next [k] invocations and settles on the
    one after. *)
Definition throttled_times (k : nat) (u : unit_body) : Prop :=
  match u with
  | ExecuteOther _ n f =>
      (forall j, (j < k)%nat -> outcome_is_429 (f (n + j)%nat) = true)
      /\ outcome_is_429 (f (n + k)%nat) = false
  | ExecuteRequest _ => False
  end.

Definition label_of (u : unit_body) : string :=
  match u with
  | ExecuteOther label _ _ => label
  | ExecuteRequest c => url c
  end.

Definition final_outcome (k : nat) (u : unit_body) : outcome :=
  match u with
  | ExecuteOther _ n f => f (n + k)%nat
  | ExecuteRequest _ => Resolved VUndefined
  end.

Definition queue_event (e : event) : bool :=
  match e with
  | EvExecute _ _ | EvSettle _ _ => true
  | _ => false
  end.

(** The executions and the settlements of the trace, in order. *)
Definition queue_events (m : machine) : list event := List.filter queue_event (trace m).

(** What a unit throttled [k] times leaves there: [k + 1] executions in a
    row, then its settlement. *)
Definition unit_events (p : pid) (k : nat) (u : unit_body) : list event :=
  replicate (S k) (EvExecute p (label_of u)) ++ [EvSettle p (final_outcome k u)].

(** [n] turns of the machine. *)
Fixpoint resume_n (E : env) (n : nat) (m : machine) : option machine :=
  match n with
  | O => Some m
  | S n' =>
      match resume E m with
      | Some m' => resume_n E n' m'
      | None => None
      end
  end.

(** What the units [us], throttled [ks] times each, are to leave in the
    trace when their promises are numbered from [p0]. *)
Definition expected_events (p0 : pid) (ks : list nat) (us : list unit_body) : list event :=
  concat (zip_with (fun k op => unit_events (promise op) k (execute op)) ks
            (imap (fun i u => mkOp u (p0 + i)%nat) us)).

(** The steps that suffice to drain units throttled [ks] times each. *)
Definition enough_fuel (ks : list nat) : nat := 2 * length ks + 3 * sum_list ks.

(** The machine with the units [us] queued, in this order, and the drain
    loop marked as running. *)
Definition queued (us : list unit_body) (m : machine) : machine :=
  set_limiter
    (mkLimiter (rateLimitInfo (limiter m))
       (imap (fun i u => mkOp u (next_pid m + i)%nat) us) true (backoffTime (limiter m)))
    (set_next_pid (next_pid m + length us)%nat m).

(** The unit of the scenario that is throttled once, and the one that is
    not. *)
Definition unit_A : unit_body :=
  ExecuteOther "A" 0
    (fun n =>
       match n with
       | O => Rejected (ThrowResponse (mkResponse 429 "Too Many Requests" (Some ∅) None))
       | S _ => Resolved (VJson (JStr "a"))
       end).

Definition unit_B : unit_body := ExecuteOther "B" 0 (fun _ => Resolved (VJson (JStr "b"))).

Definition heap_le (h h' : heap) : Prop :=
  infos h ⊆ infos h' /\ dates h ⊆ dates h'.

(** The record of [OpenHands], when it is one of the heap, is allocated,
    and so is its [Date]. *)
Definition oh_wf (w : world) : Prop :=
  forall l, OpenHands_rateLimitInfo w = OhInfo l ->
    exists i t, infos (store (api w)) !! l = Some i
                /\ dates (store (api w)) !! resetTime i = Some t.

(** No call of [checkRateLimit] is waiting for its request. *)
Definition no_check_pending (w : world) : Prop :=
  Forall (fun x => x.2.2 <> KCheckRateLimit) (awaiting w).

Definition is_check (a : action) : bool :=
  match a with
  | Call CheckRateLimit => true
  | _ => false
  end.

(** [w'] has the static field of [w], and its heap extends the heap of
    [w]. *)
Definition oh_kept (w w' : world) : Prop :=
  OpenHands_rateLimitInfo w' = OpenHands_rateLimitInfo w
  /\ heap_le (store (api w)) (store (api w')).

(** What the API module does once it is loaded: it is asked for a request,
    or the event loop takes a turn. *)
Inductive module_event : Type :=
| Requested (c : call)
| TurnTaken.

Definition module_step (E : env) (m : machine) (a : module_event) : machine :=
  match a with
  | Requested c => (request E c m).2
  | TurnTaken => default m (resume E m)
  end.

(** The API module after the events [l], from the limiter as built at
    [t0]; its limiter is not exported, so these are all its states. *)
Definition module_state (E : env) (t0 : Z) (l : list module_event) : machine :=
  fold_left (module_step E) l (new_RateLimiter t0).

(** The outcome is not a rejection with a [Response]. *)
Definition no_response_thrown (o : outcome) : bool :=
  match o with
  | Rejected (ThrowResponse _) => false
  | _ => true
  end.

Definition is_request (op : QueuedOperation) : Prop :=
  exists c, execute op = ExecuteRequest c.

(** Every queued unit is an [executeRequest], and no promise has been
    rejected with a [Response]. *)
Definition units_ok (m : machine) : Prop :=
  Forall is_request (requestQueue (limiter m))
  /\ map_Forall (fun _ o => no_response_thrown o = true) (promises m).

Definition exec_ok (e : exec_state) : Prop :=
  match e with
  | Settled o => no_response_thrown o = true
  | _ => True
  end.

(** The same, the unit that is being executed included. *)
Definition request_only (m : machine) : Prop :=
  units_ok m
  /\ match loop m with
     | LoopExecute op e => is_request op /\ exec_ok e
     | _ => True
     end.

(** ** One attempt of a request *)

Definition toast_of (e : event) : option string :=
  match e with
  | EvToast msg => Some msg
  | _ => None
  end.

(** The messages shown as toasts so far, in order. *)
Definition toasts (m : machine) : list string := omap toast_of (trace m).

(** Turns of the event loop that settle no promise. *)
Inductive quiet_run (E : env) : nat -> machine -> machine -> Prop :=
| quiet_done (m : machine) : quiet_run E 0 m m
| quiet_turn (n : nat) (m m1 m2 : machine) :
    resume E m = Some m1 -> promises m1 = promises m -> quiet_run E n m1 m2 ->
    quiet_run E (S n) m m2.

(** The drain loop is about to start a unit, having waited the backoff
    computed on [m]. *)
Definition at_dispatch (m m1 : machine) : Prop :=
  requestQueue (limiter m1) = [] /\ isProcessing (limiter m1) = true
  /\ promises m1 = promises m /\ fetches m1 = fetches m
  /\ now m1 = now m + delay_ms (calculateBackoff m) /\ toasts m1 = toasts m.

(** From [m1] to [m2] there have been [k] calls of [fetch] and the toasts
    [ts]; the queue, the promises and the clock are the same. *)
Definition progressed (k : nat) (ts : list string) (m1 m2 : machine) : Prop :=
  requestQueue (limiter m2) = requestQueue (limiter m1)
  /\ isProcessing (limiter m2) = isProcessing (limiter m1)
  /\ promises m2 = promises m1 /\ fetches m2 = (fetches m1 + k)%nat
  /\ now m2 = now m1 /\ toasts m2 = toasts m1 ++ ts.

(** The unit [op], started on [m1], has the outcome [o] in [m2]. *)
Definition settled_with (op : QueuedOperation) (o : outcome) (k : nat) (ts : list string)
    (m1 m2 : machine) : Prop :=
  loop m2 = LoopExecute op (Settled o) /\ progressed k ts m1 m2.

(** The toasts a call shows for the messages [msgs]. *)
Definition shown (c : call) (msgs : list string) : list string :=
  if disableToast c then [] else msgs.

(** The call [c], made on the machine [m], is over within four turns of
    the event loop: its promise has the outcome [o] and no other promise
    has been settled, [k] calls of [fetch] have been made and the toasts
    [ts] shown, the only timer waited for is the backoff that
    [processQueue] computed, and the drain loop has stopped on an empty
    queue. *)
Definition completes (E : env) (c : call) (m : machine) (o : outcome) (k : nat)
    (ts : list string) : Prop :=
  exists n m1 m',
    (n <= 3)%nat
    /\ quiet_run E n (request E c m).2 m1
    /\ resume E m1 = Some m'
    /\ idle m'
    /\ promises m' = <[(request E c m).1 := o]> (promises m)
    /\ fetches m' = (fetches m + k)%nat
    /\ now m' = now m + delay_ms (calculateBackoff m)
    /\ toasts m' = toasts m ++ ts.

(** What the executor makes of the answer [fr] to the [fetch] of the call
    [c]: the outcome [o] and the toasts [ts], within one more turn. *)
Definition answered (E : env) (c : call) (fr : fetch_result) (o : outcome)
    (ts : list string) : Prop :=
  forall op m1 m2,
    progressed 1 [] m1 m2 ->
    exists n m3,
      (n <= 1)%nat
      /\ quiet_run E n
           match fr with
           | FetchFails => on_catch c op m2
           | FetchResponse r => on_response E c r op m2
           end m3
      /\ settled_with op o 1 ts m1 m3.

(** The token source has a token at the time the call [c] made on [m] is
    started, or the route needs none. *)
Definition may_fetch (E : env) (c : call) (m : machine) : Prop :=
  needsAuth (url c) = false
  \/ truthy (getToken E (now m + delay_ms (calculateBackoff m))) = true.

(** ** The limiter over time *)

(** What the limiter goes through: a unit is enqueued, or the event loop
    takes a turn. *)
Inductive limiter_event : Type :=
| Enqueued (u : unit_body)
| Resumed.

Definition limiter_step (E : env) (m : machine) (a : limiter_event) : machine :=
  match a with
  | Enqueued u => (enqueue E u m).2
  | Resumed => default m (resume E m)
  end.

(** The limiter after the events [l], from the limiter as built at [t0]. *)
Definition limiter_state (E : env) (t0 : Z) (l : list limiter_event) : machine :=
  fold_left (limiter_step E) l (new_RateLimiter t0).

(** The flag and the queue agree with the place where [processQueue] is
    suspended. *)
Definition drain_inv (m : machine) : Prop :=
  match loop m with
  | LoopIdle => isProcessing (limiter m) = false /\ requestQueue (limiter m) = []
  | LoopBackoff _ | LoopThrottled _ =>
      isProcessing (limiter m) = true /\ requestQueue (limiter m) <> []
  | LoopExecute _ _ => isProcessing (limiter m) = true
  | LoopFailed => False
  end.

(** A unit is being executed, under the flag. *)
Definition executing (m : machine) : Prop :=
  isProcessing (limiter m) = true /\ exists op e, loop m = LoopExecute op e.

(** The options of a [fetch] carry the token of the token source. *)
Definition bears_token (E : env) (o : RequestInit) : Prop :=
  exists t tok hs,
    getToken E t = Some tok /\ tok <> EmptyString
    /\ init_headers o = Some hs /\ hs !! "Authorization" = Some ("Bearer " +:+ tok).

(** A [fetch] of a route that needs a token carries one. *)
Definition fetch_authorised (E : env) (e : event) : Prop :=
  match e with
  | EvFetch u o => needsAuth u = true -> bears_token E o
  | _ => True
  end.

Definition traced (E : env) (m : machine) : Prop := Forall (fetch_authorised E) (trace m).

(** The byte is an ASCII letter. *)
Definition is_letter (a : ascii) : bool :=
  let n := nat_of_ascii a in
  ((65 <=? n) && (n <=? 90) || (97 <=? n) && (n <=? 122))%nat.

(** The record the limiter holds is on the heap, and so is its [Date]. *)
Definition limiter_wf (m : machine) : Prop :=
  exists i t,
    infos (store m) !! rateLimitInfo (limiter m) = Some i
    /\ dates (store m) !! resetTime i = Some t.

(** ** Endpoints *)

(** The page while the endpoint call [op], with the continuation [k],
    awaits the promise [p], and the API module is [m]. *)
Definition waiting_for (p : pid) (op : api_op) (k : cont) (m : machine) (w : world) : world :=
  set_awaiting [(p, (op, k))] (set_api m w).

(** The calls [cs] are answered in turn by ok responses with the bodies
    [js]: the call of rank [i] by the [fetch] of rank [F + i]. *)
Definition answers_in_turn (E : env) (F : nat) (cs : list call) (js : list json) : Prop :=
  length js = length cs
  /\ forall i c,
       cs !! i = Some c ->
       0 <= maxRetries c /\ returnResponse c = false
       /\ exists r,
            network E (F + i)%nat = FetchResponse r /\ ok r = true /\ resp_json r = js !! i.

(** * Properties *)

(** ** Numbers and strings *)

Lemma num_gt_false_le (a b : number) :
  num_compare a b <> None -> num_gt a b = false -> num_le a b = true.
Proof.
  unfold num_gt, num_le. destruct (num_compare a b) as [[]|]; congruence.
Qed.

Lemma num_gt_compare (a b : number) : num_gt a b = true -> num_compare a b = Some Gt.
Proof.
  unfold num_gt. destruct (num_compare a b) as [[]|]; congruence.
Qed.

(** A number that is above some number is comparable with every finite
    number. *)
Lemma num_gt_comparable (a b : number) (q : Q) :
  num_gt a b = true -> num_compare a (Fin q) <> None.
Proof.
  intros H. apply num_gt_compare in H.
  destruct a; simpl in *; try discriminate; destruct neg; discriminate.
Qed.

Lemma num_le_not_gt (a : number) (p q : Q) :
  (p <= q)%Q -> num_le a (Fin p) = true -> num_gt a (Fin q) = false.
Proof.
  intros Hpq. unfold num_le, num_gt.
  assert (HQ : forall x, (x ?= p)%Q <> Gt -> (x ?= q)%Q <> Gt).
  { intros x Hx. apply Qle_alt. apply Qle_alt in Hx. eapply Qle_trans; eauto. }
  destruct a as [|[]| |x]; simpl; try congruence.
  - specialize (HQ 0%Q). destruct (0 ?= p)%Q; try discriminate;
      destruct (0 ?= q)%Q; try reflexivity; intros _; exfalso; by apply HQ.
  - specialize (HQ x). destruct (x ?= p)%Q; try discriminate;
      destruct (x ?= q)%Q; try reflexivity; intros _; exfalso; by apply HQ.
Qed.

Lemma startsWith_spec (p s : string) :
  startsWith p s = true <-> exists r, s = p +:+ r.
Proof.
  revert s. induction p as [|a p IH]; intros s; simpl.
  - split; [intros _; by exists s | done].
  - destruct s as [|b s].
    + split; [done | intros [r Hr]; discriminate].
    + destruct (Ascii.eqb_spec a b) as [->|Hne].
      * rewrite IH. split.
        -- intros [r ->]. by exists r.
        -- intros [r Hr]. injection Hr as ->. by exists r.
      * split; [done | intros [r Hr]; injection Hr as Hab _; congruence].
Qed.

Lemma num_mul_comm (a b : number) : num_mul a b = num_mul b a.
Proof.
  destruct a as [|s| |x], b as [|t| |y]; simpl; try reflexivity;
    rewrite ?(xorb_comm s), ?(xorb_comm (Qnum x <? 0)), ?(orb_comm (Qnum x =? 0));
    try reflexivity.
  all: try (by destruct (Qnum y =? 0); rewrite ?(xorb_comm true)).
  all: try (by destruct (Qnum x =? 0); rewrite ?(xorb_comm true)).
  destruct ((Qnum y =? 0) || (Qnum x =? 0)); [reflexivity|].
  f_equal. unfold Qmult. by rewrite Z.mul_comm, Pos.mul_comm.
Qed.

Lemma split_nonempty (sep : ascii) (s : string) : split sep s <> [].
Proof.
  destruct s as [|c s]; simpl; [done|].
  destruct (Ascii.eqb c sep); [done|]. by destruct (split sep s).
Qed.

Lemma split_app_sep (sep : ascii) (d f : string) :
  split sep (d +:+ String sep f) = (split sep d ++ split sep f)%list.
Proof.
  induction d as [|c d IH]; simpl.
  - by rewrite Ascii.eqb_refl.
  - destruct (Ascii.eqb c sep); [by rewrite IH|].
    rewrite IH. pose proof (split_nonempty sep d) as Hne.
    by destruct (split sep d).
Qed.

Lemma split_no_sep (sep : ascii) (f : string) :
  has_char sep f = false -> split sep f = [f].
Proof.
  induction f as [|c f IH]; simpl; [done|].
  intros [Hc Hf]%orb_false_iff. rewrite Hc. by rewrite IH.
Qed.

Lemma join_cons_char (sep : string) (c : ascii) (w : string) (ws : list string) :
  join sep (String c w :: ws) = String c (join sep (w :: ws)).
Proof. by destruct ws. Qed.

(** Joining what was split gives the string back. *)
Lemma join_split (sep : ascii) (s : string) :
  join (String sep EmptyString) (split sep s) = s.
Proof.
  induction s as [|c s IH]; simpl; [done|].
  pose proof (split_nonempty sep s) as Hne.
  destruct (Ascii.eqb_spec c sep) as [->|Hc].
  - destruct (split sep s) as [|w ws]; [done|]. simpl in *. by rewrite IH.
  - destruct (split sep s) as [|w ws]; [done|].
    rewrite join_cons_char. by rewrite IH.
Qed.

(** [parent_dir] is the part before the last slash. *)
Lemma parent_dir_slash (d f : string) :
  has_char "/" f = false -> parent_dir (d +:+ "/" +:+ f) = d.
Proof.
  intros Hf. unfold parent_dir, slice_0_m1.
  change ("/" +:+ f) with (String "/" f).
  rewrite split_app_sep, (split_no_sep _ f Hf), removelast_last.
  apply join_split.
Qed.

Lemma parent_dir_no_slash (f : string) :
  has_char "/" f = false -> parent_dir f = EmptyString.
Proof.
  intros Hf. unfold parent_dir, slice_0_m1. by rewrite (split_no_sep _ f Hf).
Qed.

(** Code units: one for each ASCII byte and for U+00E9, two for U+1F600;
    spreading a string gives one property for each. *)
Example code_units_examples :
  code_units "ab" = ["a"; "b"]
  /\ code_units (bytes [195; 169]%nat) = [bytes [195; 169]%nat]
  /\ code_units (bytes [240; 159; 152; 128]%nat)
     = [bytes [237; 160; 189]%nat; bytes [237; 184; 128]%nat]
  /\ spread_value (VJson (JStr (bytes [97; 240; 159; 152; 128]%nat)))
     = VJson (JObj [("0", JStr "a"); ("1", JStr (bytes [237; 160; 189]%nat));
                    ("2", JStr (bytes [237; 184; 128]%nat))]).
Proof. repeat apply conj; vm_compute; reflexivity. Qed.

(** ** The backoff policy *)

(** The Number values of the literals [0.5], [0.2] and [0.1]. *)
Lemma round64_half : round64 (1 # 2) = Fin (1 # 2).
Proof. by vm_compute. Qed.

Lemma round64_fifth : round64 (1 # 5) = Fin (3602879701896397 # 18014398509481984).
Proof. by vm_compute. Qed.

Lemma round64_tenth : round64 (1 # 10) = Fin (3602879701896397 # 36028797018963968).
Proof. by vm_compute. Qed.

(** How [round64] rounds: a tie goes to the even significand, the largest
    finite value is 2^1024 - 2^971, half a unit above it is an infinity,
    and half the least subnormal value is zero. *)
Example round64_examples :
  round64 (inject_Z (2 ^ 53 + 1)) = num_of_Z (2 ^ 53)
  /\ round64 (inject_Z (2 ^ 53 + 3)) = num_of_Z (2 ^ 53 + 4)
  /\ round64 (inject_Z (2 ^ 1024 - 2 ^ 970 - 1)) = num_of_Z (2 ^ 1024 - 2 ^ 971)
  /\ round64 (inject_Z (2 ^ 1024 - 2 ^ 970)) = Infinity
  /\ round64 (3 # Z.to_pos (2 ^ 1076)) = Fin (1 # Z.to_pos (2 ^ 1074))
  /\ round64 (-1 # Z.to_pos (2 ^ 1075)) = NegZero
  /\ round64 (1800000000000000 # 8999999999999999) = round64 (1 # 5).
Proof. repeat apply conj; vm_compute; reflexivity. Qed.

Lemma calculateBackoff_of_policy (base : number) (i : RateLimitInfo) :
  calculateBackoff_of base i = backoff_policy base (requestsRemaining i) (totalLimit i).
Proof.
  unfold calculateBackoff_of, backoff_policy, num_lt.
  rewrite round64_half, round64_fifth, round64_tenth.
  destruct (num_strict_eq (requestsRemaining i) Infinity); [reflexivity|].
  set (pct := num_div (requestsRemaining i) (totalLimit i)).
  set (half := Fin _). set (fifth := Fin _). set (tenth := Fin _).
  destruct (num_gt pct half) eqn:H2; [reflexivity|].
  destruct (num_gt pct fifth) eqn:H5; simpl.
  { rewrite (num_gt_false_le pct half); [reflexivity| |exact H2].
    by eapply num_gt_comparable. }
  destruct (num_gt pct tenth) eqn:H10; simpl.
  { rewrite (num_gt_false_le pct fifth); [apply num_mul_comm| |exact H5].
    by eapply num_gt_comparable. }
  apply num_mul_comm.
Qed.

(** ** The allow-list of routes *)

Lemma needsAuth_false_iff (u : string) :
  needsAuth u = false
  <-> exists p r, p ∈ UNAUTHED_ROUTE_PREFIXES /\ u = p +:+ r.
Proof.
  unfold needsAuth. rewrite negb_false_iff, existsb_exists. split.
  - intros (p & Hp & Hs). apply startsWith_spec in Hs as [r ->].
    exists p, r. split; [by apply list_elem_of_In | done].
  - intros (p & r & Hp & ->). exists p. split; [by apply list_elem_of_In|].
    apply startsWith_spec. by exists r.
Qed.

(** C7, as the specification states it, fails: the authentication endpoint
    needs no token although it starts with none of the five listed
    routes. *)
Lemma listed_routes_not_exact :
  needsAuth "/api/authenticate" = false
  /\ existsb (fun p => startsWith p "/api/authenticate") listed_unauthenticated_routes
     = false.
Proof. split; reflexivity. Qed.

(** C7, amended. A URL needs no token exactly when it starts with one of
    the four prefixes [/api/authenticate], [/api/options/], [/config.json]
    and [/api/github/callback]; the five listed routes are among them.
    Started without a token, a call to such a URL goes straight to [fetch]
    with no wait, and a call to any other URL waits
    [WAIT_FOR_AUTH_DELAY_MS] instead of fetching. *)
Theorem needsAuth_allow_list (E : env) (u : string) (op : QueuedOperation) (c : call)
    (m : machine) :
  UNAUTHED_ROUTE_PREFIXES
  = ["/api/authenticate"; "/api/options/"; "/config.json"; "/api/github/callback"]
  /\ (needsAuth u = false <-> exists p r, p ∈ UNAUTHED_ROUTE_PREFIXES /\ u = p +:+ r)
  /\ Forall (fun route => needsAuth route = false) listed_unauthenticated_routes
  /\ (execute op = ExecuteRequest c -> 0 <= maxRetries c ->
      truthy (getToken E (now m)) = false ->
      let m' := start_execute E op m in
      if needsAuth (url c) then
        loop m' = LoopExecute op (AwaitAuthDelay c)
        /\ trace m' = trace m ++ [EvExecute (promise op) (url c); EvSleep WAIT_FOR_AUTH_DELAY_MS]
      else
        loop m' = LoopExecute op (AwaitFetch c)
        /\ trace m'
           = trace m ++ [EvExecute (promise op) (url c);
                         EvFetch (url c)
                           (finalOptions (options c) (getToken E (now m))
                              (getGitHubToken E (now m)))]).
Proof.
  split; [reflexivity|]. split; [apply needsAuth_false_iff|].
  split; [by repeat constructor|].
  intros Hop Hret Htok. unfold start_execute, executeRequest. rewrite Hop. simpl.
  destruct (Z.ltb_spec (maxRetries c) 0) as [?|_]; [lia|].
  rewrite Htok. simpl.
  destruct (needsAuth (url c)); simpl; (split; [reflexivity|]);
    by rewrite <- app_assoc.
Qed.

Lemma needsAuth_allow_list_witness :
  let E := mkEnv (fun _ => None) (fun _ => None) (fun _ => FetchFails) in
  let c := plain_call "/api/options/models" no_options in
  let m' := start_execute E (mkOp (ExecuteRequest c) 0%nat) (new_RateLimiter 0) in
  loop m' = LoopExecute (mkOp (ExecuteRequest c) 0%nat) (AwaitFetch c)
  /\ trace m' = [EvExecute 0%nat "/api/options/models";
                 EvFetch "/api/options/models" (finalOptions no_options None None)].
Proof.
  intros E c.
  exact (proj2 (proj2 (proj2
           (needsAuth_allow_list E "" (mkOp (ExecuteRequest c) 0%nat) c (new_RateLimiter 0))))
         eq_refl ltac:(by vm_compute) eq_refl).
Defined.

(** ** Cache invalidation *)

Lemma cached_or_miss (key : string) (c : call) (k : cont) (w : world) :
  cache w !! key = None -> cached_or key c k w = inr (c, k).
Proof. intros H. unfold cached_or, cache_get. by rewrite H. Qed.

Lemma upload_invalidate_cache (file : list File) (w : world) (key : string) :
  cache (fold_left upload_invalidate file w) !! key
  = if bool_decide
         (key ∈ (fun f => "files:" +:+ parent_dir (upload_path f))
                  <$> filter (fun f => parent_dir (upload_path f) <> EmptyString) file)
    then None else cache w !! key.
Proof.
  revert w. induction file as [|f file IH]; intros w; simpl; [done|].
  rewrite IH, filter_cons. unfold upload_invalidate.
  destruct (decide (parent_dir (upload_path f) <> EmptyString)) as [Hd|Hd].
  - simpl. destruct (parent_dir (upload_path f)) as [|a d] eqn:Hp; [done|].
    simpl. rewrite lookup_delete.
    destruct (decide (String.append "files:" (String a d) = key)) as [<-|Hk].
    + rewrite (bool_decide_eq_true_2 (_ ∈ _ :: _)); [|apply list_elem_of_here].
      by destruct (bool_decide _).
    + destruct (bool_decide_reflect
                  (key ∈ (fun f => "files:" +:+ parent_dir (upload_path f))
                           <$> filter (fun f => parent_dir (upload_path f) <> EmptyString)
                                 file)) as [Hin|Hin].
      * rewrite bool_decide_eq_true_2; [done | by apply list_elem_of_further].
      * rewrite bool_decide_eq_false_2; [done|].
        intros [->|?]%elem_of_cons; [by apply Hk | by apply Hin].
  - apply dec_stable in Hd. by rewrite Hd.
Qed.

Lemma files_key_arg (d : string) :
  files_key (Some d) = "files:" +:+ d /\ d <> EmptyString
  \/ files_key (Some d) = "files:root" /\ d = EmptyString.
Proof. destruct d; [by right | by left]. Qed.

(** The invalidation in the terms of the code: a [saveFile] whose request
    has resolved has deleted exactly the cache entries [file:<path>],
    [files:root] and [files:<parent_dir path>], and an [uploadFiles]
    exactly [files:root] and the entry of each [parent_dir] that is not
    empty; every other entry is as it was. *)
Lemma invalidation_by_parent_dir (path content : string) (file : list File)
    (response : value) (w : world) :
  let ws := snd (api_finish (snd (saveFile path content)) (Resolved response) w) in
  let wu := snd (api_finish (snd (uploadFiles file)) (Resolved response) w) in
  (forall key, cache ws !! key
               = if bool_decide (key ∈ saveFile_keys path) then None else cache w !! key)
  /\ (forall key, cache wu !! key
                  = if bool_decide (key ∈ uploadFiles_keys file) then None
                    else cache w !! key)
  /\ refetches (GetFile path) ws
  /\ refetches (GetFiles None) ws
  /\ refetches (GetFiles (Some (parent_dir path))) ws
  /\ refetches (GetFiles None) wu
  /\ (forall f, f ∈ file -> refetches (GetFiles (Some (parent_dir (upload_path f)))) wu).
Proof.
  intros ws wu.
  assert (Hs : forall key, cache ws !! key
               = if bool_decide (key ∈ saveFile_keys path) then None else cache w !! key).
  { intros key. subst ws. unfold saveFile_keys. simpl.
    rewrite !lookup_delete.
    destruct (decide (_ = key)) as [<-|H3];
      [rewrite bool_decide_eq_true_2; [done | set_solver]|].
    destruct (decide (_ = key)) as [<-|H2];
      [rewrite bool_decide_eq_true_2; [done | set_solver]|].
    destruct (decide (_ = key)) as [<-|H1];
      [rewrite bool_decide_eq_true_2; [done | set_solver]|].
    rewrite bool_decide_eq_false_2; [done|].
    rewrite !elem_of_cons, elem_of_nil. intros [|[|[|[]]]]; congruence. }
  assert (Hu : forall key, cache wu !! key
               = if bool_decide (key ∈ uploadFiles_keys file) then None
                 else cache w !! key).
  { intros key. subst wu. unfold uploadFiles_keys. simpl.
    rewrite upload_invalidate_cache. simpl. rewrite lookup_delete.
    destruct (decide (_ = key)) as [<-|Hr];
      [rewrite (bool_decide_eq_true_2 (_ ∈ _ :: _));
         [by destruct (bool_decide _) | apply list_elem_of_here]|].
    destruct (bool_decide_reflect
                (key ∈ (fun f => "files:" +:+ parent_dir (upload_path f))
                         <$> filter (fun f => parent_dir (upload_path f) <> EmptyString)
                               file)) as [Hin|Hin].
    - rewrite bool_decide_eq_true_2; [done | by apply list_elem_of_further].
    - rewrite bool_decide_eq_false_2; [done|].
      intros [->|?]%elem_of_cons; [by apply Hr | by apply Hin]. }
  assert (Hmiss : forall (v : world) (keys : list string) key c k,
            (forall key, cache v !! key
                         = if bool_decide (key ∈ keys) then None else cache w !! key) ->
            key ∈ keys -> cached_or key c k v = inr (c, k)).
  { intros v keys key c k Hv Hin. apply cached_or_miss.
    rewrite Hv. by rewrite bool_decide_eq_true_2. }
  split; [exact Hs|]. split; [exact Hu|].
  split; [|split; [|split; [|split]]].
  - eexists _, _. simpl. unfold getFile. eapply Hmiss; [exact Hs|]. set_solver.
  - eexists _, _. simpl. unfold getFiles. eapply Hmiss; [exact Hs|].
    unfold saveFile_keys. set_solver.
  - eexists _, _. simpl. unfold getFiles. eapply Hmiss; [exact Hs|].
    unfold saveFile_keys.
    destruct (files_key_arg (parent_dir path)) as [[-> _]|[-> _]]; set_solver.
  - eexists _, _. simpl. unfold getFiles. eapply Hmiss; [exact Hu|].
    unfold uploadFiles_keys. set_solver.
  - intros f Hf. eexists _, _. simpl. unfold getFiles. eapply Hmiss; [exact Hu|].
    unfold uploadFiles_keys.
    destruct (files_key_arg (parent_dir (upload_path f))) as [[-> Hne]|[-> _]];
      [|set_solver].
    apply list_elem_of_further, list_elem_of_fmap.
    exists f. split; [done|]. by apply list_elem_of_filter.
Qed.

(** Saving [/a/b.txt] deletes [file:/a/b.txt], [files:root] and
    [files:/a]; saving [/b.txt] deletes [files:] where the listing of its
    directory is [files:/]. *)
Example saveFile_keys_example :
  saveFile_keys "/a/b.txt" = ["file:/a/b.txt"; "files:root"; "files:/a"]
  /\ saveFile_keys "/b.txt" = ["file:/b.txt"; "files:root"; "files:"]
  /\ uploadFiles_keys [mkFile "f.txt" "dir1/f.txt"] = ["files:root"; "files:dir1"].
Proof. repeat apply conj; reflexivity. Qed.

Lemma uploaded_in_parent_dir (x : File) (od : option string) :
  uploaded_in x od -> parent_dir (upload_path x) = default "" od.
Proof.
  unfold uploaded_in, upload_path. intros H.
  assert (Hp : match webkitRelativePath x with
               | EmptyString => name x
               | p => p
               end
               = if decide (webkitRelativePath x = "") then name x else webkitRelativePath x).
  { by destruct (webkitRelativePath x). }
  rewrite Hp. destruct od as [d|]; cbn [default].
  - destruct H as (f & Hf & ->). by apply parent_dir_slash.
  - by apply parent_dir_no_slash.
Qed.

Lemma directory_keys_cons (od : option string) (ods : list (option string)) :
  directory_keys (od :: ods)
  = match od with
    | Some (String a d) => ["files:" +:+ String a d]
    | _ => []
    end ++ directory_keys ods.
Proof. by destruct od as [[|a d]|]. Qed.

Lemma uploadFiles_keys_directories (file : list File) (ods : list (option string)) :
  Forall2 uploaded_in file ods -> uploadFiles_keys file = "files:root" :: directory_keys ods.
Proof.
  intros H. unfold uploadFiles_keys. f_equal.
  induction H as [|x od file ods Hx _ IH]; [done|].
  rewrite filter_cons. apply uploaded_in_parent_dir in Hx.
  rewrite directory_keys_cons.
  destruct (decide (parent_dir (upload_path x) <> "")) as [Hd|Hd].
  - rewrite fmap_cons, IH, Hx. rewrite Hx in Hd. by destruct od as [[|a d]|].
  - apply dec_stable in Hd. rewrite IH. rewrite Hx in Hd. by destruct od as [[|a d]|].
Qed.

(** C8. Where the code departs from the claim: the parent directory is
    taken as the text before the last slash.  For a path [d/f] a
    [saveFile] whose request has resolved has deleted exactly
    [file:<d/f>], [files:root] and [files:<d>], an [uploadFiles] exactly
    [files:root] and [files:<d>] for each uploaded file of a directory [d]
    whose text is not empty, and [getFile] and [getFiles] for these go to
    the back end.  But for a file of the directory [/] the text [d] is
    empty: [files:] is deleted, the listing [files:/] of the file's
    directory stays, and [getFiles] of [/] goes on answering from it. *)
Theorem invalidation_misses_root_directory (d f content : string) (file : list File)
    (ods : list (option string)) (response listing : value) (w : world) :
  has_char "/" f = false ->
  Forall2 uploaded_in file ods ->
  let path := d +:+ "/" +:+ f in
  let ws := snd (api_finish (snd (saveFile path content)) (Resolved response) w) in
  let wu := snd (api_finish (snd (uploadFiles file)) (Resolved response) w) in
  (forall key, cache ws !! key
               = if bool_decide (key ∈ ["file:" +:+ path; "files:root"; "files:" +:+ d])
                 then None else cache w !! key)
  /\ (forall key, cache wu !! key
                  = if bool_decide (key ∈ "files:root" :: directory_keys ods) then None
                    else cache w !! key)
  /\ refetches (GetFile path) ws
  /\ refetches (GetFiles None) ws
  /\ refetches (GetFiles (Some d)) ws
  /\ refetches (GetFiles None) wu
  /\ (forall dx, Some dx ∈ ods -> refetches (GetFiles (Some dx)) wu)
  /\ (d = "" -> cache w !! "files:/" = Some listing -> truthy_value (Some listing) = true ->
      cache ws !! "files:/" = Some listing
      /\ api_start (GetFiles (Some "/")) ws = inl (Resolved listing)).
Proof.
  intros Hf Hup path ws wu.
  destruct (invalidation_by_parent_dir path content file response w)
    as (Hs & Hu & G1 & G2 & G3 & G4 & G5).
  fold ws in Hs, G1, G2, G3. fold wu in Hu, G4, G5.
  unfold saveFile_keys in Hs. unfold path in Hs, G3 at 1.
  rewrite (parent_dir_slash d f Hf) in Hs, G3. fold path in Hs.
  rewrite (uploadFiles_keys_directories file ods Hup) in Hu.
  repeat apply conj; try done.
  - intros dx Hin. apply list_elem_of_lookup in Hin as [i Hi].
    destruct (Forall2_lookup_r _ _ _ _ _ Hup Hi) as (x & Hx & Hxd).
    apply list_elem_of_lookup_2 in Hx. apply G5 in Hx.
    by rewrite (uploaded_in_parent_dir x (Some dx) Hxd) in Hx.
  - intros -> Hc Ht.
    assert (Hk : cache ws !! "files:/" = Some listing).
    { rewrite Hs, bool_decide_eq_false_2; [done|].
      rewrite !elem_of_cons, elem_of_nil. unfold path.
      intros [H|[H|[H|[]]]]; cbv [String.append] in H; discriminate H. }
    split; [done|].
    cbn [api_start]. unfold getFiles, cached_or, cache_get.
    change (files_key (Some "/")) with "files:/". by rewrite Hk, Ht.
Qed.

(** Saving [/b.txt] while the listing of [/] is cached: the listing is
    still there afterwards, and [getFiles] answers with it. *)
Lemma invalidation_misses_root_directory_witness :
  let listing := VJson (JArr [JStr "b.txt"]) in
  let w := cache_set "files:/" listing (new_world 0) in
  let ws := snd (api_finish (snd (saveFile "/b.txt" "x")) (Resolved (VJson JNull)) w) in
  cache ws !! "files:/" = Some listing
  /\ api_start (GetFiles (Some "/")) ws = inl (Resolved listing).
Proof.
  intros listing w ws.
  destruct (invalidation_misses_root_directory "" "b.txt" "x" [mkFile "f.txt" "dir1/f.txt"]
              [Some "dir1"] (VJson JNull) listing w)
    as (_ & _ & _ & _ & _ & _ & _ & Hstale).
  - reflexivity.
  - constructor; [|constructor]. exists "f.txt". split; reflexivity.
  - apply Hstale; [reflexivity | vm_compute; reflexivity | reflexivity].
Defined.

(** ** What the queue and the executor leave alone *)

Lemma same_info_refl (m : machine) : same_info m m.
Proof. by split. Qed.

Lemma same_info_trans (m1 m2 m3 : machine) :
  same_info m1 m2 -> same_info m2 m3 -> same_info m1 m3.
Proof. intros [? ?] [? ?]. split; congruence. Qed.

Lemma same_info_snapshot (m m' : machine) :
  same_info m m' -> limiter_snapshot m' = limiter_snapshot m.
Proof. intros [H1 H2]. unfold limiter_snapshot. by rewrite H1, H2. Qed.

Lemma start_execute_same_info (E : env) (op : QueuedOperation) (m : machine) :
  same_info m (start_execute E op m).
Proof. unfold start_execute, executeRequest. same_info_tac. Qed.

Lemma dispatch_same_info (E : env) (m : machine) : same_info m (dispatch E m).
Proof.
  unfold dispatch. destruct (requestQueue (limiter m)); [by same_info_tac|].
  eapply same_info_trans; [|apply start_execute_same_info]. by same_info_tac.
Qed.

Lemma loop_head_same_info (E : env) (m : machine) : same_info m (loop_head E m).
Proof.
  unfold loop_head. destruct (requestQueue (limiter m)); [by same_info_tac|].
  destruct (num_gt _ _); [by same_info_tac | apply dispatch_same_info].
Qed.

Lemma processQueue_same_info (E : env) (m : machine) : same_info m (processQueue E m).
Proof.
  unfold processQueue. destruct (isProcessing _); [apply same_info_refl|].
  destruct (requestQueue (limiter m)) eqn:Hq; [apply same_info_refl|].
  eapply same_info_trans; [|apply loop_head_same_info]. by same_info_tac.
Qed.

Lemma enqueue_same_info (E : env) (u : unit_body) (m : machine) :
  same_info m (enqueue E u m).2.
Proof.
  unfold enqueue. simpl. destruct (isProcessing _); [by same_info_tac|].
  eapply same_info_trans; [|apply processQueue_same_info]. by same_info_tac.
Qed.

Lemma on_catch_same_info (c : call) (op : QueuedOperation) (m : machine) :
  same_info m (on_catch c op m).
Proof. unfold on_catch. same_info_tac. Qed.

(** ** Responses and the stored quota *)

Lemma updateRateLimits_snapshot (headers : gmap string string) (m : machine) :
  limiter_snapshot (updateRateLimits headers m)
  = (parseInt (or_else (headers !! "x-ratelimit-remaining") "Infinity"),
     reset_time headers (now m),
     parseInt (or_else (headers !! "x-ratelimit-limit") "Infinity")).
Proof.
  unfold limiter_snapshot, snapshot, updateRateLimits, reset_time, new_Date, new_info.
  simpl. by rewrite !lookup_total_insert_eq.
Qed.

Lemma updateRateLimits_fresh (headers : gmap string string) (m : machine) :
  rateLimitInfo (limiter (updateRateLimits headers m)) ∉ dom (infos (store m)).
Proof. unfold updateRateLimits, new_Date, new_info. simpl. apply is_fresh. Qed.

(** After the quota update, [executeRequest] leaves the heap and the
    record alone up to its next suspension. *)
Lemma on_response_same_info (E : env) (c : call) (r : Response) (op : QueuedOperation)
    (m : machine) :
  same_info (headers_read r m) (on_response E c r op m).
Proof.
  unfold on_response. set (m1 := headers_read r m).
  destruct (status r =? 401).
  { unfold request. pose proof (enqueue_same_info E (ExecuteRequest authenticate_call) m1) as H.
    destruct (enqueue E (ExecuteRequest authenticate_call) m1) as [p m2]. exact H. }
  destruct (status r =? 429).
  { destruct (resp_headers r); [by same_info_tac | apply on_catch_same_info]. }
  destruct (400 <=? status r).
  { eapply same_info_trans; [|apply on_catch_same_info]. by same_info_tac. }
  destruct (negb (ok r)).
  { eapply same_info_trans; [|apply on_catch_same_info]. by same_info_tac. }
  by same_info_tac.
Qed.

(** C2, as the specification states it, fails: a response whose headers
    carry none of the three fields replaces the stored record.  Here the
    limiter holds 10 of 100 requests, reset at 17 s; the response makes it
    hold something else. *)
Lemma missing_headers_overwrite :
  let E := mkEnv (fun _ => Some "token") (fun _ => None) (fun _ => FetchFails) in
  let c := plain_call "/api/list-files" no_options in
  let headers : gmap string string :=
    {[ "x-ratelimit-remaining" := "10"; "x-ratelimit-limit" := "100";
       "x-ratelimit-reset" := "17" ]} in
  let m := updateRateLimits headers (new_RateLimiter 0) in
  let r := mkResponse 200 "OK" (Some ∅) (Some JNull) in
  let m' := on_response E c r (mkOp (ExecuteRequest c) 0%nat) m in
  limiter_snapshot m = (num_of_Z 10, num_of_Z 17000, num_of_Z 100)
  /\ (limiter_snapshot m').1.1 <> num_of_Z 10
  /\ (limiter_snapshot m').1.2 = num_of_Z 0
  /\ (limiter_snapshot m').2 <> num_of_Z 100.
Proof.
  vm_compute. repeat split; try reflexivity; discriminate.
Qed.

(** C2, amended. A response without a [headers] object leaves the stored
    record as it is.  A response with one always replaces the record by a
    new one, whether or not the rate-limit fields are there: a field that
    is present is parsed from its header, and the reset time is the header
    in milliseconds when it is present and the time of the response when
    it is not. *)
Theorem response_updates_limits (E : env) (c : call) (r : Response) (op : QueuedOperation)
    (m : machine) :
  let m' := on_response E c r op m in
  match resp_headers r with
  | None =>
      rateLimitInfo (limiter m') = rateLimitInfo (limiter m)
      /\ limiter_snapshot m' = limiter_snapshot m
  | Some headers =>
      (rateLimitInfo (limiter m') ∉ dom (infos (store m)))
      /\ (limiter_snapshot m').1.2 = reset_time headers (now m)
      /\ (forall s, headers !! "x-ratelimit-remaining" = Some s -> s <> EmptyString ->
           (limiter_snapshot m').1.1 = parseInt s)
      /\ (forall s, headers !! "x-ratelimit-limit" = Some s -> s <> EmptyString ->
           (limiter_snapshot m').2 = parseInt s)
  end.
Proof.
  intros m'. pose proof (on_response_same_info E c r op m) as Hs. fold m' in Hs.
  unfold headers_read in Hs.
  destruct (resp_headers r) as [headers|].
  - rewrite (same_info_snapshot _ _ Hs), updateRateLimits_snapshot.
    destruct Hs as [_ ->]. cbn [fst snd].
    split; [apply updateRateLimits_fresh|]. split; [reflexivity|].
    split; intros s -> Hne; by destruct s.
  - split; [apply Hs | by apply same_info_snapshot].
Qed.

(** ** Snapshots *)


Lemma spread_info_snapshot (o : loc) (h : heap) :
  snapshot (spread_info o h).2 (spread_info o h).1 = snapshot h o.
Proof.
  unfold spread_info, new_info, snapshot. simpl. by rewrite lookup_total_insert_eq.
Qed.



Lemma mutate_dom (o : loc) (mu : mutation) (h : heap) (l : loc) :
  l ∈ dom (infos h) -> l ∈ dom (infos (mutate o mu h)).
Proof.
  intros Hl. unfold mutate. destruct mu; simpl; rewrite ?dom_insert_L; set_solver.
Qed.


Lemma getRateLimitInfo_fst (m : machine) :
  (getRateLimitInfo m).1 = (spread_info (rateLimitInfo (limiter m)) (store m)).1.
Proof. unfold getRateLimitInfo. by destruct (spread_info _ _). Qed.

Lemma getRateLimitInfo_snd (m : machine) :
  (getRateLimitInfo m).2
  = set_store (spread_info (rateLimitInfo (limiter m)) (store m)).2 m.
Proof. unfold getRateLimitInfo. by destruct (spread_info _ _). Qed.

Lemma getRateLimitStatus_info (w : world) (l : loc) :
  OpenHands_rateLimitInfo w = OhInfo l ->
  getRateLimitStatus w
  = (VInfo (spread_info l (store (api w))).1,
     set_api (set_store (spread_info l (store (api w))).2 (api w)) w).
Proof. intros H. unfold getRateLimitStatus. rewrite H. by destruct (spread_info _ _). Qed.




(** ** The queue while the drain loop is busy *)

Lemma enqueue_processing (E : env) (u : unit_body) (m : machine) :
  isProcessing (limiter m) = true ->
  enqueue E u m = (next_pid m, push_operation u m).
Proof. intros H. unfold enqueue. simpl. by rewrite H. Qed.

(** A machine that cannot take a turn stays as it is. *)
Lemma run_stuck (E : env) (fuel : nat) (m : machine) :
  resume E m = None -> run E fuel m = m.
Proof. intros H. destruct fuel; simpl; [done | by rewrite H]. Qed.

(** While the drain loop is busy, a call of [request] only queues its
    unit: the loop, the promises, the heap, the clock, the fetches and the
    trace are as before. *)
Lemma request_processing (E : env) (c : call) (m : machine) :
  isProcessing (limiter m) = true ->
  (request E c m).2 = push_operation (ExecuteRequest c) m.
Proof. intros H. unfold request. by rewrite enqueue_processing. Qed.

Lemma request_all_processing (E : env) (cs : list call) (m : machine) :
  isProcessing (limiter m) = true ->
  let m' := request_all E cs m in
  loop m' = loop m /\ promises m' = promises m /\ fetches m' = fetches m
  /\ trace m' = trace m /\ isProcessing (limiter m') = true
  /\ requestQueue (limiter m')
     = requestQueue (limiter m)
       ++ imap (fun i c => mkOp (ExecuteRequest c) (next_pid m + i)%nat) cs.
Proof.
  revert m. induction cs as [|c cs IH]; intros m Hp.
  - simpl. by rewrite app_nil_r.
  - change (request_all E (c :: cs) m) with (request_all E cs (request E c m).2).
    rewrite (request_processing E c m Hp).
    destruct (IH (push_operation (ExecuteRequest c) m) Hp) as (H1 & H2 & H3 & H4 & H5 & H6).
    lazy zeta. rewrite H1, H2, H3, H4, H5, H6.
    repeat split. cbn [push_operation requestQueue limiter set_limiter set_requestQueue
                         next_pid set_next_pid imap].
    rewrite <- app_assoc. cbn [app]. rewrite Nat.add_0_r. do 2 f_equal.
    apply imap_ext. intros i x _. cbn. f_equal. lia.
Qed.

(** Whether [resume] can take a turn depends on the loop and the promises
    only. *)
Lemma resume_None_ext (E : env) (m m' : machine) :
  loop m' = loop m -> promises m' = promises m -> resume E m = None -> resume E m' = None.
Proof.
  unfold resume. intros -> ->.
  destruct (loop m) as [|b|op e|b|]; try done.
  destruct e as [c|c|c p|c ms|c r|p|o]; try done.
  - by destruct (network E (fetches m)).
  - by destruct (promises m !! p) as [[v|e]|].
  - by destruct (resp_json r).
  - by destruct (promises m !! p).
Qed.

Lemma updateRateLimits_frame (headers : gmap string string) (m : machine) :
  same_control m (updateRateLimits headers m).
Proof. unfold same_control, updateRateLimits, new_Date, new_info. simpl. done. Qed.

Lemma updateRateLimits_trace (headers : gmap string string) (m : machine) :
  trace (updateRateLimits headers m)
  = trace m ++ [EvLimitUpdate (rateLimitInfo (limiter (updateRateLimits headers m)))].
Proof. unfold updateRateLimits, new_Date, new_info. simpl. done. Qed.

Lemma headers_read_frame (r : Response) (m : machine) :
  same_control m (headers_read r m).
Proof.
  unfold headers_read. destruct (resp_headers r); [apply updateRateLimits_frame | done].
Qed.

(** ** Re-authentication *)

(** A unit that meets a 401 queues the re-authentication call and awaits
    it. *)
Lemma push_operation_frame (u : unit_body) (m : machine) :
  let m' := push_operation u m in
  isProcessing (limiter m') = isProcessing (limiter m)
  /\ loop m' = loop m /\ promises m' = promises m /\ fetches m' = fetches m
  /\ trace m' = trace m /\ now m' = now m /\ store m' = store m
  /\ next_pid m' = S (next_pid m)
  /\ requestQueue (limiter m') = requestQueue (limiter m) ++ [mkOp u (next_pid m)].
Proof. done. Qed.

Lemma on_response_401 (E : env) (m : machine) (op : QueuedOperation) (c : call)
    (r : Response) :
  isProcessing (limiter m) = true ->
  status r = 401 ->
  on_response E c r op m
  = set_loop (LoopExecute op (AwaitReauth c (next_pid m)))
      (push_operation (ExecuteRequest authenticate_call) (headers_read r m)).
Proof.
  intros Hp Hst. unfold on_response. rewrite Hst. lazy zeta.
  change (401 =? 401) with true. cbv iota.
  destruct (headers_read_frame r m) as (_ & Hp' & _ & _ & _ & Hn & _).
  unfold request. rewrite enqueue_processing by (by rewrite Hp').
  by rewrite Hn.
Qed.

Lemma resume_401 (E : env) (m : machine) (op : QueuedOperation) (c : call) (r : Response) :
  loop m = LoopExecute op (AwaitFetch c) ->
  isProcessing (limiter m) = true ->
  network E (fetches m) = FetchResponse r ->
  status r = 401 ->
  resume E m
  = Some (set_loop (LoopExecute op (AwaitReauth c (next_pid m)))
            (push_operation (ExecuteRequest authenticate_call)
               (headers_read r (set_fetches (S (fetches m)) m)))).
Proof.
  intros Hloop Hp Hnet Hst. unfold resume. rewrite Hloop, Hnet.
  by rewrite on_response_401.
Qed.

(** C5. Where the code departs from the claim: on a 401 the unit queues one
    re-authentication call, with notifications suppressed, behind itself
    and awaits it; the drain loop is awaiting the unit, so the
    re-authentication is never executed, no retry of the original call is
    ever queued, and the call never settles, whatever is requested later
    and however long the machine runs. *)
Theorem reauthentication_never_runs (E : env) (m : machine) (op : QueuedOperation)
    (c : call) (r : Response) (later : list call) (fuel : nat) :
  loop m = LoopExecute op (AwaitFetch c) ->
  isProcessing (limiter m) = true ->
  fresh_promises m ->
  network E (fetches m) = FetchResponse r ->
  status r = 401 ->
  exists m1,
    resume E m = Some m1
    /\ requestQueue (limiter m1)
       = requestQueue (limiter m) ++ [mkOp (ExecuteRequest authenticate_call) (next_pid m)]
    /\ disableToast authenticate_call = true
    /\ let m2 := run E fuel (request_all E later m1) in
       loop m2 = LoopExecute op (AwaitReauth c (next_pid m))
       /\ promises m2 = promises m
       /\ fetches m2 = S (fetches m)
       /\ trace m2 = trace m1
       /\ requestQueue (limiter m2)
          = requestQueue (limiter m1)
            ++ imap (fun i c' => mkOp (ExecuteRequest c') (S (next_pid m) + i)%nat) later.
Proof.
  intros Hloop Hp Hfresh Hnet Hst.
  eexists. split; [by apply resume_401|].
  pose proof (headers_read_frame r (set_fetches (S (fetches m)) m)) as Hfr.
  set (m0 := headers_read r (set_fetches (S (fetches m)) m)) in *.
  clearbody m0. destruct Hfr as (Hq & Hp' & _ & _ & Hpr & Hn & _ & Hf).
  simpl in Hq, Hp', Hpr, Hn, Hf.
  set (m1 := set_loop _ _).
  assert (Hp1 : isProcessing (limiter m1) = true) by (subst m1; simpl; by rewrite Hp').
  split; [subst m1; simpl; by rewrite Hq, Hn|]. split; [reflexivity|].
  destruct (request_all_processing E later m1 Hp1) as (H1 & H2 & H3 & H4 & _ & H6).
  assert (Hstuck : resume E (request_all E later m1) = None).
  { apply (resume_None_ext E m1); [done | done |].
    unfold resume. subst m1. simpl. rewrite Hpr, Hfresh; [done | lia]. }
  lazy zeta. rewrite (run_stuck E fuel _ Hstuck), H1, H2, H3, H4, H6.
  subst m1. simpl. by rewrite Hpr, Hf, Hn.
Qed.

Lemma reauthentication_never_runs_witness :
  let E := always_answers (mkResponse 401 "Unauthorized" (Some ∅) None) in
  let m := (request E list_files (new_RateLimiter 0)).2 in
  exists m1,
    resume E m = Some m1
    /\ requestQueue (limiter m1) = [mkOp (ExecuteRequest authenticate_call) 1%nat]
    /\ disableToast authenticate_call = true
    /\ let m2 := run E 100 (request_all E [list_files] m1) in
       loop m2 = LoopExecute (mkOp (ExecuteRequest list_files) 0%nat)
                   (AwaitReauth list_files 1%nat)
       /\ promises m2 = ∅
       /\ fetches m2 = 1%nat
       /\ trace m2 = trace m1
       /\ requestQueue (limiter m2)
          = [mkOp (ExecuteRequest authenticate_call) 1%nat;
             mkOp (ExecuteRequest list_files) 2%nat].
Proof.
  intros E m.
  destruct (reauthentication_never_runs E m (mkOp (ExecuteRequest list_files) 0%nat)
              list_files (mkResponse 401 "Unauthorized" (Some ∅) None) [list_files] 100)
    as (m1 & H1 & H2 & H3 & H4 & H5 & H6 & H7 & H8);
    [vm_compute; reflexivity | vm_compute; reflexivity | intros p _; apply lookup_empty
    | vm_compute; reflexivity | vm_compute; reflexivity |].
  exists m1. rewrite H2 in H8. by repeat split.
Defined.

(** ** Retry after a 429 *)

Lemma resume_429 (E : env) (m : machine) (op : QueuedOperation) (c : call) (r : Response)
    (headers : gmap string string) :
  loop m = LoopExecute op (AwaitFetch c) ->
  network E (fetches m) = FetchResponse r ->
  status r = 429 ->
  resp_headers r = Some headers ->
  resume E m
  = Some (set_loop (LoopExecute op (AwaitRetryAfter c (retry_after_ms headers)))
            (sleep (retry_after_ms headers)
               (updateRateLimits headers (set_fetches (S (fetches m)) m)))).
Proof.
  intros Hloop Hnet Hst Hh. unfold resume. rewrite Hloop, Hnet.
  unfold on_response, headers_read. rewrite Hst, Hh. reflexivity.
Qed.

Lemma resume_retry_after (E : env) (m : machine) (op : QueuedOperation) (c : call)
    (ms : number) :
  loop m = LoopExecute op (AwaitRetryAfter c ms) ->
  isProcessing (limiter m) = true ->
  resume E m
  = Some (set_loop (LoopExecute op (Adopted (next_pid m)))
            (push_operation (ExecuteRequest (retry c)) (advance ms m))).
Proof.
  intros Hloop Hp. unfold resume. rewrite Hloop.
  unfold request. by rewrite enqueue_processing.
Qed.

(** C6. Where the code departs from the claim: on a 429 the unit reads
    [retry-after] (5 when the header is absent, 2000 ms for [retry-after: 2]),
    sleeps for that long and queues the retry, with the budget less one,
    behind itself; the drain loop is awaiting the unit, so the retry is
    never executed and the call never settles, whatever is requested
    later and however long the machine runs. *)
Theorem rate_limited_retry_never_runs (E : env) (m : machine) (op : QueuedOperation)
    (c : call) (r : Response) (headers : gmap string string) (later : list call)
    (fuel : nat) :
  loop m = LoopExecute op (AwaitFetch c) ->
  isProcessing (limiter m) = true ->
  fresh_promises m ->
  network E (fetches m) = FetchResponse r ->
  status r = 429 ->
  resp_headers r = Some headers ->
  (headers !! "retry-after" = None -> retry_after_ms headers = num_of_Z 5000)
  /\ (headers !! "retry-after" = Some "2" -> retry_after_ms headers = num_of_Z 2000)
  /\ exists m1 m2,
       resume E m = Some m1
       /\ loop m1 = LoopExecute op (AwaitRetryAfter c (retry_after_ms headers))
       /\ (exists l, trace m1 = trace m ++ [EvLimitUpdate l; EvSleep (retry_after_ms headers)])
       /\ resume E m1 = Some m2
       /\ now m2 = now m + delay_ms (retry_after_ms headers)
       /\ requestQueue (limiter m2)
          = requestQueue (limiter m) ++ [mkOp (ExecuteRequest (retry c)) (next_pid m)]
       /\ maxRetries (retry c) = maxRetries c - 1
       /\ let m3 := run E fuel (request_all E later m2) in
          loop m3 = LoopExecute op (Adopted (next_pid m))
          /\ promises m3 = promises m
          /\ fetches m3 = S (fetches m)
          /\ trace m3 = trace m1
          /\ requestQueue (limiter m3)
             = requestQueue (limiter m2)
               ++ imap (fun i c' => mkOp (ExecuteRequest c') (S (next_pid m) + i)%nat) later.
Proof.
  intros Hloop Hp Hfresh Hnet Hst Hh.
  split; [intros Hn; unfold retry_after_ms; by rewrite Hn|].
  split; [intros Hn; unfold retry_after_ms; by rewrite Hn|].
  set (ms := retry_after_ms headers).
  pose proof (updateRateLimits_frame headers (set_fetches (S (fetches m)) m)) as Hfr.
  pose proof (updateRateLimits_trace headers (set_fetches (S (fetches m)) m)) as Htr.
  pose proof (resume_429 E m op c r headers Hloop Hnet Hst Hh) as Hres. fold ms in Hres.
  set (mu := updateRateLimits headers (set_fetches (S (fetches m)) m)) in *.
  clearbody mu. destruct Hfr as (Hq & Hp' & _ & _ & Hpr & Hn & Hnow & Hf).
  simpl in Hq, Hp', Hpr, Hn, Hnow, Hf, Htr.
  set (m1 := set_loop (LoopExecute op (AwaitRetryAfter c ms)) (sleep ms mu)) in *.
  assert (Hp1 : isProcessing (limiter m1) = true) by (subst m1; simpl; by rewrite Hp').
  assert (Hn1 : next_pid m1 = next_pid m) by (subst m1; simpl; by rewrite Hn).
  set (m2 := set_loop (LoopExecute op (Adopted (next_pid m1)))
               (push_operation (ExecuteRequest (retry c)) (advance ms m1))).
  exists m1, m2.
  split; [exact Hres|]. split; [reflexivity|].
  split; [eexists; subst m1; simpl; rewrite Htr; by rewrite <- app_assoc|].
  split; [by apply resume_retry_after|].
  split; [subst m2 m1; simpl; by rewrite Hnow|].
  split; [subst m2 m1; simpl; by rewrite Hq, Hn|].
  split; [reflexivity|].
  assert (Hp2 : isProcessing (limiter m2) = true) by (subst m2; simpl; exact Hp1).
  destruct (request_all_processing E later m2 Hp2) as (H1 & H2 & H3 & H4 & _ & H6).
  assert (Hstuck : resume E (request_all E later m2) = None).
  { apply (resume_None_ext E m2); [done | done |].
    unfold resume. subst m2 m1. simpl. rewrite Hn, Hpr. by rewrite Hfresh. }
  lazy zeta. rewrite (run_stuck E fuel _ Hstuck), H1, H2, H3, H4, H6.
  subst m2 m1. simpl. by rewrite Hn, Hpr, Hf.
Qed.

Lemma rate_limited_retry_never_runs_witness :
  let r := mkResponse 429 "Too Many Requests" (Some {[ "retry-after" := "2" ]}) None in
  let E := always_answers r in
  let m := (request E list_files (new_RateLimiter 0)).2 in
  exists m1 m2,
    resume E m = Some m1
    /\ loop m1 = LoopExecute (mkOp (ExecuteRequest list_files) 0%nat)
                  (AwaitRetryAfter list_files (num_of_Z 2000))
    /\ resume E m1 = Some m2
    /\ now m2 = 2000
    /\ requestQueue (limiter m2) = [mkOp (ExecuteRequest (retry list_files)) 1%nat]
    /\ let m3 := run E 100 m2 in
       loop m3 = LoopExecute (mkOp (ExecuteRequest list_files) 0%nat) (Adopted 1%nat)
       /\ promises m3 = ∅
       /\ fetches m3 = 1%nat.
Proof.
  intros r E m.
  destruct (rate_limited_retry_never_runs E m (mkOp (ExecuteRequest list_files) 0%nat)
              list_files r {[ "retry-after" := "2" ]} [] 100)
    as (_ & Hms & m1 & m2 & H1 & H2 & _ & H3 & H4 & H5 & _ & H6 & H7 & H8 & _);
    [vm_compute; reflexivity | vm_compute; reflexivity | intros p _; apply lookup_empty
    | vm_compute; reflexivity | vm_compute; reflexivity | vm_compute; reflexivity |].
  rewrite (Hms eq_refl) in H2, H4.
  exists m1, m2. by repeat split.
Defined.

(** ** The retry budget *)

Lemma start_execute_waits (E : env) (F : nat) (p : pid) (c : call) (m : machine) :
  0 <= maxRetries c -> answers_retry E F c ->
  promises m !! p = None -> isProcessing (limiter m) = true -> fresh_promises m ->
  (p < next_pid m)%nat -> fetches m = F ->
  waits_for_retry E F p c (start_execute E (mkOp (ExecuteRequest c) p) m).
Proof.
  intros Hb Hr Hp Hproc Hfresh Hlt Hf. unfold start_execute, executeRequest. simpl.
  destruct (Z.ltb_spec (maxRetries c) 0) as [?|_]; [lia|].
  destruct (negb (truthy (getToken E (now m))) && needsAuth (url c)) eqn:Hauth.
  - repeat split; try done.
  - repeat split; try done. destruct Hr as [[Ht Hn]|Hr]; [|exact Hr].
    rewrite Ht, Hn in Hauth. discriminate.
Qed.

Lemma dispatch_waits (E : env) (F : nat) (p : pid) (c : call) (m : machine)
    (rest : list QueuedOperation) :
  0 <= maxRetries c -> answers_retry E F c ->
  requestQueue (limiter m) = mkOp (ExecuteRequest c) p :: rest ->
  promises m !! p = None -> isProcessing (limiter m) = true -> fresh_promises m ->
  (p < next_pid m)%nat -> fetches m = F ->
  waits_for_retry E F p c (dispatch E m).
Proof.
  intros Hb Hr Hq Hp Hproc Hfresh Hlt Hf. unfold dispatch. rewrite Hq.
  by apply start_execute_waits.
Qed.

Lemma fresh_promises_mono (m m' : machine) :
  fresh_promises m -> promises m' = promises m -> (next_pid m <= next_pid m')%nat ->
  fresh_promises m'.
Proof. intros H Hp Hn q Hq. rewrite Hp. apply H. lia. Qed.

(** A unit that waits for its retry still does so after a turn. *)
Lemma waits_for_retry_resume (E : env) (F : nat) (p : pid) (c : call) (m m' : machine) :
  0 <= maxRetries c -> answers_retry E F c ->
  waits_for_retry E F p c m -> resume E m = Some m' -> waits_for_retry E F p c m'.
Proof.
  intros Hb Hr (Hp & Hproc & Hfresh & Hlt & Hloop) Hres.
  unfold resume in Hres.
  destruct (loop m) as [|b|op e|b|] eqn:Hl; try done.
  - destruct Hloop as [[rest Hq] Hf]. injection Hres as <-.
    by eapply dispatch_waits.
  - destruct Hloop as [-> He].
    destruct e as [c'|c'|c' q|c' ms|c' r|q|o]; try done.
    + destruct He as [-> Hf]. unfold request in Hres.
      rewrite enqueue_processing in Hres by done. injection Hres as <-.
      split; [exact Hp|]. split; [exact Hproc|].
      split; [eapply fresh_promises_mono; [exact Hfresh | done | simpl; lia]|].
      split; [simpl; lia|]. simpl. split; [done|].
      split; [by apply Hfresh | lia].
    + destruct He as (-> & Hf & r & Hnet & Hst). rewrite Hf, Hnet in Hres.
      injection Hres as <-.
      pose proof (headers_read_frame r (set_fetches (S F) m)) as Hfr.
      destruct Hst as [Hst|[Hst [headers Hh]]].
      * rewrite on_response_401 by done.
        set (m0 := headers_read r (set_fetches (S F) m)) in *. clearbody m0.
        destruct Hfr as (_ & Hp' & _ & _ & Hpr & Hn & _ & Hf'). simpl in Hp', Hpr, Hn, Hf'.
        split; [simpl; by rewrite Hpr|]. split; [simpl; by rewrite Hp'|].
        split; [eapply fresh_promises_mono; [exact Hfresh | simpl; by rewrite Hpr
                                            | simpl; lia]|].
        split; [simpl; lia|]. simpl. split; [done|]. split; [done|].
        split; [rewrite Hpr; by apply Hfresh | done].
      * unfold on_response, headers_read in *. rewrite Hst, Hh in *.
        change (429 =? 401) with false. change (429 =? 429) with true. lazy beta iota zeta.
        set (m0 := updateRateLimits headers (set_fetches (S F) m)) in *. clearbody m0.
        destruct Hfr as (_ & Hp' & _ & _ & Hpr & Hn & _ & Hf'). simpl in Hp', Hpr, Hn, Hf'.
        split; [simpl; by rewrite Hpr|]. split; [simpl; by rewrite Hp'|].
        split; [eapply fresh_promises_mono; [exact Hfresh | simpl; by rewrite Hpr
                                            | simpl; lia]|].
        split; [simpl; lia|]. simpl. done.
    + destruct He as (-> & Hq & Hf). by rewrite Hq in Hres.
    + destruct He as [-> Hf]. unfold request in Hres.
      rewrite enqueue_processing in Hres by done. injection Hres as <-.
      split; [exact Hp|]. split; [exact Hproc|].
      split; [eapply fresh_promises_mono; [exact Hfresh | done | simpl; lia]|].
      split; [simpl; lia|]. simpl. split; [done|].
      split; [by apply Hfresh | lia].
    + destruct He as [Hq Hf]. by rewrite Hq in Hres.
Qed.

Lemma waits_for_retry_run (E : env) (F : nat) (p : pid) (c : call) (fuel : nat)
    (m : machine) :
  0 <= maxRetries c -> answers_retry E F c ->
  waits_for_retry E F p c m -> waits_for_retry E F p c (run E fuel m).
Proof.
  intros Hb Hr. revert m. induction fuel as [|fuel IH]; intros m Hw; simpl; [done|].
  destruct (resume E m) as [m'|] eqn:Hres; [|done].
  apply IH. by eapply waits_for_retry_resume.
Qed.

(** On an idle machine [enqueue] starts the drain loop. *)
Lemma enqueue_idle (E : env) (u : unit_body) (m : machine) :
  idle m ->
  (enqueue E u m).2
  = loop_head E
      (set_limiter (mkLimiter (rateLimitInfo (limiter m)) [mkOp u (next_pid m)] true
                      (backoffTime (limiter m)))
         (set_next_pid (S (next_pid m)) m)).
Proof.
  intros (Hl & Hp & Hq). unfold enqueue, processQueue, push_operation.
  cbn [snd limiter set_limiter set_next_pid set_requestQueue set_isProcessing
         isProcessing requestQueue rateLimitInfo backoffTime].
  rewrite Hp, Hq. reflexivity.
Qed.

Lemma request_waits (E : env) (c : call) (m : machine) :
  idle m -> fresh_promises m -> 0 <= maxRetries c -> answers_retry E (fetches m) c ->
  waits_for_retry E (fetches m) (next_pid m) c (request E c m).2.
Proof.
  intros Hidle Hfresh Hb Hr. unfold request. rewrite enqueue_idle by done.
  set (m1 := set_limiter _ _).
  assert (Hf1 : fresh_promises m1).
  { eapply fresh_promises_mono; [exact Hfresh | done | simpl; lia]. }
  unfold loop_head. cbn [requestQueue limiter m1 set_limiter].
  destruct (num_gt _ _).
  - split; [by apply Hfresh|]. split; [done|]. split; [exact Hf1|].
    split; [simpl; lia|]. simpl. split; [by eexists | done].
  - eapply dispatch_waits; try done.
    + by apply Hfresh.
    + simpl. lia.
Qed.

Lemma waits_for_retry_fetches (E : env) (F : nat) (p : pid) (c : call) (m : machine) :
  waits_for_retry E F p c m -> (fetches m <= S F)%nat.
Proof.
  intros (_ & _ & _ & _ & Hloop).
  destruct (loop m) as [|b|op e|b|]; try done.
  - destruct Hloop as [_ ->]. lia.
  - destruct Hloop as [_ He]. destruct e; try done.
    + destruct He as [_ ->]. lia.
    + destruct He as (_ & -> & _). lia.
    + destruct He as (_ & _ & ->). lia.
    + destruct He as [_ ->]. lia.
    + by destruct He.
Qed.

(** ** The order of execution *)

Lemma resume_n_add (E : env) (n k : nat) (m m1 m2 : machine) :
  resume_n E n m = Some m1 -> resume_n E k m1 = Some m2 ->
  resume_n E (n + k) m = Some m2.
Proof.
  revert m. induction n as [|n IH]; intros m; simpl.
  - by intros [= ->].
  - destruct (resume E m); [apply IH | done].
Qed.

Lemma resume_n_run (E : env) (n fuel : nat) (m m' : machine) :
  resume_n E n m = Some m' -> resume E m' = None -> (n <= fuel)%nat ->
  run E fuel m = m'.
Proof.
  revert m fuel. induction n as [|n IH]; intros m fuel; simpl.
  - intros [= ->] Hs _. by apply run_stuck.
  - destruct (resume E m) as [m1|] eqn:Hr; [|done]. intros Hn Hs Hle.
    destruct fuel as [|fuel]; [lia|]. simpl. rewrite Hr. apply IH; [done | done | lia].
Qed.

Lemma after_execute_settles (E : env) (op : QueuedOperation) (o : outcome) (m : machine) :
  outcome_is_429 o = false ->
  after_execute E op o m = loop_head E (settle (promise op) o m).
Proof. intros H. unfold after_execute. destruct o as [v|e]; [done|]. simpl in H. by rewrite H. Qed.

Lemma after_execute_429 (E : env) (op : QueuedOperation) (o : outcome) (m : machine) :
  outcome_is_429 o = true ->
  after_execute E op o m
  = let t := num_mul (backoffTime (limiter m)) (num_of_Z 2) in
    set_loop (LoopThrottled t)
      (sleep t (set_limiter (set_requestQueue (op :: requestQueue (limiter m))
                               (set_backoffTime t (limiter m))) m)).
Proof. intros H. unfold after_execute. destruct o as [v|e]; [done|]. simpl in H. by rewrite H. Qed.

Lemma start_execute_other (E : env) (label : string) (n : nat) (f : nat -> outcome)
    (p : pid) (m : machine) :
  start_execute E (mkOp (ExecuteOther label n f) p) m
  = set_loop (LoopExecute (mkOp (ExecuteOther label (S n) f) p) (Settled (f n)))
      (emit (EvExecute p label) m).
Proof. reflexivity. Qed.

Lemma resume_settled (E : env) (m : machine) (op : QueuedOperation) (o : outcome) :
  loop m = LoopExecute op (Settled o) -> resume E m = Some (after_execute E op o m).
Proof. intros H. unfold resume. by rewrite H. Qed.

Lemma resume_throttled (E : env) (m : machine) (t : number) :
  loop m = LoopThrottled t -> resume E m = Some (loop_head E (advance t m)).
Proof. intros H. unfold resume. by rewrite H. Qed.

(** From the head of the loop to the dispatch of the first unit: at once,
    or after the backoff. *)
Lemma loop_head_dispatch (E : env) (m : machine) (op : QueuedOperation)
    (rest : list QueuedOperation) :
  requestQueue (limiter m) = op :: rest ->
  exists n m1,
    resume_n E n (loop_head E m) = Some (dispatch E m1)
    /\ (n <= 1)%nat /\ limiter m1 = limiter m /\ queue_events m1 = queue_events m.
Proof.
  intros Hq. unfold loop_head. rewrite Hq.
  destruct (num_gt _ _).
  - exists 1%nat, (advance (calculateBackoff m) (sleep (calculateBackoff m) m)).
    split; [reflexivity|]. split; [lia|]. split; [reflexivity|].
    unfold queue_events. simpl. rewrite List.filter_app. simpl. apply app_nil_r.
  - exists 0%nat, m. repeat split. lia.
Qed.

Lemma queue_events_emit (e : event) (m : machine) :
  queue_events (emit e m) = queue_events m ++ (if queue_event e then [e] else []).
Proof. unfold queue_events. simpl. by rewrite List.filter_app. Qed.

(** The unit at the head of the queue is executed until it settles, with
    nothing else executed in between; then the loop is at its head again,
    with the rest of the queue. *)
Lemma unit_runs (E : env) (k : nat) :
  forall (label : string) (n : nat) (f : nat -> outcome) (p : pid)
         (rest : list QueuedOperation) (m : machine),
    throttled_times k (ExecuteOther label n f) ->
    requestQueue (limiter m) = mkOp (ExecuteOther label n f) p :: rest ->
    isProcessing (limiter m) = true ->
    exists N m1,
      resume_n E N (loop_head E m) = Some (loop_head E m1)
      /\ (N <= 2 + 3 * k)%nat
      /\ requestQueue (limiter m1) = rest
      /\ isProcessing (limiter m1) = true
      /\ queue_events m1 = queue_events m ++ unit_events p k (ExecuteOther label n f).
Proof.
  induction k as [|k IH]; intros label n f p rest m [H429 Hlast] Hq Hp.
  - destruct (loop_head_dispatch E m _ _ Hq) as (n0 & md & Hn0 & Hle & Hlim & Hev).
    rewrite Nat.add_0_r in Hlast.
    eexists (n0 + 1)%nat, _. split.
    { eapply resume_n_add; [exact Hn0|]. unfold dispatch. rewrite Hlim, Hq.
      rewrite start_execute_other. cbn [resume_n].
      erewrite resume_settled by reflexivity. rewrite after_execute_settles by done.
      reflexivity. }
    split; [lia|]. split; [reflexivity|].
    split; [simpl; exact Hp|].
    unfold unit_events, queue_events in *. simpl.
    rewrite !List.filter_app, Hev, Nat.add_0_r. simpl. by rewrite <- app_assoc.
  - destruct (loop_head_dispatch E m _ _ Hq) as (n0 & md & Hn0 & Hle & Hlim & Hev).
    assert (H0 : outcome_is_429 (f n) = true).
    { specialize (H429 0%nat). rewrite Nat.add_0_r in H429. apply H429. lia. }
    set (t := num_mul (backoffTime (limiter m)) (num_of_Z 2)).
    set (op' := mkOp (ExecuteOther label (S n) f) p).
    set (mt := advance t
                 (sleep t
                    (set_limiter (set_requestQueue (op' :: rest) (set_backoffTime t (limiter m)))
                       (emit (EvExecute p label) md)))).
    destruct (IH label (S n) f p rest mt) as (N & m1 & HN & HNle & Hq1 & Hp1 & Hev1).
    { split.
      - intros j Hj. replace (S n + j)%nat with (n + S j)%nat by lia. apply H429. lia.
      - by replace (S n + k)%nat with (n + S k)%nat by lia. }
    { reflexivity. }
    { exact Hp. }
    exists (n0 + (2 + N))%nat, m1. split.
    { eapply resume_n_add; [exact Hn0|]. unfold dispatch. rewrite Hlim, Hq.
      rewrite start_execute_other. change (2 + N)%nat with (S (S N)). cbn [resume_n].
      erewrite resume_settled by reflexivity. rewrite after_execute_429 by done.
      lazy zeta. erewrite resume_throttled by reflexivity. exact HN. }
    split; [lia|]. split; [done|]. split; [done|].
    rewrite Hev1. subst mt. unfold advance, sleep.
    unfold queue_events in *. simpl. rewrite !List.filter_app. simpl.
    rewrite Hev, app_nil_r. unfold unit_events. simpl.
    replace (n + S k)%nat with (S (n + k))%nat by lia.
    by rewrite <- !app_assoc.
Qed.

Lemma queue_drains (E : env) (ks : list nat) (q : list QueuedOperation) :
  Forall2 (fun k op => throttled_times k (execute op)) ks q ->
  forall m,
    requestQueue (limiter m) = q -> isProcessing (limiter m) = true ->
    exists N m',
      resume_n E N (loop_head E m) = Some m'
      /\ (N <= enough_fuel ks)%nat
      /\ idle m'
      /\ queue_events m'
         = queue_events m
           ++ concat (zip_with (fun k op => unit_events (promise op) k (execute op)) ks q).
Proof.
  induction 1 as [|k [u p] ks q Hk Hrest IH]; intros m Hq Hp.
  - exists 0%nat, (loop_head E m). unfold loop_head. rewrite Hq.
    split; [reflexivity|]. split; [unfold enough_fuel; simpl; lia|].
    split; [by repeat split|].
    unfold queue_events. cbn. by rewrite app_nil_r.
  - simpl in Hk. destruct u as [c|label n f]; [done|].
    destruct (unit_runs E k label n f p q m Hk Hq Hp) as (N1 & m1 & H1 & Hle1 & Hq1 & Hp1 & Hev1).
    destruct (IH m1 Hq1 Hp1) as (N2 & m' & H2 & Hle2 & Hidle & Hev2).
    exists (N1 + N2)%nat, m'. split; [by eapply resume_n_add|].
    split; [unfold enough_fuel in *; simpl; lia|]. split; [done|].
    rewrite Hev2, Hev1. simpl. by rewrite <- app_assoc.
Qed.

(** A call that starts with a spent budget is rejected at once. *)
Lemma negative_budget_rejected (E : env) (c : call) (m : machine) (fuel : nat) :
  idle m -> maxRetries c < 0 -> (3 <= fuel)%nat ->
  promises (run E fuel (request E c m).2) !! (request E c m).1
  = Some (Rejected (ThrowError "Max retries exceeded")).
Proof.
  intros Hidle Hb Hfuel. unfold request. rewrite enqueue_idle by done.
  change ((enqueue E (ExecuteRequest c) m).1) with (next_pid m).
  set (m1 := set_limiter _ _).
  destruct (loop_head_dispatch E m1 (mkOp (ExecuteRequest c) (next_pid m)) [])
    as (n & md & Hn & Hle & Hlim & _); [done|].
  assert (Hneg : (maxRetries c <? 0) = true) by (apply Z.ltb_lt; lia).
  set (o := Rejected (ThrowError "Max retries exceeded")).
  assert (H2 : exists m2, resume_n E (n + 1) (loop_head E m1) = Some m2
                          /\ resume E m2 = None
                          /\ promises m2 !! next_pid m = Some o).
  { eexists. split; [|split].
    - eapply resume_n_add; [exact Hn|]. unfold dispatch. rewrite Hlim.
      cbn [requestQueue limiter m1 set_limiter]. unfold start_execute, executeRequest.
      cbn [execute promise]. rewrite Hneg. cbn [resume_n].
      erewrite resume_settled by reflexivity.
      rewrite after_execute_settles by done. reflexivity.
    - unfold loop_head. cbn. reflexivity.
    - unfold loop_head. cbn. apply lookup_insert_eq. }
  destruct H2 as (m2 & H2 & Hstuck & Hpr).
  by rewrite (resume_n_run E (n + 1) fuel _ m2 H2 Hstuck ltac:(lia)).
Qed.

(** C4. Where the code departs from the claim: the check against a spent
    budget is there, and a call that starts with a budget below zero is
    rejected with the error; but a call whose first attempt ends in a retry
    (no token yet, a 401, or a 429) never gets to it.  The retry is queued
    behind the unit that awaits it, so the call neither fails with the
    error nor settles at all, however long the machine runs, and the drain
    loop keeps the queue. *)
Theorem retry_never_settles (E : env) (c : call) (m : machine) (fuel : nat) :
  idle m -> fresh_promises m ->
  (maxRetries c < 0 -> (3 <= fuel)%nat ->
   promises (run E fuel (request E c m).2) !! (request E c m).1
   = Some (Rejected (ThrowError "Max retries exceeded")))
  /\ (0 <= maxRetries c -> answers_retry E (fetches m) c ->
      let m' := run E fuel (request E c m).2 in
      promises m' !! (request E c m).1 = None
      /\ isProcessing (limiter m') = true
      /\ (fetches m' <= S (fetches m))%nat).
Proof.
  intros Hidle Hfresh. split; [by apply negative_budget_rejected|].
  intros Hb Hr m'.
  assert (Hw : waits_for_retry E (fetches m) (next_pid m) c m').
  { apply waits_for_retry_run; [done | done |]. by apply request_waits. }
  pose proof (waits_for_retry_fetches _ _ _ _ _ Hw) as Hf.
  destruct Hw as (Hp & Hproc & _). by repeat split.
Qed.

Lemma retry_never_settles_witness :
  let r := mkResponse 429 "Too Many Requests" (Some {[ "retry-after" := "2" ]}) None in
  let m' := run (always_answers r) 1000 (request (always_answers r) list_files
                                           (new_RateLimiter 0)).2 in
  promises m' !! 0%nat = None
  /\ isProcessing (limiter m') = true
  /\ (fetches m' <= 1)%nat.
Proof.
  intros r.
  refine (proj2 (retry_never_settles (always_answers r) list_files (new_RateLimiter 0) 1000
                   _ _) _ _).
  - repeat split; vm_compute; reflexivity.
  - intros p _. apply lookup_empty.
  - by vm_compute.
  - right. exists r. split; [vm_compute; reflexivity|]. right.
    split; [reflexivity | by eexists].
Defined.

(** ** Enqueueing while the loop runs *)

Lemma start_execute_limiter (E : env) (op : QueuedOperation) (m : machine) :
  limiter (start_execute E op m) = limiter m.
Proof.
  unfold start_execute, executeRequest.
  destruct (execute op) as [c|label n f]; [|reflexivity].
  cbn [now emit]. destruct (maxRetries c <? 0); [reflexivity|].
  by destruct (_ && _).
Qed.

Lemma start_execute_push (E : env) (u : unit_body) (op : QueuedOperation) (m : machine) :
  push_operation u (start_execute E op m) = start_execute E op (push_operation u m).
Proof.
  unfold start_execute, executeRequest.
  destruct (execute op) as [c|label n f]; [|reflexivity].
  cbn [now emit push_operation set_limiter set_next_pid].
  destruct (maxRetries c <? 0); [reflexivity|].
  by destruct (_ && _).
Qed.

(** Pushing a unit while the loop is at its head, with something to run,
    is the same as having pushed it just before. *)
Lemma enqueue_loop_head (E : env) (u : unit_body) (m : machine) :
  isProcessing (limiter m) = true -> requestQueue (limiter m) <> [] ->
  (enqueue E u (loop_head E m)).2 = loop_head E (push_operation u m).
Proof.
  intros Hp Hq. destruct (requestQueue (limiter m)) as [|op rest] eqn:Hq'; [done|].
  unfold loop_head. cbn [requestQueue limiter push_operation set_limiter set_requestQueue].
  rewrite Hq'. cbn [app].
  change (calculateBackoff (set_limiter _ (set_next_pid _ m))) with (calculateBackoff m).
  destruct (num_gt _ _).
  - rewrite enqueue_processing by exact Hp. reflexivity.
  - unfold dispatch. rewrite Hq'.
    rewrite enqueue_processing by (by rewrite start_execute_limiter).
    cbn [snd]. rewrite start_execute_push.
    cbn [requestQueue limiter push_operation set_limiter set_requestQueue].
    rewrite Hq'. reflexivity.
Qed.

Lemma enqueue_all_snoc (E : env) (us : list unit_body) (u : unit_body) (m : machine) :
  enqueue_all E (us ++ [u]) m = (enqueue E u (enqueue_all E us m)).2.
Proof. unfold enqueue_all. by rewrite fold_left_app. Qed.

Lemma push_operation_queued (u u' : unit_body) (us : list unit_body) (m : machine) :
  push_operation u' (queued (u :: us) m) = queued (u :: us ++ [u']) m.
Proof.
  unfold push_operation, queued.
  cbn [requestQueue limiter set_limiter set_requestQueue next_pid set_next_pid
         rateLimitInfo isProcessing backoffTime].
  change (u :: us ++ [u']) with ((u :: us) ++ [u']).
  rewrite imap_app, length_app. set (l := u :: us).
  unfold set_limiter, set_next_pid, set_requestQueue. cbn.
  rewrite !Nat.add_0_r. f_equal. lia.
Qed.

(** Enqueueing on an idle machine starts the loop with the first unit; the
    others join the queue behind it. *)
Lemma enqueue_all_idle (E : env) (u : unit_body) (us : list unit_body) (m : machine) :
  idle m -> enqueue_all E (u :: us) m = loop_head E (queued (u :: us) m).
Proof.
  intros Hidle. induction us as [|u' us IH] using rev_ind.
  - unfold enqueue_all. cbn [fold_left]. rewrite enqueue_idle by done.
    unfold queued. cbn [imap length]. by rewrite Nat.add_0_r, Nat.add_1_r.
  - rewrite app_comm_cons, enqueue_all_snoc, IH.
    rewrite enqueue_loop_head; [|done|done]. by rewrite push_operation_queued.
Qed.

Lemma Forall2_imap_execute (P : nat -> unit_body -> Prop) (ks : list nat)
    (us : list unit_body) (g : nat -> unit_body -> QueuedOperation) :
  (forall i u, execute (g i u) = u) ->
  Forall2 P ks us -> Forall2 (fun k op => P k (execute op)) ks (imap g us).
Proof.
  intros Hg H. revert g Hg. induction H as [|k u ks us Hk _ IH]; intros g Hg.
  - constructor.
  - cbn [imap]. constructor; [by rewrite Hg|]. apply IH. intros i u'. apply Hg.
Qed.

(** The drain loop by itself, on units that reject with a 429 response:
    units enqueued on an idle limiter are executed in the order of their
    enqueueing; a unit that signals 429 is put back at the front and
    executed again, before any unit behind it, and its promise is settled
    only by the attempt that does not signal 429.  The units of [request],
    the only ones the module enqueues, never reject with a response; what
    happens to them is in the section on a throttled call in front of
    another. *)
Lemma front_requeue_order (E : env) (us : list unit_body) (ks : list nat) (m : machine)
    (fuel : nat) :
  idle m -> Forall2 throttled_times ks us -> (enough_fuel ks <= fuel)%nat ->
  let m' := run E fuel (enqueue_all E us m) in
  idle m' /\ queue_events m' = queue_events m ++ expected_events (next_pid m) ks us.
Proof.
  intros Hidle Hk Hfuel.
  destruct us as [|u us].
  - apply Forall2_nil_inv_r in Hk as ->. cbn.
    rewrite run_stuck; [|unfold resume; by rewrite (proj1 Hidle)].
    split; [done|]. by rewrite app_nil_r.
  - lazy zeta. rewrite enqueue_all_idle by done.
    destruct (queue_drains E ks (imap (fun i u => mkOp u (next_pid m + i)%nat) (u :: us)))
      with (m := queued (u :: us) m) as (N & m' & HN & Hle & Hidle' & Hev);
      [by apply Forall2_imap_execute | reflexivity | reflexivity |].
    rewrite (resume_n_run E N fuel _ m' HN); [| |lia].
    + split; [done|]. exact Hev.
    + unfold resume. by rewrite (proj1 Hidle').
Qed.

(** Two such units: A, which rejects with a 429 response once, and B; A is
    executed twice, then settled, then B is executed. *)
Example front_requeue_order_example :
  let m' := run logged_out 7 (enqueue_all logged_out [unit_A; unit_B] (new_RateLimiter 0)) in
  idle m'
  /\ queue_events m'
     = [EvExecute 0%nat "A"; EvExecute 0%nat "A";
        EvSettle 0%nat (Resolved (VJson (JStr "a")));
        EvExecute 1%nat "B"; EvSettle 1%nat (Resolved (VJson (JStr "b")))].
Proof.
  intros m'.
  assert (Hk : Forall2 throttled_times [1; 0]%nat [unit_A; unit_B]).
  { constructor; [|constructor; [|constructor]].
    - split; [|reflexivity]. intros j Hj. by replace j with 0%nat by lia.
    - split; [|reflexivity]. intros j Hj. lia. }
  destruct (front_requeue_order logged_out [unit_A; unit_B] [1; 0]%nat (new_RateLimiter 0) 7
              ltac:(repeat split; vm_compute; reflexivity) Hk ltac:(vm_compute; lia))
    as [H1 H2].
  split; [exact H1|]. etrans; [exact H2|]. vm_compute. reflexivity.
Qed.

(** ** The heap only grows *)

Lemma heap_le_refl (h : heap) : heap_le h h.
Proof. by split. Qed.

Lemma heap_le_trans (h1 h2 h3 : heap) : heap_le h1 h2 -> heap_le h2 h3 -> heap_le h1 h3.
Proof. intros [? ?] [? ?]. split; by etrans. Qed.

Lemma new_Date_le (t : number) (h : heap) : heap_le h (new_Date t h).2.
Proof.
  split; [done|]. simpl. apply insert_subseteq, not_elem_of_dom, is_fresh.
Qed.

Lemma new_info_le (i : RateLimitInfo) (h : heap) : heap_le h (new_info i h).2.
Proof.
  split; [|done]. simpl. apply insert_subseteq, not_elem_of_dom, is_fresh.
Qed.

Lemma updateRateLimits_le (headers : gmap string string) (m : machine) :
  heap_le (store m) (store (updateRateLimits headers m)).
Proof.
  unfold updateRateLimits.
  set (t := match headers !! "x-ratelimit-reset" with
            | Some (String c r) => _
            | _ => _
            end).
  pose proof (new_Date_le t (store m)) as H1.
  destruct (new_Date t (store m)) as [d h1].
  set (i := mkInfo _ d _).
  pose proof (new_info_le i h1) as H2.
  destruct (new_info i h1) as [l h2]. simpl in *. by eapply heap_le_trans.
Qed.

Lemma same_info_le (m m' : machine) : same_info m m' -> heap_le (store m) (store m').
Proof. intros [-> _]. apply heap_le_refl. Qed.

Lemma after_execute_same_info (E : env) (op : QueuedOperation) (o : outcome) (m : machine) :
  same_info m (after_execute E op o m).
Proof.
  unfold after_execute. destruct o as [v|e].
  - eapply same_info_trans; [|apply loop_head_same_info]. by same_info_tac.
  - destruct (is_429 e); [by same_info_tac|].
    eapply same_info_trans; [|apply loop_head_same_info]. by same_info_tac.
Qed.

Lemma request_same_info (E : env) (c : call) (m : machine) : same_info m (request E c m).2.
Proof. apply enqueue_same_info. Qed.

(** A turn of the machine allocates at most: what is on the heap stays. *)
Lemma resume_heap_le (E : env) (m m' : machine) :
  resume E m = Some m' -> heap_le (store m) (store m').
Proof.
  unfold resume. destruct (loop m) as [|b|op e|b|]; try done.
  - intros [= <-]. apply same_info_le.
    eapply same_info_trans; [|apply dispatch_same_info]. by same_info_tac.
  - destruct e as [c|c|c p|c ms|c r|p|o].
    + pose proof (request_same_info E (retry c) (advance WAIT_FOR_AUTH_DELAY_MS m)) as H.
      destruct (request E (retry c) _) as [p m1]. intros [= <-]. apply same_info_le.
      eapply same_info_trans; [|eapply same_info_trans; [exact H|]]; by same_info_tac.
    + destruct (network E (fetches m)) as [|r]; intros [= <-].
      * apply same_info_le.
        eapply same_info_trans; [|apply on_catch_same_info]. by same_info_tac.
      * eapply heap_le_trans;
          [|apply same_info_le, (on_response_same_info E c r op)].
        unfold headers_read. destruct (resp_headers r); [|apply heap_le_refl].
        apply (updateRateLimits_le _ (set_fetches (S (fetches m)) m)).
    + destruct (promises m !! p) as [[v|e]|]; try done.
      * pose proof (request_same_info E (retry c) m) as H.
        destruct (request E (retry c) m) as [p' m1]. intros [= <-]. apply same_info_le.
        eapply same_info_trans; [exact H|]. by same_info_tac.
      * intros [= <-]. apply same_info_le, on_catch_same_info.
    + pose proof (request_same_info E (retry c) (advance ms m)) as H.
      destruct (request E (retry c) _) as [p m1]. intros [= <-]. apply same_info_le.
      eapply same_info_trans; [|eapply same_info_trans; [exact H|]]; by same_info_tac.
    + destruct (resp_json r); intros [= <-]; apply same_info_le; [by same_info_tac|].
      eapply same_info_trans; [|apply on_catch_same_info]. by same_info_tac.
    + destruct (promises m !! p); [|done]. intros [= <-]. apply same_info_le.
      by same_info_tac.
    + intros [= <-]. apply same_info_le, after_execute_same_info.
  - intros [= <-]. apply same_info_le.
    eapply same_info_trans; [|apply loop_head_same_info]. by same_info_tac.
Qed.

(** ** The snapshot of the facade *)

Lemma oh_kept_refl (w : world) : oh_kept w w.
Proof. split; [done | apply heap_le_refl]. Qed.

Lemma oh_kept_trans (w1 w2 w3 : world) : oh_kept w1 w2 -> oh_kept w2 w3 -> oh_kept w1 w3.
Proof. intros [H1 H2] [H3 H4]. split; [congruence | by eapply heap_le_trans]. Qed.

Lemma snapshot_heap_le (h h' : heap) (l : loc) (i : RateLimitInfo) (t : number) :
  heap_le h h' -> infos h !! l = Some i -> dates h !! resetTime i = Some t ->
  snapshot h' l = snapshot h l.
Proof.
  intros [Hi Hd] Hl Ht. unfold snapshot.
  rewrite (lookup_total_correct (infos h) l i Hl).
  rewrite (lookup_total_correct (infos h') l i (lookup_weaken _ _ _ _ Hl Hi)).
  rewrite (lookup_total_correct (dates h) _ t Ht).
  by rewrite (lookup_total_correct (dates h') _ t (lookup_weaken _ _ _ _ Ht Hd)).
Qed.

Lemma oh_kept_snapshot (w w' : world) :
  oh_wf w -> oh_kept w w' -> oh_snapshot w' = oh_snapshot w /\ oh_wf w'.
Proof.
  intros Hwf [Hoh Hle]. split.
  - unfold oh_snapshot. rewrite Hoh.
    destruct (OpenHands_rateLimitInfo w) as [l|v] eqn:Hl; [|done].
    destruct (Hwf l Hl) as (i & t & Hi & Ht). f_equal.
    by eapply snapshot_heap_le.
  - intros l Hl. rewrite Hoh in Hl. destruct (Hwf l Hl) as (i & t & Hi & Ht).
    exists i, t. destruct Hle as [Hle1 Hle2].
    split; by eapply lookup_weaken.
Qed.

(** The continuation of any endpoint but [checkRateLimit] leaves the API
    module and the static field alone. *)
Lemma upload_invalidate_kept (file : list File) (w : world) :
  api (fold_left upload_invalidate file w) = api w
  /\ OpenHands_rateLimitInfo (fold_left upload_invalidate file w) = OpenHands_rateLimitInfo w
  /\ awaiting (fold_left upload_invalidate file w) = awaiting w.
Proof.
  revert w. induction file as [|f file IH]; intros w; [done|].
  cbn [fold_left]. destruct (IH (upload_invalidate w f)) as (-> & -> & ->).
  unfold upload_invalidate. by destruct (parent_dir (upload_path f)).
Qed.

Lemma api_finish_kept (k : cont) (o : outcome) (w : world) :
  k <> KCheckRateLimit ->
  api (api_finish k o w).2 = api w
  /\ OpenHands_rateLimitInfo (api_finish k o w).2 = OpenHands_rateLimitInfo w
  /\ awaiting (api_finish k o w).2 = awaiting w.
Proof.
  intros Hk. destruct k; try done; destruct o as [v|e]; try done.
  - unfold api_finish. by destruct (get_code v).
  - unfold api_finish. cbn [snd].
    by destruct (upload_invalidate_kept file (cache_delete "files:root" w)) as (-> & -> & ->).
  - unfold api_finish. by destruct v.
Qed.

Lemma deliver_all_kept (l : list (pid * (api_op * cont))) (w : world) :
  Forall (fun x => x.2.2 <> KCheckRateLimit) l ->
  no_check_pending w ->
  api (deliver_all l w) = api w
  /\ OpenHands_rateLimitInfo (deliver_all l w) = OpenHands_rateLimitInfo w
  /\ no_check_pending (deliver_all l w).
Proof.
  intros Hl. revert w. induction Hl as [|[p [op k]] l Hk Hl IH]; intros w Hw; [done|].
  simpl in Hk. cbn [deliver_all].
  destruct (promises (api w) !! p) as [o|] eqn:Hp.
  - destruct (api_finish_kept k o w Hk) as (Ha & Ho & Haw).
    destruct (api_finish k o w) as [r w'] eqn:Hfin. simpl in Ha, Ho, Haw.
    destruct (IH (finish op r w')) as (Ha' & Ho' & Hn').
    { unfold no_check_pending. simpl. by rewrite Haw. }
    rewrite Ha', Ho'. simpl. by rewrite Ha, Ho.
  - destruct (IH w Hw) as (Ha' & Ho' & Hn'). simpl.
    split; [done|]. split; [done|].
    unfold no_check_pending. simpl. by constructor.
Qed.

Lemma api_start_cont (op : api_op) (w : world) (c : call) (k : cont) :
  api_start op w = inr (c, k) -> k = KCheckRateLimit -> op = CheckRateLimit.
Proof.
  destruct op; simpl; unfold getModels, getAgents, getSecurityAnalyzers, getConfig,
    getFiles, getFile, cached_or; try destruct (truthy_value _); try done;
    intros [= <- <-]; done.
Qed.

(** Whatever the page does, short of calling [checkRateLimit], the static
    field of [OpenHands] is kept and the heap only grows. *)
Lemma act_kept (E : env) (a : action) (w : world) :
  is_check a = false -> no_check_pending w ->
  oh_kept w (act E a w) /\ no_check_pending (act E a w).
Proof.
  intros Ha Hn. destruct a as [op| | |]; cbn [act].
  - unfold call_api. destruct (api_start op w) as [o|[c k]] eqn:Hs.
    + split; [split; [done | apply heap_le_refl] | exact Hn].
    + pose proof (request_same_info E c (api w)) as Hr.
      destruct (request E c (api w)) as [p m]. split.
      * split; [done|]. by apply same_info_le.
      * unfold no_check_pending. cbn [awaiting set_awaiting].
        apply Forall_app. split; [exact Hn|].
        constructor; [|constructor]. cbn [snd]. intros Hk.
        apply (api_start_cont op w c k Hs) in Hk. by subst op.
  - destruct (OpenHands_rateLimitInfo w) as [l|v] eqn:Hl.
    + rewrite (getRateLimitStatus_info w l Hl). cbn [snd]. split; [|exact Hn].
      split; [done|]. cbn [api set_api store set_store]. apply new_info_le.
    + unfold getRateLimitStatus. rewrite Hl. split; [apply oh_kept_refl | exact Hn].
  - rewrite getRateLimitInfo_snd. split; [|exact Hn].
    split; [done|]. cbn [api set_api store set_store]. apply new_info_le.
  - unfold turn. destruct (resume E (api w)) as [m|] eqn:Hr;
      [|split; [apply oh_kept_refl | exact Hn]].
    unfold deliver.
    destruct (deliver_all_kept (awaiting (set_api m w)) (set_awaiting [] (set_api m w)))
      as (H1 & H2 & H3); [exact Hn | by constructor |].
    split; [|exact H3]. split; [by rewrite H2|]. rewrite H1.
    by apply (resume_heap_le E).
Qed.

Lemma acts_kept (E : env) (l : list action) (w : world) :
  forallb (fun a => negb (is_check a)) l = true -> no_check_pending w ->
  oh_kept w (acts E l w).
Proof.
  revert w. induction l as [|a l IH]; intros w Hl Hn; [apply oh_kept_refl|].
  simpl in Hl. apply andb_prop in Hl as [Ha Hl]. apply negb_true_iff in Ha.
  destruct (act_kept E a w Ha Hn) as [Hk Hn'].
  unfold acts. cbn [fold_left]. eapply oh_kept_trans; [exact Hk|]. by apply IH.
Qed.

(** C10. The record behind [OpenHands.getRateLimitStatus()] is a store of
    its own.  Whatever the page does, short of calling [checkRateLimit]
    (endpoint calls, reads of either snapshot, turns of the event loop with
    the responses they bring), the static field and what a reader sees in
    it stay as they were; a [checkRateLimit] whose request resolves stores
    the response, and one whose request is rejected leaves the record as
    it was. *)
Theorem facade_snapshot_independent (E : env) (l : list action) (w : world) (v : value)
    (e : thrown) :
  oh_wf w -> no_check_pending w -> forallb (fun a => negb (is_check a)) l = true ->
  OpenHands_rateLimitInfo (acts E l w) = OpenHands_rateLimitInfo w
  /\ oh_snapshot (acts E l w) = oh_snapshot w
  /\ oh_snapshot (api_finish KCheckRateLimit (Resolved v) w).2 = inr v
  /\ oh_snapshot (api_finish KCheckRateLimit (Rejected e) w).2 = oh_snapshot w.
Proof.
  intros Hwf Hn Hl.
  pose proof (acts_kept E l w Hl Hn) as Hk.
  split; [apply Hk|]. split; [by apply oh_kept_snapshot|]. split; [reflexivity|].
  destruct (act_kept E ReadStatus w eq_refl Hn) as [Hs _]. cbn [act] in Hs.
  unfold api_finish.
  destruct (getRateLimitStatus w) as [v' w']. cbn [snd] in *.
  by apply oh_kept_snapshot.
Qed.

(** A response with rate-limit headers reaches the limiter and not the
    facade. *)
Lemma facade_snapshot_independent_witness :
  let headers : gmap string string :=
    {[ "x-ratelimit-remaining" := "10"; "x-ratelimit-limit" := "100";
       "x-ratelimit-reset" := "17" ]} in
  let E := always_answers (mkResponse 200 "OK" (Some headers) (Some (JArr []))) in
  let w := acts E [Call (GetFiles None); Turn; Turn; Turn; ReadStatus] (new_world 0) in
  oh_snapshot w = inl (Infinity, num_of_Z 0, Infinity)
  /\ limiter_snapshot (api w) = (num_of_Z 10, num_of_Z 17000, num_of_Z 100)
  /\ finished w = [(GetFiles None, Resolved (VJson (JArr [])))].
Proof.
  intros headers E w.
  assert (Hwf : oh_wf (new_world 0)).
  { intros l Hl. vm_compute in Hl. injection Hl as <-.
    eexists _, _. split; vm_compute; reflexivity. }
  destruct (facade_snapshot_independent E
              [Call (GetFiles None); Turn; Turn; Turn; ReadStatus] (new_world 0)
              VUndefined (ThrowError "") Hwf ltac:(constructor) eq_refl)
    as (_ & H & _).
  split; [etrans; [exact H|]; vm_compute; reflexivity|].
  split; vm_compute; reflexivity.
Defined.

(** ** The base of the backoff *)

Lemma units_ok_same (m m' : machine) :
  units_ok m -> requestQueue (limiter m') = requestQueue (limiter m) ->
  promises m' = promises m -> units_ok m'.
Proof. intros [H1 H2] Hq Hp. split; by rewrite ?Hq, ?Hp. Qed.

(** The unit that is being executed goes on without calling [request]. *)
Lemma set_loop_request_only (m m' : machine) (op : QueuedOperation) (e : exec_state) :
  units_ok m -> requestQueue (limiter m') = requestQueue (limiter m) ->
  promises m' = promises m -> backoffTime (limiter m') = backoffTime (limiter m) ->
  is_request op -> exec_ok e ->
  request_only (set_loop (LoopExecute op e) m')
  /\ backoffTime (limiter (set_loop (LoopExecute op e) m')) = backoffTime (limiter m).
Proof.
  intros Hu Hq Hp Hb Hop He. split; [|exact Hb]. split; [|done]. by eapply units_ok_same.
Qed.

Lemma start_execute_request_only (E : env) (op : QueuedOperation) (m : machine) :
  is_request op -> units_ok m ->
  request_only (start_execute E op m)
  /\ backoffTime (limiter (start_execute E op m)) = backoffTime (limiter m).
Proof.
  intros Hop Hu. pose proof Hop as [c Hc]. unfold start_execute, executeRequest.
  rewrite Hc. cbn [now emit].
  destruct (maxRetries c <? 0); [by apply set_loop_request_only|].
  destruct (_ && _); by apply set_loop_request_only.
Qed.

Lemma dispatch_request_only (E : env) (m : machine) :
  units_ok m ->
  request_only (dispatch E m)
  /\ backoffTime (limiter (dispatch E m)) = backoffTime (limiter m).
Proof.
  intros [Hq Hp]. unfold dispatch.
  destruct (requestQueue (limiter m)) as [|op rest] eqn:Hq'.
  - split; [|done]. split; [|done]. split; [simpl; by rewrite Hq' | done].
  - apply Forall_cons in Hq as [Hop Hrest].
    destruct (start_execute_request_only E op
                (set_limiter (set_requestQueue rest (limiter m)) m) Hop)
      as [H1 H2]; [by split|].
    split; [exact H1 | exact H2].
Qed.

Lemma loop_head_request_only (E : env) (m : machine) :
  units_ok m ->
  request_only (loop_head E m)
  /\ backoffTime (limiter (loop_head E m)) = backoffTime (limiter m).
Proof.
  intros Hu. unfold loop_head.
  destruct (requestQueue (limiter m)) as [|op rest] eqn:Hq'.
  - split; [|done]. split; [|done]. eapply units_ok_same; [exact Hu | | done].
    simpl. by rewrite Hq'.
  - destruct (num_gt _ _).
    + split; [|done]. split; [|done]. by eapply units_ok_same.
    + by apply dispatch_request_only.
Qed.

Lemma loop_head_promises (E : env) (m : machine) : promises (loop_head E m) = promises m.
Proof.
  unfold loop_head, dispatch, start_execute, executeRequest, sleep.
  by repeat case_match.
Qed.

Lemma processQueue_starts (E : env) (m : machine) :
  isProcessing (limiter m) = false -> requestQueue (limiter m) <> [] ->
  processQueue E m = loop_head E (set_limiter (set_isProcessing true (limiter m)) m).
Proof.
  intros Hp Hq. unfold processQueue. rewrite Hp.
  by destruct (requestQueue (limiter m)).
Qed.

(** A call of [request] adds a request to the units, and starts the drain
    loop on it when none is running. *)
Lemma request_units_ok (E : env) (c : call) (m : machine) :
  units_ok m ->
  units_ok (request E c m).2
  /\ backoffTime (limiter (request E c m).2) = backoffTime (limiter m)
  /\ (isProcessing (limiter m) = false -> request_only (request E c m).2)
  /\ (isProcessing (limiter m) = true -> loop (request E c m).2 = loop m).
Proof.
  intros [Hq Hp]. unfold request, enqueue. cbn [snd].
  set (m0 := push_operation (ExecuteRequest c) m).
  assert (Hu0 : units_ok m0).
  { split; [|exact Hp]. subst m0. simpl. apply Forall_app. split; [done|].
    constructor; [by eexists | constructor]. }
  change (isProcessing (limiter m0)) with (isProcessing (limiter m)).
  destruct (isProcessing (limiter m)) eqn:Hproc.
  { split; [exact Hu0|]. split; [done|]. split; [done|]. by intros _. }
  rewrite processQueue_starts; [|exact Hproc|subst m0; simpl; by destruct (requestQueue _)].
  destruct (loop_head_request_only E (set_limiter (set_isProcessing true (limiter m0)) m0))
    as [H1 H4]; [exact Hu0|].
  split; [apply H1|]. split; [exact H4|]. split; [by intros _ | done].
Qed.

(** The unit that is being executed calls [request] and goes on. *)
Lemma nested_request_only (E : env) (c : call) (m : machine) (op : QueuedOperation)
    (e : exec_state) :
  units_ok m -> is_request op -> exec_ok e ->
  request_only (set_loop (LoopExecute op e) (request E c m).2)
  /\ backoffTime (limiter (set_loop (LoopExecute op e) (request E c m).2))
     = backoffTime (limiter m).
Proof.
  intros Hu Hop He. destruct (request_units_ok E c m Hu) as (H1 & H2 & _).
  split; [|exact H2]. split; [|done]. by eapply units_ok_same.
Qed.

Lemma on_catch_request_only (m m' : machine) (c : call) (op : QueuedOperation) :
  units_ok m -> requestQueue (limiter m') = requestQueue (limiter m) ->
  promises m' = promises m -> backoffTime (limiter m') = backoffTime (limiter m) ->
  is_request op ->
  request_only (on_catch c op m')
  /\ backoffTime (limiter (on_catch c op m')) = backoffTime (limiter m).
Proof.
  intros Hu Hq Hp Hb Hop. unfold on_catch, onFail_toast.
  destruct (disableToast c); by apply set_loop_request_only.
Qed.

Lemma on_response_request_only (E : env) (c : call) (r : Response) (op : QueuedOperation)
    (m m' : machine) :
  units_ok m -> requestQueue (limiter m') = requestQueue (limiter m) ->
  promises m' = promises m -> backoffTime (limiter m') = backoffTime (limiter m) ->
  is_request op ->
  request_only (on_response E c r op m')
  /\ backoffTime (limiter (on_response E c r op m')) = backoffTime (limiter m).
Proof.
  intros Hu Hq Hp Hb Hop. unfold on_response.
  destruct (headers_read_frame r m') as (Hq0 & _ & Hb0 & _ & Hp0 & _).
  set (m0 := headers_read r m') in *. clearbody m0.
  rewrite Hq in Hq0. rewrite Hp in Hp0. rewrite Hb in Hb0.
  assert (Hu0 : units_ok m0) by (by eapply units_ok_same).
  destruct (status r =? 401).
  { destruct (nested_request_only E authenticate_call m0 op
                (AwaitReauth c (request E authenticate_call m0).1) Hu0 Hop I) as [H1 H2].
    rewrite Hb0 in H2. by destruct (request E authenticate_call m0). }
  destruct (status r =? 429).
  { destruct (resp_headers r) as [headers|].
    - by apply set_loop_request_only.
    - by apply on_catch_request_only. }
  destruct (400 <=? status r).
  { unfold onFail_toast. destruct (disableToast c) eqn:Hd.
    - by apply on_catch_request_only.
    - by apply on_catch_request_only. }
  destruct (negb (ok r)).
  { unfold onFail_toast. destruct (disableToast c) eqn:Hd.
    - by apply on_catch_request_only.
    - by apply on_catch_request_only. }
  destruct (returnResponse c); by apply set_loop_request_only.
Qed.

Lemma settle_units_ok (p : pid) (o : outcome) (m : machine) :
  units_ok m -> no_response_thrown o = true -> units_ok (settle p o m).
Proof.
  intros [Hq Hp] Ho. split; [exact Hq|]. simpl. by apply map_Forall_insert_2.
Qed.

Lemma after_execute_request_only (E : env) (op : QueuedOperation) (o : outcome)
    (m : machine) :
  units_ok m -> no_response_thrown o = true ->
  request_only (after_execute E op o m)
  /\ backoffTime (limiter (after_execute E op o m)) = backoffTime (limiter m).
Proof.
  intros Hu Ho. rewrite after_execute_settles.
  - apply (loop_head_request_only E (settle (promise op) o m)). by apply settle_units_ok.
  - by destruct o as [v|[msg|r]].
Qed.

(** A turn keeps the machine to requests, and the base of the backoff as
    it is: the branch that doubles it needs a unit that rejects with a
    [Response], and [executeRequest] never does. *)
Lemma resume_request_only (E : env) (m m' : machine) :
  request_only m -> resume E m = Some m' ->
  request_only m' /\ backoffTime (limiter m') = backoffTime (limiter m).
Proof.
  intros [Hu Hl]. unfold resume. destruct (loop m) as [|b|op e|b|]; try done.
  - intros [= <-]. apply (dispatch_request_only E (advance b m)). exact Hu.
  - destruct Hl as [Hop He]. destruct e as [c|c|c p|c ms|c r|p|o].
    + pose proof (nested_request_only E (retry c) (advance WAIT_FOR_AUTH_DELAY_MS m) op
                    (Adopted (request E (retry c) (advance WAIT_FOR_AUTH_DELAY_MS m)).1)
                    Hu Hop I) as H.
      destruct (request E (retry c) _) as [p m1]. by intros [= <-].
    + destruct (network E (fetches m)) as [|r]; intros [= <-].
      * by apply on_catch_request_only.
      * by apply on_response_request_only.
    + destruct (promises m !! p) as [[v|e]|]; try done.
      * pose proof (nested_request_only E (retry c) m op
                      (Adopted (request E (retry c) m).1) Hu Hop I) as H.
        destruct (request E (retry c) m) as [p' m1]. by intros [= <-].
      * intros [= <-]. by apply on_catch_request_only.
    + pose proof (nested_request_only E (retry c) (advance ms m) op
                    (Adopted (request E (retry c) (advance ms m)).1) Hu Hop I) as H.
      destruct (request E (retry c) _) as [p m1]. by intros [= <-].
    + destruct (resp_json r); intros [= <-].
      * by apply set_loop_request_only.
      * unfold onFail_toast. destruct (disableToast c) eqn:Hd;
          by apply on_catch_request_only.
    + destruct (promises m !! p) as [o|] eqn:Hp; [|done]. intros [= <-].
      apply set_loop_request_only; try done. by apply (proj2 Hu p o).
    + intros [= <-]. by apply after_execute_request_only.
  - intros [= <-]. apply (loop_head_request_only E (advance b m)). exact Hu.
Qed.

Lemma module_step_request_only (E : env) (a : module_event) (m : machine) :
  request_only m ->
  request_only (module_step E m a)
  /\ backoffTime (limiter (module_step E m a)) = backoffTime (limiter m).
Proof.
  intros Hr. destruct a as [c|]; cbn [module_step].
  - destruct Hr as [Hu Hl].
    destruct (request_units_ok E c m Hu) as (H1 & H2 & H3 & H4).
    split; [|exact H2].
    destruct (isProcessing (limiter m)) eqn:Hp; [|by apply H3].
    split; [exact H1|]. by rewrite H4.
  - destruct (resume E m) as [m'|] eqn:Hres; [|done].
    by apply (resume_request_only E m).
Qed.

(** The base of the backoff is 1000 ms in every state of the API
    module. *)
Lemma module_state_backoffTime (E : env) (t0 : Z) (l : list module_event) :
  request_only (module_state E t0 l)
  /\ backoffTime (limiter (module_state E t0 l)) = num_of_Z 1000.
Proof.
  unfold module_state. induction l as [|a l IH] using rev_ind.
  - split; [|reflexivity]. split; [|done]. split; [constructor|]. apply map_Forall_empty.
  - rewrite fold_left_app. cbn [fold_left]. destruct IH as [IH1 IH2].
    destruct (module_step_request_only E a _ IH1) as [H1 H2].
    split; [exact H1|]. by rewrite H2.
Qed.

(** C1, as the specification states it, fails: with 1800000000000000
    requests remaining of 8999999999999999, two numbers that binary64 holds
    exactly, the ratio is above 0.2, where the stated policy gives the
    base, and the computed backoff is twice the base; the quotient that
    binary64 division gives is the Number value of 0.2 itself. *)
Lemma ratio_above_fifth_rounds_down :
  let headers : gmap string string :=
    {[ "x-ratelimit-remaining" := "1800000000000000";
       "x-ratelimit-limit" := "8999999999999999" ]} in
  let m := updateRateLimits headers (new_RateLimiter 0) in
  let ratio := (1800000000000000 # 8999999999999999)%Q in
  requestsRemaining (current_info m) = num_of_Z 1800000000000000
  /\ totalLimit (current_info m) = num_of_Z 8999999999999999
  /\ backoffTime (limiter m) = num_of_Z 1000
  /\ Qle_bool ratio (1 # 5) = false
  /\ stated_policy (num_of_Z 1000) ratio = num_of_Z 1000
  /\ calculateBackoff m = num_of_Z 2000.
Proof. repeat apply conj; vm_compute; reflexivity. Qed.

(** C1. For every state of the limiter the computed backoff is the step
    function of the specification on the quotient of [requestsRemaining]
    by [totalLimit] as binary64 division gives it, with the limiter's
    [backoffTime] as the base: 0 for an unbounded quota and above one
    half, the base on (0.2, 0.5], twice the base on (0.1, 0.2], and four
    times the base from 0.1 down, where 0.5, 0.2 and 0.1 are the Number
    values of these decimals.  The base is 1000 ms in every state the API
    module reaches, whatever calls of [request] and turns of the event loop
    lead to it. *)
Theorem calculateBackoff_is_policy (E : env) (t0 : Z) (l : list module_event)
    (m : machine) :
  calculateBackoff m
  = backoff_policy (backoffTime (limiter m))
      (requestsRemaining (current_info m)) (totalLimit (current_info m))
  /\ (num_strict_eq (requestsRemaining (current_info m)) Infinity = false ->
      num_le (num_div (requestsRemaining (current_info m)) (totalLimit (current_info m)))
        (round64 (1 # 10)) = true ->
      calculateBackoff m = num_mul (num_of_Z 4) (backoffTime (limiter m)))
  /\ backoffTime (limiter (module_state E t0 l)) = num_of_Z 1000
  /\ calculateBackoff (module_state E t0 l)
     = backoff_policy (num_of_Z 1000)
         (requestsRemaining (current_info (module_state E t0 l)))
         (totalLimit (current_info (module_state E t0 l))).
Proof.
  split; [apply calculateBackoff_of_policy|]. split.
  { intros Hb Hle. unfold calculateBackoff, calculateBackoff_of. rewrite Hb.
    rewrite round64_half, round64_fifth, round64_tenth in *.
    set (pct := num_div _ _) in *.
    set (tenth := (3602879701896397 # 36028797018963968)%Q) in *.
    set (fifth := (3602879701896397 # 18014398509481984)%Q).
    assert (H2 : num_gt pct (Fin (1 # 2)) = false).
    { apply (num_le_not_gt pct tenth); [by vm_compute | exact Hle]. }
    assert (H5 : num_gt pct (Fin fifth) = false).
    { apply (num_le_not_gt pct tenth); [by vm_compute | exact Hle]. }
    assert (H10 : num_gt pct (Fin tenth) = false).
    { apply (num_le_not_gt pct tenth); [by vm_compute | exact Hle]. }
    rewrite H2, H5, H10. apply num_mul_comm. }
  destruct (module_state_backoffTime E t0 l) as [_ Hb]. split; [exact Hb|].
  rewrite <- Hb. apply calculateBackoff_of_policy.
Qed.

(** ** One attempt of a request *)

Lemma toasts_emit (e : event) (m : machine) :
  toasts (emit e m) = toasts m ++ option_list (toast_of e).
Proof.
  unfold toasts, emit. cbn [trace]. rewrite omap_app.
  apply (f_equal (app _)). simpl. by destruct (toast_of e).
Qed.

Lemma delay_ms_not_gt (b : number) : num_gt b (num_of_Z 0) = false -> delay_ms b = 0.
Proof.
  destruct b as [|[]| |q]; try done.
  unfold num_gt, num_compare, num_q, num_of_Z, delay_ms.
  destruct (Qcompare q (inject_Z 0)) eqn:Hc; try done; intros _.
  - apply Qeq_alt in Hc. unfold Qeq in Hc. simpl in Hc.
    assert (Qnum q = 0) as -> by lia. by rewrite Z.quot_0_l.
  - apply Qlt_alt in Hc. unfold Qlt in Hc. simpl in Hc.
    assert (Qnum q < 0) by lia.
    pose proof (Z.quot_le_upper_bound (- Qnum q) (Zpos (Qden q)) (- Qnum q)) as H1.
    assert (Z.quot (Qnum q) (Zpos (Qden q)) <= 0); [|lia].
    rewrite <- (Z.opp_involutive (Qnum q)), Z.quot_opp_l by lia.
    pose proof (Z.quot_pos (- Qnum q) (Zpos (Qden q))). lia.
Qed.

Lemma quiet_run_app (E : env) (n k : nat) (m1 m2 m3 : machine) :
  quiet_run E n m1 m2 -> quiet_run E k m2 m3 -> quiet_run E (n + k) m1 m3.
Proof.
  induction 1 as [|n m m1 m2 Hr Hp _ IH]; intros H2; [done|].
  simpl. eapply quiet_turn; [exact Hr | exact Hp | by apply IH].
Qed.

Lemma quiet_run_promises (E : env) (n : nat) (m1 m2 : machine) :
  quiet_run E n m1 m2 -> promises m2 = promises m1.
Proof. induction 1 as [|n m m1 m2 Hr Hp _ IH]; [done|]. by rewrite IH. Qed.

Lemma quiet_run_resume_n (E : env) (n : nat) (m1 m2 : machine) :
  quiet_run E n m1 m2 -> resume_n E n m1 = Some m2.
Proof. induction 1 as [|n m m1 m2 Hr Hp _ IH]; [done|]. simpl. by rewrite Hr. Qed.

Lemma start_execute_promises (E : env) (op : QueuedOperation) (m : machine) :
  promises (start_execute E op m) = promises m.
Proof.
  unfold start_execute, executeRequest. by repeat case_match.
Qed.

(** A call made on an idle machine reaches the start of its unit, after
    the backoff when there is one. *)
Lemma request_idle_starts (E : env) (c : call) (m : machine) :
  idle m ->
  exists n m1,
    (n <= 1)%nat
    /\ quiet_run E n (request E c m).2
         (start_execute E (mkOp (ExecuteRequest c) (next_pid m)) m1)
    /\ at_dispatch m m1.
Proof.
  intros Hidle. unfold request. rewrite enqueue_idle by done.
  set (m0 := set_limiter _ _).
  assert (Hb0 : calculateBackoff m0 = calculateBackoff m) by done.
  unfold loop_head. cbn [requestQueue limiter m0 set_limiter].
  rewrite Hb0. destruct (num_gt (calculateBackoff m) (num_of_Z 0)) eqn:Hb.
  - exists 1%nat. eexists. split; [lia|]. split.
    + eapply quiet_turn; [| |apply quiet_done].
      * unfold resume. cbn [loop set_loop]. unfold dispatch.
        cbn [requestQueue limiter m0 set_limiter advance set_now sleep emit set_loop].
        reflexivity.
      * by rewrite start_execute_promises.
    + unfold at_dispatch, toasts. cbn. rewrite omap_app. cbn.
      by rewrite app_nil_r.
  - exists 0%nat. eexists. split; [lia|]. split.
    + unfold dispatch. cbn [requestQueue limiter m0 set_limiter]. apply quiet_done.
    + unfold at_dispatch. cbn. rewrite (delay_ms_not_gt _ Hb). split; [done|].
      split; [done|]. split; [done|]. split; [done|]. split; [lia|done].
Qed.

Lemma progressed_refl (m : machine) : progressed 0 [] m m.
Proof. unfold progressed. rewrite app_nil_r, Nat.add_0_r. done. Qed.

Lemma progressed_trans (k1 k2 : nat) (ts1 ts2 : list string) (m1 m2 m3 : machine) :
  progressed k1 ts1 m1 m2 -> progressed k2 ts2 m2 m3 ->
  progressed (k1 + k2) (ts1 ++ ts2) m1 m3.
Proof.
  intros (H1 & H2 & H3 & H4 & H5 & H6) (G1 & G2 & G3 & G4 & G5 & G6).
  unfold progressed. rewrite G1, G2, G3, G4, G5, G6, H1, H2, H3, H4, H5, H6.
  rewrite app_assoc, Nat.add_assoc. done.
Qed.

Lemma progressed_emit (e : event) (m : machine) :
  progressed 0 (option_list (toast_of e)) m (emit e m).
Proof.
  unfold progressed. rewrite toasts_emit, Nat.add_0_r. done.
Qed.

Lemma progressed_set_loop (l : loop_state) (m : machine) : progressed 0 [] m (set_loop l m).
Proof. unfold progressed, toasts. cbn. by rewrite app_nil_r, Nat.add_0_r. Qed.

Lemma progressed_fetch (m : machine) : progressed 1 [] m (set_fetches (S (fetches m)) m).
Proof.
  unfold progressed. rewrite app_nil_r. cbn. repeat split; lia.
Qed.

Lemma progressed_onFail (c : call) (msg : string) (m : machine) :
  progressed 0 (shown c [msg]) m (onFail_toast c msg m).
Proof.
  unfold onFail_toast, shown. destruct (disableToast c).
  - apply progressed_refl.
  - apply (progressed_emit (EvToast msg)).
Qed.

Lemma progressed_headers_read (r : Response) (m : machine) :
  progressed 0 [] m (headers_read r m).
Proof.
  destruct (headers_read_frame r m) as (H1 & H2 & _ & _ & H3 & _ & H4 & H5).
  unfold progressed. rewrite H1, H2, H3, H4, H5, app_nil_r, Nat.add_0_r.
  repeat split; try done.
  unfold headers_read. destruct (resp_headers r) as [headers|]; [|done].
  unfold toasts. rewrite updateRateLimits_trace, omap_app. cbn. by rewrite app_nil_r.
Qed.

Lemma settled_on_catch (c : call) (op : QueuedOperation) (k : nat) (ts : list string)
    (m1 m2 : machine) :
  progressed k ts m1 m2 ->
  settled_with op (Rejected (ThrowError ("Error fetching " +:+ url c))) k
    (ts ++ shown c ["Error fetching " +:+ url c]) m1 (on_catch c op m2).
Proof.
  intros H. split; [done|]. unfold on_catch.
  rewrite <- (Nat.add_0_r k).
  eapply progressed_trans; [exact H|].
  apply (progressed_onFail c _ m2).
Qed.

(** The turn that ends a unit whose outcome is known. *)
Lemma settled_finishes (E : env) (op : QueuedOperation) (o : outcome) (k : nat)
    (ts : list string) (m1 m2 : machine) :
  settled_with op o k ts m1 m2 -> requestQueue (limiter m1) = [] ->
  outcome_is_429 o = false ->
  exists m',
    resume E m2 = Some m' /\ idle m'
    /\ promises m' = <[promise op := o]> (promises m1)
    /\ fetches m' = (fetches m1 + k)%nat /\ now m' = now m1
    /\ toasts m' = toasts m1 ++ ts.
Proof.
  intros (Hl & H1 & H2 & H3 & H4 & H5 & H6) Hq Ho.
  rewrite (resume_settled E m2 op o Hl), after_execute_settles by done.
  eexists. split; [reflexivity|].
  unfold loop_head. cbn [settle emit set_promises limiter requestQueue].
  rewrite H1, Hq. unfold idle, toasts. cbn. rewrite omap_app. cbn.
  rewrite app_nil_r. fold (toasts m2) (toasts m1).
  rewrite H1, Hq, H3, H4, H5, H6. done.
Qed.

(** A call made on an idle machine is over once its unit has settled. *)
Lemma completes_intro (E : env) (c : call) (m : machine) (o : outcome) (k : nat)
    (ts : list string) :
  idle m -> outcome_is_429 o = false ->
  (forall m1, at_dispatch m m1 ->
     exists n m2,
       (n <= 2)%nat
       /\ quiet_run E n (start_execute E (mkOp (ExecuteRequest c) (next_pid m)) m1) m2
       /\ settled_with (mkOp (ExecuteRequest c) (next_pid m)) o k ts m1 m2) ->
  completes E c m o k ts.
Proof.
  intros Hidle Ho Hrun.
  destruct (request_idle_starts E c m Hidle) as (n0 & m1 & Hn0 & Hq0 & Hd).
  destruct (Hrun m1 Hd) as (n & m2 & Hn & Hq & Hs).
  destruct Hd as (D1 & D2 & D3 & D4 & D5 & D6).
  destruct (settled_finishes E _ o k ts m1 m2 Hs D1 Ho) as (m' & Hr & Hi & F1 & F2 & F3 & F4).
  exists (n0 + n)%nat, m2, m'. split; [lia|]. split; [by eapply quiet_run_app|].
  split; [exact Hr|]. split; [exact Hi|].
  rewrite F1, F2, F3, F4, D3, D4, D5, D6. done.
Qed.

Lemma start_execute_fetches (E : env) (c : call) (p : pid) (m : machine) :
  0 <= maxRetries c ->
  needsAuth (url c) = false \/ truthy (getToken E (now m)) = true ->
  start_execute E (mkOp (ExecuteRequest c) p) m
  = set_loop (LoopExecute (mkOp (ExecuteRequest c) p) (AwaitFetch c))
      (emit (EvFetch (url c)
               (finalOptions (options c) (getToken E (now m)) (getGitHubToken E (now m))))
         (emit (EvExecute p (url c)) m)).
Proof.
  intros Hb Ht. unfold start_execute, executeRequest. cbn [execute promise emit now].
  destruct (Z.ltb_spec (maxRetries c) 0) as [?|_]; [lia|].
  destruct Ht as [-> | ->]; [by rewrite andb_false_r | done].
Qed.

Lemma resume_fetch (E : env) (m : machine) (op : QueuedOperation) (c : call) :
  loop m = LoopExecute op (AwaitFetch c) ->
  resume E m
  = Some match network E (fetches m) with
         | FetchFails => on_catch c op (set_fetches (S (fetches m)) m)
         | FetchResponse r => on_response E c r op (set_fetches (S (fetches m)) m)
         end.
Proof. intros Hl. unfold resume. rewrite Hl. by destruct (network E (fetches m)). Qed.

(** A call that gets as far as [fetch]: what is left is what the executor
    does with the answer. *)
Lemma fetch_attempt (E : env) (c : call) (m : machine) (o : outcome) (ts : list string)
    (fr : fetch_result) :
  idle m -> 0 <= maxRetries c -> may_fetch E c m -> network E (fetches m) = fr ->
  outcome_is_429 o = false -> answered E c fr o ts ->
  completes E c m o 1 ts.
Proof.
  intros Hidle Hb Ht Hfr Ho Hrest. apply completes_intro; [done..|].
  intros m1 Hd. pose proof Hd as (D1 & D2 & D3 & D4 & D5 & D6).
  rewrite start_execute_fetches; [|done|by rewrite D5].
  set (mf := set_loop _ _).
  assert (Hp : progressed 1 [] m1 (set_fetches (S (fetches mf)) mf)).
  { unfold progressed, toasts. cbn. rewrite !omap_app. cbn. rewrite !app_nil_r.
    repeat split; lia. }
  destruct (Hrest (mkOp (ExecuteRequest c) (next_pid m)) m1 _ Hp)
    as (n & m3 & Hn & Hq & Hs).
  exists (S n), m3. split; [lia|]. split; [|exact Hs].
  eapply quiet_turn; [| |exact Hq].
  - rewrite (resume_fetch E mf _ c) by done.
    replace (fetches mf) with (fetches m) by (by rewrite <- D4). by rewrite Hfr.
  - rewrite <- (quiet_run_promises E n _ m3 Hq).
    destruct Hs as (_ & _ & _ & -> & _). done.
Qed.

Lemma on_response_ok_json (E : env) (c : call) (r : Response) (op : QueuedOperation)
    (m : machine) :
  ok r = true -> returnResponse c = false ->
  on_response E c r op m = set_loop (LoopExecute op (AwaitJson c r)) (headers_read r m).
Proof.
  unfold ok. intros [H1 H2]%andb_prop Hr. apply Z.leb_le in H1, H2.
  unfold on_response, ok.
  destruct (Z.eqb_spec (status r) 401) as [?|_]; [lia|].
  destruct (Z.eqb_spec (status r) 429) as [?|_]; [lia|].
  destruct (Z.leb_spec 400 (status r)) as [?|_]; [lia|].
  destruct (Z.leb_spec 200 (status r)) as [_|?]; [|lia].
  destruct (Z.leb_spec (status r) 299) as [_|?]; [|lia].
  by rewrite Hr.
Qed.

Lemma on_response_ok_response (E : env) (c : call) (r : Response) (op : QueuedOperation)
    (m : machine) :
  ok r = true -> returnResponse c = true ->
  on_response E c r op m
  = set_loop (LoopExecute op (Settled (Resolved (VResponse r)))) (headers_read r m).
Proof.
  unfold ok. intros [H1 H2]%andb_prop Hr. apply Z.leb_le in H1, H2.
  unfold on_response, ok.
  destruct (Z.eqb_spec (status r) 401) as [?|_]; [lia|].
  destruct (Z.eqb_spec (status r) 429) as [?|_]; [lia|].
  destruct (Z.leb_spec 400 (status r)) as [?|_]; [lia|].
  destruct (Z.leb_spec 200 (status r)) as [_|?]; [|lia].
  destruct (Z.leb_spec (status r) 299) as [_|?]; [|lia].
  by rewrite Hr.
Qed.

Lemma on_response_error (E : env) (c : call) (r : Response) (op : QueuedOperation)
    (m : machine) :
  400 <= status r -> status r <> 401 -> status r <> 429 ->
  on_response E c r op m
  = on_catch c op
      (onFail_toast c
         (pretty (status r) +:+ " error while fetching " +:+ url c +:+ ": " +:+ statusText r)
         (headers_read r m)).
Proof.
  intros H1 H2 H3. unfold on_response.
  destruct (Z.eqb_spec (status r) 401) as [?|_]; [lia|].
  destruct (Z.eqb_spec (status r) 429) as [?|_]; [lia|].
  destruct (Z.leb_spec 400 (status r)) as [_|?]; [done|lia].
Qed.

Lemma on_response_not_ok (E : env) (c : call) (r : Response) (op : QueuedOperation)
    (m : machine) :
  status r < 400 -> ok r = false ->
  on_response E c r op m
  = on_catch c op
      (onFail_toast c ("Error fetching " +:+ url c +:+ ": " +:+ statusText r)
         (headers_read r m)).
Proof.
  intros H1 H2. unfold on_response.
  destruct (Z.eqb_spec (status r) 401) as [?|_]; [lia|].
  destruct (Z.eqb_spec (status r) 429) as [?|_]; [lia|].
  destruct (Z.leb_spec 400 (status r)) as [?|_]; [lia|].
  by rewrite H2.
Qed.

Lemma on_response_429_bare (E : env) (c : call) (r : Response) (op : QueuedOperation)
    (m : machine) :
  status r = 429 -> resp_headers r = None ->
  on_response E c r op m = on_catch c op m.
Proof.
  intros H1 H2. unfold on_response, headers_read. rewrite H1, H2. done.
Qed.

Lemma resume_json (E : env) (m : machine) (op : QueuedOperation) (c : call) (r : Response) :
  loop m = LoopExecute op (AwaitJson c r) ->
  resume E m
  = Some match resp_json r with
         | Some j => set_loop (LoopExecute op (Settled (Resolved (VJson j)))) m
         | None => on_catch c op (onFail_toast c ("Error parsing JSON from " +:+ url c) m)
         end.
Proof. intros Hl. unfold resume. rewrite Hl. by destruct (resp_json r). Qed.

Lemma settled_set_loop (op : QueuedOperation) (o : outcome) (k : nat) (ts : list string)
    (m1 m2 : machine) :
  progressed k ts m1 m2 -> settled_with op o k ts m1 (set_loop (LoopExecute op (Settled o)) m2).
Proof. intros H. split; [done|]. exact H. Qed.

Lemma progressed_read (k : nat) (ts : list string) (r : Response) (m1 m2 : machine) :
  progressed k ts m1 m2 -> progressed k ts m1 (headers_read r m2).
Proof.
  intros H. rewrite <- (Nat.add_0_r k), <- (app_nil_r ts).
  eapply progressed_trans; [exact H | apply progressed_headers_read].
Qed.

Lemma progressed_fail (k : nat) (ts : list string) (c : call) (msg : string)
    (m1 m2 : machine) :
  progressed k ts m1 m2 -> progressed k (ts ++ shown c [msg]) m1 (onFail_toast c msg m2).
Proof.
  intros H. rewrite <- (Nat.add_0_r k).
  eapply progressed_trans; [exact H | apply progressed_onFail].
Qed.

Lemma shown_two (c : call) (a b : string) :
  shown c [a; b] = ([] ++ shown c [a]) ++ shown c [b].
Proof. unfold shown. by destruct (disableToast c). Qed.

Lemma answered_json (E : env) (c : call) (r : Response) (j : json) :
  ok r = true -> returnResponse c = false -> resp_json r = Some j ->
  answered E c (FetchResponse r) (Resolved (VJson j)) [].
Proof.
  intros Hok Hret Hj op m1 m2 Hp. rewrite on_response_ok_json by done.
  exists 1%nat. eexists. split; [lia|]. split.
  - eapply quiet_turn;
      [rewrite (resume_json E _ op c r) by done; by rewrite Hj | done | apply quiet_done].
  - apply settled_set_loop. apply (progressed_read 1 [] r m1 m2 Hp).
Qed.

Lemma answered_response (E : env) (c : call) (r : Response) :
  ok r = true -> returnResponse c = true ->
  answered E c (FetchResponse r) (Resolved (VResponse r)) [].
Proof.
  intros Hok Hret op m1 m2 Hp. rewrite on_response_ok_response by done.
  exists 0%nat. eexists. split; [lia|]. split; [apply quiet_done|].
  apply settled_set_loop. apply (progressed_read 1 [] r m1 m2 Hp).
Qed.

Lemma answered_error (E : env) (c : call) (r : Response) :
  ok r = false -> status r <> 401 -> status r <> 429 ->
  answered E c (FetchResponse r) (Rejected (ThrowError ("Error fetching " +:+ url c)))
    (shown c
       [if 400 <=? status r
        then pretty (status r) +:+ " error while fetching " +:+ url c +:+ ": "
             +:+ statusText r
        else "Error fetching " +:+ url c +:+ ": " +:+ statusText r;
        "Error fetching " +:+ url c]).
Proof.
  intros Hok H401 H429 op m1 m2 Hp.
  exists 0%nat. eexists. split; [lia|]. split; [apply quiet_done|].
  destruct (Z.leb_spec 400 (status r)) as [Hs|Hs].
  - rewrite on_response_error by done. rewrite shown_two.
    apply settled_on_catch, progressed_fail, progressed_read, Hp.
  - rewrite on_response_not_ok by done. rewrite shown_two.
    apply settled_on_catch, progressed_fail, progressed_read, Hp.
Qed.

Lemma answered_failure (E : env) (c : call) :
  answered E c FetchFails (Rejected (ThrowError ("Error fetching " +:+ url c)))
    (shown c ["Error fetching " +:+ url c]).
Proof.
  intros op m1 m2 Hp. exists 0%nat. eexists. split; [lia|]. split; [apply quiet_done|].
  rewrite <- (app_nil_l (shown c _)). by apply settled_on_catch.
Qed.

Lemma answered_unparsable (E : env) (c : call) (r : Response) :
  ok r = true -> returnResponse c = false -> resp_json r = None ->
  answered E c (FetchResponse r) (Rejected (ThrowError ("Error fetching " +:+ url c)))
    (shown c ["Error parsing JSON from " +:+ url c; "Error fetching " +:+ url c]).
Proof.
  intros Hok Hret Hj op m1 m2 Hp. rewrite on_response_ok_json by done.
  assert (Hs : settled_with op (Rejected (ThrowError ("Error fetching " +:+ url c))) 1
                 (shown c ["Error parsing JSON from " +:+ url c; "Error fetching " +:+ url c])
                 m1 (on_catch c op
                       (onFail_toast c ("Error parsing JSON from " +:+ url c)
                          (set_loop (LoopExecute op (AwaitJson c r)) (headers_read r m2))))).
  { rewrite shown_two.
    apply settled_on_catch, progressed_fail. apply (progressed_read 1 [] r m1 m2 Hp). }
  exists 1%nat. eexists. split; [lia|]. split; [|exact Hs].
  eapply quiet_turn;
    [rewrite (resume_json E _ op c r) by done; by rewrite Hj | | apply quiet_done].
  destruct Hs as (_ & _ & _ & -> & _).
  destruct (progressed_read 1 [] r m1 m2 Hp) as (_ & _ & Hp2 & _). by rewrite <- Hp2.
Qed.

(** X1. A call of [request] made while the queue is idle, with retries
    left and a token at hand (or a route that needs none), whose [fetch] is
    answered by an ok response with a body that parses, resolves with the
    parsed body: one [fetch], no toast, no other promise settled, and the
    drain loop stops on an empty queue, having waited only the backoff. *)
Theorem request_resolves_json (E : env) (c : call) (m : machine) (r : Response) (j : json) :
  idle m -> 0 <= maxRetries c -> may_fetch E c m ->
  network E (fetches m) = FetchResponse r ->
  ok r = true -> returnResponse c = false -> resp_json r = Some j ->
  completes E c m (Resolved (VJson j)) 1 [].
Proof.
  intros Hidle Hb Ht Hfr Hok Hret Hj.
  apply (fetch_attempt E c m _ _ (FetchResponse r)); try done. by apply answered_json.
Qed.

(** X2. With [returnResponse] set, the same call resolves with the
    [Response] object itself, and its body is not read. *)
Theorem request_returns_response (E : env) (c : call) (m : machine) (r : Response) :
  idle m -> 0 <= maxRetries c -> may_fetch E c m ->
  network E (fetches m) = FetchResponse r ->
  ok r = true -> returnResponse c = true ->
  completes E c m (Resolved (VResponse r)) 1 [].
Proof.
  intros Hidle Hb Ht Hfr Hok Hret.
  apply (fetch_attempt E c m _ _ (FetchResponse r)); try done. by apply answered_response.
Qed.

(** X3. A response that is not ok, and neither a 401 nor a 429, rejects
    the call with the error [Error fetching <url>]: the message that names
    the status (from 400 up) or the status text is shown as a toast and
    lost to the caller, and a second toast shows the generic message;
    with [disableToast] no toast is shown. *)
Theorem error_status_rejects (E : env) (c : call) (m : machine) (r : Response) :
  idle m -> 0 <= maxRetries c -> may_fetch E c m ->
  network E (fetches m) = FetchResponse r ->
  ok r = false -> status r <> 401 -> status r <> 429 ->
  completes E c m (Rejected (ThrowError ("Error fetching " +:+ url c))) 1
    (shown c
       [if 400 <=? status r
        then pretty (status r) +:+ " error while fetching " +:+ url c +:+ ": "
             +:+ statusText r
        else "Error fetching " +:+ url c +:+ ": " +:+ statusText r;
        "Error fetching " +:+ url c]).
Proof.
  intros Hidle Hb Ht Hfr Hok H401 H429.
  apply (fetch_attempt E c m _ _ (FetchResponse r)); try done. by apply answered_error.
Qed.

(** X4. When [fetch] itself rejects, the call is rejected with the error
    [Error fetching <url>], after one toast of that message unless
    [disableToast] is set. *)
Theorem fetch_failure_rejects (E : env) (c : call) (m : machine) :
  idle m -> 0 <= maxRetries c -> may_fetch E c m ->
  network E (fetches m) = FetchFails ->
  completes E c m (Rejected (ThrowError ("Error fetching " +:+ url c))) 1
    (shown c ["Error fetching " +:+ url c]).
Proof.
  intros Hidle Hb Ht Hfr.
  apply (fetch_attempt E c m _ _ FetchFails); try done. apply answered_failure.
Qed.

(** X5. An ok response whose body does not parse rejects the call with
    the error [Error fetching <url>], not with the parse error: the toast
    [Error parsing JSON from <url>] is followed by the generic one. *)
Theorem unparsable_body_rejects (E : env) (c : call) (m : machine) (r : Response) :
  idle m -> 0 <= maxRetries c -> may_fetch E c m ->
  network E (fetches m) = FetchResponse r ->
  ok r = true -> returnResponse c = false -> resp_json r = None ->
  completes E c m (Rejected (ThrowError ("Error fetching " +:+ url c))) 1
    (shown c ["Error parsing JSON from " +:+ url c; "Error fetching " +:+ url c]).
Proof.
  intros Hidle Hb Ht Hfr Hok Hret Hj.
  apply (fetch_attempt E c m _ _ (FetchResponse r)); try done. by apply answered_unparsable.
Qed.

Lemma request_resolves_json_witness :
  completes (always_answers (mkResponse 200 "OK" (Some ∅) (Some (JArr [])))) list_files
    (new_RateLimiter 0) (Resolved (VJson (JArr []))) 1 [].
Proof.
  apply (request_resolves_json _ _ _ (mkResponse 200 "OK" (Some ∅) (Some (JArr []))) (JArr []));
    [repeat split; vm_compute; reflexivity | by vm_compute | right; vm_compute; reflexivity
    | vm_compute; reflexivity ..].
Defined.

Lemma request_returns_response_witness :
  completes (always_answers (mkResponse 200 "OK" (Some ∅) None))
    (mkCall "/api/zip-directory" no_options false true 3) (new_RateLimiter 0)
    (Resolved (VResponse (mkResponse 200 "OK" (Some ∅) None))) 1 [].
Proof.
  apply (request_returns_response _ _ _ (mkResponse 200 "OK" (Some ∅) None));
    [repeat split; vm_compute; reflexivity | by vm_compute | right; vm_compute; reflexivity
    | vm_compute; reflexivity ..].
Defined.

Lemma error_status_rejects_witness :
  completes (always_answers (mkResponse 500 "Internal Server Error" (Some ∅) None)) list_files
    (new_RateLimiter 0) (Rejected (ThrowError "Error fetching /api/list-files")) 1
    ["500 error while fetching /api/list-files: Internal Server Error";
     "Error fetching /api/list-files"].
Proof.
  apply (error_status_rejects _ list_files _
           (mkResponse 500 "Internal Server Error" (Some ∅) None));
    [repeat split; vm_compute; reflexivity | by vm_compute | right; vm_compute; reflexivity
    | vm_compute; reflexivity | vm_compute; reflexivity | by vm_compute | by vm_compute].
Defined.

Lemma fetch_failure_rejects_witness :
  completes logged_out (plain_call "/api/options/models" no_options) (new_RateLimiter 0)
    (Rejected (ThrowError "Error fetching /api/options/models")) 1
    ["Error fetching /api/options/models"].
Proof.
  apply (fetch_failure_rejects logged_out (plain_call "/api/options/models" no_options));
    [repeat split; vm_compute; reflexivity | by vm_compute | left; vm_compute; reflexivity
    | vm_compute; reflexivity].
Defined.

Lemma unparsable_body_rejects_witness :
  completes (always_answers (mkResponse 200 "OK" (Some ∅) None)) list_files
    (new_RateLimiter 0) (Rejected (ThrowError "Error fetching /api/list-files")) 1
    ["Error parsing JSON from /api/list-files"; "Error fetching /api/list-files"].
Proof.
  apply (unparsable_body_rejects _ list_files _ (mkResponse 200 "OK" (Some ∅) None));
    [repeat split; vm_compute; reflexivity | by vm_compute | right; vm_compute; reflexivity
    | vm_compute; reflexivity ..].
Defined.

(** ** The flag, the queue and the drain loop *)

Lemma executing_drain_inv (m : machine) : executing m -> drain_inv m.
Proof. intros (Hp & op & e & Hl). unfold drain_inv. by rewrite Hl. Qed.

Lemma start_execute_executing (E : env) (op : QueuedOperation) (m : machine) :
  isProcessing (limiter m) = true -> executing (start_execute E op m).
Proof.
  intros Hp. split; [by rewrite start_execute_limiter|].
  unfold start_execute, executeRequest. repeat case_match; cbn [loop set_loop]; eauto.
Qed.

Lemma dispatch_executing (E : env) (m : machine) :
  isProcessing (limiter m) = true -> requestQueue (limiter m) <> [] ->
  executing (dispatch E m).
Proof.
  intros Hp Hq. unfold dispatch. destruct (requestQueue (limiter m)) as [|op rest]; [done|].
  by apply start_execute_executing.
Qed.

Lemma loop_head_drain_inv (E : env) (m : machine) :
  isProcessing (limiter m) = true -> drain_inv (loop_head E m).
Proof.
  intros Hp. unfold loop_head.
  destruct (requestQueue (limiter m)) as [|op rest] eqn:Hq; [done|].
  destruct (num_gt _ _).
  - unfold drain_inv. cbn [loop set_loop sleep emit limiter]. rewrite Hq. by split.
  - apply executing_drain_inv, dispatch_executing; [done|by rewrite Hq].
Qed.

Lemma push_operation_drain_inv (u : unit_body) (m : machine) :
  isProcessing (limiter m) = true -> drain_inv m -> drain_inv (push_operation u m).
Proof.
  intros Hp. unfold drain_inv. cbn.
  destruct (loop m); rewrite ?Hp; try done; try (by intros [? _]).
  all: intros [_ Hq]; split; [done|]; by destruct (requestQueue (limiter m)).
Qed.

Lemma enqueue_drain_inv (E : env) (u : unit_body) (m : machine) :
  drain_inv m -> drain_inv (enqueue E u m).2.
Proof.
  intros Hi. destruct (isProcessing (limiter m)) eqn:Hp.
  - rewrite enqueue_processing by done. by apply push_operation_drain_inv.
  - assert (Hidle : idle m).
    { unfold drain_inv in Hi. unfold idle. rewrite Hp in *.
      destruct (loop m); try done; by destruct Hi. }
    rewrite enqueue_idle by done. by apply loop_head_drain_inv.
Qed.

Lemma request_executing (E : env) (c : call) (m : machine) (op : QueuedOperation)
    (e : exec_state) :
  isProcessing (limiter m) = true ->
  executing (set_loop (LoopExecute op e) (request E c m).2).
Proof.
  intros Hp. rewrite request_processing by done. split; [done|]. cbn. eauto.
Qed.

Lemma on_catch_executing (c : call) (op : QueuedOperation) (m : machine) :
  isProcessing (limiter m) = true -> executing (on_catch c op m).
Proof.
  intros Hp. unfold on_catch, onFail_toast. split; [by destruct (disableToast c)|].
  cbn. eauto.
Qed.

Lemma headers_read_isProcessing (r : Response) (m : machine) :
  isProcessing (limiter (headers_read r m)) = isProcessing (limiter m).
Proof. by destruct (headers_read_frame r m) as (_ & H & _). Qed.

Lemma onFail_toast_isProcessing (c : call) (msg : string) (m : machine) :
  isProcessing (limiter (onFail_toast c msg m)) = isProcessing (limiter m).
Proof. unfold onFail_toast. by destruct (disableToast c). Qed.

Lemma on_response_executing (E : env) (c : call) (r : Response) (op : QueuedOperation)
    (m : machine) :
  isProcessing (limiter m) = true -> executing (on_response E c r op m).
Proof.
  intros Hp. unfold on_response.
  pose proof (headers_read_isProcessing r m) as Hh. rewrite Hp in Hh.
  set (m1 := headers_read r m) in *. clearbody m1.
  destruct (status r =? 401).
  { pose proof (request_executing E authenticate_call m1 op
                  (AwaitReauth c (request E authenticate_call m1).1) Hh) as H.
    by destruct (request E authenticate_call m1). }
  destruct (status r =? 429).
  { destruct (resp_headers r); [|by apply on_catch_executing].
    split; [done|]. cbn. eauto. }
  destruct (400 <=? status r).
  { apply on_catch_executing. by rewrite onFail_toast_isProcessing. }
  destruct (negb (ok r)).
  { apply on_catch_executing. by rewrite onFail_toast_isProcessing. }
  destruct (returnResponse c); (split; [done|]; cbn; eauto).
Qed.

Lemma after_execute_drain_inv (E : env) (op : QueuedOperation) (o : outcome) (m : machine) :
  isProcessing (limiter m) = true -> drain_inv (after_execute E op o m).
Proof.
  intros Hp. destruct (outcome_is_429 o) eqn:Ho.
  - rewrite after_execute_429 by done. unfold drain_inv. by cbn.
  - rewrite after_execute_settles by done. by apply loop_head_drain_inv.
Qed.

Lemma resume_drain_inv (E : env) (m m' : machine) :
  drain_inv m -> resume E m = Some m' -> drain_inv m'.
Proof.
  unfold drain_inv at 1, resume. destruct (loop m) as [|b|op e|b|]; try done.
  - intros [Hp Hq] [= <-]. by apply executing_drain_inv, dispatch_executing.
  - intros Hp. destruct e as [c|c|c p|c ms|c r|p|o].
    + pose proof (request_executing E (retry c) (advance WAIT_FOR_AUTH_DELAY_MS m) op
                    (Adopted (request E (retry c) (advance WAIT_FOR_AUTH_DELAY_MS m)).1)
                    Hp) as H.
      destruct (request E (retry c) _). intros [= <-]. by apply executing_drain_inv.
    + destruct (network E (fetches m)); intros [= <-]; apply executing_drain_inv.
      * by apply on_catch_executing.
      * by apply on_response_executing.
    + destruct (promises m !! p) as [[v|e]|]; try done.
      * pose proof (request_executing E (retry c) m op
                      (Adopted (request E (retry c) m).1) Hp) as H.
        destruct (request E (retry c) m). intros [= <-]. by apply executing_drain_inv.
      * intros [= <-]. by apply executing_drain_inv, on_catch_executing.
    + pose proof (request_executing E (retry c) (advance ms m) op
                    (Adopted (request E (retry c) (advance ms m)).1) Hp) as H.
      destruct (request E (retry c) _). intros [= <-]. by apply executing_drain_inv.
    + destruct (resp_json r); intros [= <-]; apply executing_drain_inv.
      * split; [done|]. cbn. eauto.
      * apply on_catch_executing. by rewrite onFail_toast_isProcessing.
    + destruct (promises m !! p); [|done]. intros [= <-]. apply executing_drain_inv.
      split; [done|]. cbn. eauto.
    + intros [= <-]. by apply after_execute_drain_inv.
  - intros [Hp Hq] [= <-]. by apply loop_head_drain_inv.
Qed.

Lemma limiter_step_drain_inv (E : env) (m : machine) (a : limiter_event) :
  drain_inv m -> drain_inv (limiter_step E m a).
Proof.
  intros Hi. destruct a as [u|]; cbn [limiter_step].
  - by apply enqueue_drain_inv.
  - destruct (resume E m) as [m'|] eqn:Hr; [|done]. by apply (resume_drain_inv E m).
Qed.

Lemma limiter_state_drain_inv (E : env) (t0 : Z) (l : list limiter_event) :
  drain_inv (limiter_state E t0 l).
Proof.
  unfold limiter_state. induction l as [|a l IH] using rev_ind.
  - by vm_compute.
  - rewrite fold_left_app. by apply limiter_step_drain_inv.
Qed.

(** X6. In every state of the limiter, whatever units have been enqueued
    and however many turns taken: [isProcessing] is set exactly while
    [processQueue] is suspended somewhere, the queue is empty whenever it
    is not, and [shift()] never meets an empty queue. *)
Theorem drain_loop_consistent (E : env) (t0 : Z) (l : list limiter_event) :
  let m := limiter_state E t0 l in
  (isProcessing (limiter m) = false <-> loop m = LoopIdle)
  /\ (isProcessing (limiter m) = false -> requestQueue (limiter m) = [])
  /\ loop m <> LoopFailed.
Proof.
  intros m. pose proof (limiter_state_drain_inv E t0 l) as Hi. fold m in Hi.
  unfold drain_inv in Hi. destruct (loop m) as [|b|op e|b|]; try done.
  - destruct Hi as [-> ->]. done.
  - destruct Hi as [-> _]. done.
  - rewrite Hi. done.
  - destruct Hi as [-> _]. done.
Qed.

(** ** Tokens on the wire *)

Lemma traced_emit (E : env) (e : event) (m : machine) :
  fetch_authorised E e -> traced E m -> traced E (emit e m).
Proof. intros He Hm. apply Forall_app. split; [exact Hm|]. by constructor. Qed.

Lemma traced_same (E : env) (m m' : machine) : trace m' = trace m -> traced E m -> traced E m'.
Proof. unfold traced. by intros ->. Qed.

Lemma final_headers_token (o : RequestInit) (tok : string) (githubToken : option string) :
  tok <> EmptyString ->
  final_headers o (Some tok) githubToken !! "Authorization" = Some ("Bearer " +:+ tok).
Proof.
  intros Ht. unfold final_headers. destruct tok as [|a tok]; [done|]. cbn [truthy default].
  destruct (truthy githubToken).
  - rewrite lookup_insert_ne by done. apply lookup_insert_eq.
  - apply lookup_insert_eq.
Qed.

Lemma executeRequest_traced (E : env) (c : call) (op : QueuedOperation) (m : machine) :
  traced E m -> traced E (executeRequest E c op m).
Proof.
  intros Hm. unfold executeRequest. destruct (maxRetries c <? 0); [done|].
  destruct (negb (truthy (getToken E (now m))) && needsAuth (url c)) eqn:Hc.
  - by apply (traced_emit E (EvSleep _)).
  - apply (traced_emit E (EvFetch _ _)); [|done]. intros Hn. rewrite Hn, andb_true_r in Hc.
    apply negb_false_iff in Hc. destruct (getToken E (now m)) as [[|a tok]|] eqn:Ht; try done.
    exists (now m), (String a tok), (final_headers (options c) (Some (String a tok))
                                      (getGitHubToken E (now m))).
    split; [done|]. split; [done|]. split; [done|]. by apply final_headers_token.
Qed.

Lemma start_execute_traced (E : env) (op : QueuedOperation) (m : machine) :
  traced E m -> traced E (start_execute E op m).
Proof.
  intros Hm. unfold start_execute. destruct (execute op) as [c|label k f].
  - by apply executeRequest_traced, (traced_emit E (EvExecute _ _)).
  - by apply (traced_emit E (EvExecute _ _)).
Qed.

Lemma dispatch_traced (E : env) (m : machine) : traced E m -> traced E (dispatch E m).
Proof.
  intros Hm. unfold dispatch. destruct (requestQueue (limiter m)); [done|].
  by apply start_execute_traced.
Qed.

Lemma loop_head_traced (E : env) (m : machine) : traced E m -> traced E (loop_head E m).
Proof.
  intros Hm. unfold loop_head. destruct (requestQueue (limiter m)); [done|].
  destruct (num_gt _ _).
  - by apply (traced_emit E (EvSleep _)).
  - by apply dispatch_traced.
Qed.

Lemma enqueue_traced (E : env) (u : unit_body) (m : machine) :
  traced E m -> traced E (enqueue E u m).2.
Proof.
  intros Hm. unfold enqueue, processQueue. cbn [snd].
  destruct (isProcessing (limiter (push_operation u m))); [done|].
  destruct (requestQueue (limiter (push_operation u m))); [done|].
  by apply loop_head_traced.
Qed.

Lemma on_catch_traced (E : env) (c : call) (op : QueuedOperation) (m : machine) :
  traced E m -> traced E (on_catch c op m).
Proof.
  intros Hm. unfold on_catch, onFail_toast. destruct (disableToast c); [done|].
  by apply (traced_emit E (EvToast _)).
Qed.

Lemma onFail_toast_traced (E : env) (c : call) (msg : string) (m : machine) :
  traced E m -> traced E (onFail_toast c msg m).
Proof.
  intros Hm. unfold onFail_toast. destruct (disableToast c); [done|].
  by apply (traced_emit E (EvToast _)).
Qed.

Lemma headers_read_traced (E : env) (r : Response) (m : machine) :
  traced E m -> traced E (headers_read r m).
Proof.
  intros Hm. unfold headers_read. destruct (resp_headers r) as [headers|]; [|done].
  unfold traced. rewrite updateRateLimits_trace. apply Forall_app. split; [exact Hm|].
  by constructor.
Qed.

Lemma nested_request_traced (E : env) (c : call) (m : machine) (l : pid -> loop_state) :
  traced E m ->
  traced E (let '(p, m') := request E c m in set_loop (l p) m').
Proof.
  intros Hm. pose proof (enqueue_traced E (ExecuteRequest c) m Hm) as H.
  unfold request. by destruct (enqueue E (ExecuteRequest c) m).
Qed.

Lemma on_response_traced (E : env) (c : call) (r : Response) (op : QueuedOperation)
    (m : machine) :
  traced E m -> traced E (on_response E c r op m).
Proof.
  intros Hm%(headers_read_traced E r). unfold on_response.
  set (m1 := headers_read r m) in *. clearbody m1.
  destruct (status r =? 401).
  { by apply (nested_request_traced E authenticate_call m1
                (fun p => LoopExecute op (AwaitReauth c p))). }
  destruct (status r =? 429).
  { destruct (resp_headers r); [|by apply on_catch_traced].
    by apply (traced_emit E (EvSleep _)). }
  destruct (400 <=? status r); [by apply on_catch_traced, onFail_toast_traced|].
  destruct (negb (ok r)); [by apply on_catch_traced, onFail_toast_traced|].
  by destruct (returnResponse c).
Qed.

Lemma after_execute_traced (E : env) (op : QueuedOperation) (o : outcome) (m : machine) :
  traced E m -> traced E (after_execute E op o m).
Proof.
  intros Hm. destruct (outcome_is_429 o) eqn:Ho.
  - rewrite after_execute_429 by done. by apply (traced_emit E (EvSleep _)).
  - rewrite after_execute_settles by done.
    by apply loop_head_traced, (traced_emit E (EvSettle _ _)).
Qed.

Lemma resume_traced (E : env) (m m' : machine) :
  traced E m -> resume E m = Some m' -> traced E m'.
Proof.
  intros Hm. unfold resume. destruct (loop m) as [|b|op e|b|]; try done.
  - intros [= <-]. by apply dispatch_traced.
  - destruct e as [c|c|c p|c ms|c r|p|o].
    + pose proof (nested_request_traced E (retry c) (advance WAIT_FOR_AUTH_DELAY_MS m)
                    (fun p => LoopExecute op (Adopted p)) Hm) as H.
      destruct (request E (retry c) _). by intros [= <-].
    + destruct (network E (fetches m)); intros [= <-].
      * by apply on_catch_traced.
      * by apply on_response_traced.
    + destruct (promises m !! p) as [[v|e]|]; try done.
      * pose proof (nested_request_traced E (retry c) m
                      (fun p => LoopExecute op (Adopted p)) Hm) as H.
        destruct (request E (retry c) m). by intros [= <-].
      * intros [= <-]. by apply on_catch_traced.
    + pose proof (nested_request_traced E (retry c) (advance ms m)
                    (fun p => LoopExecute op (Adopted p)) Hm) as H.
      destruct (request E (retry c) _). by intros [= <-].
    + destruct (resp_json r); intros [= <-]; [done|].
      by apply on_catch_traced, onFail_toast_traced.
    + destruct (promises m !! p); [|done]. by intros [= <-].
    + intros [= <-]. by apply after_execute_traced.
  - intros [= <-]. by apply loop_head_traced.
Qed.

Lemma limiter_state_traced (E : env) (t0 : Z) (l : list limiter_event) :
  traced E (limiter_state E t0 l).
Proof.
  unfold limiter_state. induction l as [|a l IH] using rev_ind; [by vm_compute|].
  rewrite fold_left_app. cbn [fold_left]. destruct a as [v|]; cbn [limiter_step].
  - apply enqueue_traced, IH.
  - destruct (resume E _) as [m'|] eqn:Hr; [|exact IH]. by apply (resume_traced E _ m' IH).
Qed.

(** X7. No [fetch] of a route that needs a token ever leaves without one:
    in every state of the limiter, each [fetch] made so far for a URL
    outside the allow-list carried [Authorization: Bearer <token>], with a
    non-empty token of the token source, whatever headers the caller gave. *)
Theorem fetches_bear_token (E : env) (t0 : Z) (l : list limiter_event) (u : string)
    (o : RequestInit) :
  EvFetch u o ∈ trace (limiter_state E t0 l) -> needsAuth u = true -> bears_token E o.
Proof.
  intros Hin. pose proof (limiter_state_traced E t0 l) as Ht.
  unfold traced in Ht. rewrite Forall_forall in Ht. exact (Ht _ Hin).
Qed.

Lemma fetches_bear_token_witness :
  bears_token (always_answers (mkResponse 200 "OK" (Some ∅) (Some JNull)))
    (finalOptions (mkInit None None (Some {[ "Authorization" := "Basic x" ]}))
       (Some "token") None).
Proof.
  apply (fetches_bear_token (always_answers (mkResponse 200 "OK" (Some ∅) (Some JNull))) 0
           [Enqueued (ExecuteRequest
                        (plain_call "/api/list-files"
                           (mkInit None None (Some {[ "Authorization" := "Basic x" ]}))))]
           "/api/list-files").
  - vm_compute. apply list_elem_of_further, list_elem_of_here.
  - vm_compute. reflexivity.
Defined.

(** ** Quota headers that are missing *)

Lemma or_else_falsy (a : option string) (b : string) : truthy a = false -> or_else a b = b.
Proof. by destruct a as [[|c s]|]. Qed.

Lemma num_div_NaN_r (a : number) : num_div a NaN = NaN.
Proof. by destruct a as [|[]| |q]. Qed.

Lemma updateRateLimits_current (headers : gmap string string) (m : machine) :
  requestsRemaining (current_info (updateRateLimits headers m))
  = parseInt (or_else (headers !! "x-ratelimit-remaining") "Infinity")
  /\ totalLimit (current_info (updateRateLimits headers m))
     = parseInt (or_else (headers !! "x-ratelimit-limit") "Infinity").
Proof.
  pose proof (updateRateLimits_snapshot headers m) as H.
  unfold limiter_snapshot, snapshot in H. cbv zeta in H.
  fold (current_info (updateRateLimits headers m)) in H. by injection H as -> _ ->.
Qed.

(** X8. A response whose headers lack [x-ratelimit-remaining] or
    [x-ratelimit-limit] (or give it empty) does not leave the quota
    unbounded: the default ['Infinity'] is parsed to NaN, and from then on
    [calculateBackoff] gives four times the base.  The one exception is a
    [x-ratelimit-remaining] so long that it parses to [Infinity], beside a
    missing limit: then the backoff is 0. *)
Theorem missing_quota_headers_throttle (headers : gmap string string) (m : machine) :
  truthy (headers !! "x-ratelimit-remaining") = false
  \/ truthy (headers !! "x-ratelimit-limit") = false ->
  calculateBackoff (updateRateLimits headers m)
  = if num_strict_eq (parseInt (or_else (headers !! "x-ratelimit-remaining") "Infinity"))
         Infinity
    then num_of_Z 0
    else num_mul (backoffTime (limiter m)) (num_of_Z 4).
Proof.
  intros H. unfold calculateBackoff, calculateBackoff_of.
  destruct (updateRateLimits_current headers m) as [-> ->].
  destruct (updateRateLimits_frame headers m) as (_ & _ & -> & _).
  destruct (num_strict_eq _ Infinity); [done|].
  assert (Hnan : parseInt "Infinity" = NaN) by (vm_compute; reflexivity).
  destruct H as [H|H]; rewrite (or_else_falsy _ _ H), Hnan.
  - done.
  - by rewrite num_div_NaN_r.
Qed.

Lemma missing_quota_headers_throttle_witness :
  calculateBackoff (updateRateLimits {[ "x-ratelimit-remaining" := "5" ]} (new_RateLimiter 0))
  = num_mul (num_of_Z 1000) (num_of_Z 4).
Proof.
  refine (eq_trans (missing_quota_headers_throttle {[ "x-ratelimit-remaining" := "5" ]}
                      (new_RateLimiter 0) _) _).
  - right. vm_compute. reflexivity.
  - vm_compute. reflexivity.
Defined.

(** ** The retry-after header *)

Lemma parseInt_letter (a : ascii) (s : string) :
  is_letter a = true -> parseInt (String a s) = NaN.
Proof.
  destruct a as [[] [] [] [] [] [] [] []]; intros H; try discriminate H; clear H;
    vm_compute; reflexivity.
Qed.

(** X9. A [retry-after] header in the form of an HTTP date (it starts with
    the name of a day, so with a letter) is no delay at all: its [parseInt]
    is NaN, and the timer of the 429 branch fires at once. *)
Theorem retry_after_date_no_wait (headers : gmap string string) (a : ascii) (s : string) :
  headers !! "retry-after" = Some (String a s) -> is_letter a = true ->
  retry_after_ms headers = NaN /\ delay_ms (retry_after_ms headers) = 0.
Proof.
  intros Hh Ha. unfold retry_after_ms. rewrite Hh. cbn [or_else].
  by rewrite (parseInt_letter a s Ha).
Qed.

Lemma retry_after_date_no_wait_witness :
  retry_after_ms {[ "retry-after" := "Wed, 21 Oct 2015 07:28:00 GMT" ]} = NaN
  /\ delay_ms (retry_after_ms {[ "retry-after" := "Wed, 21 Oct 2015 07:28:00 GMT" ]}) = 0.
Proof.
  apply (retry_after_date_no_wait {[ "retry-after" := "Wed, 21 Oct 2015 07:28:00 GMT" ]}
           "W" "ed, 21 Oct 2015 07:28:00 GMT"); vm_compute; reflexivity.
Defined.

(** ** The stored quota over time *)

(** A turn leaves the heap and the record of the limiter as they are,
    unless it is the arrival of a response. *)
Lemma resume_info (E : env) (m m' : machine) :
  resume E m = Some m' ->
  same_info m m'
  \/ exists op c r,
       loop m = LoopExecute op (AwaitFetch c)
       /\ network E (fetches m) = FetchResponse r
       /\ same_info (headers_read r (set_fetches (S (fetches m)) m)) m'.
Proof.
  unfold resume. destruct (loop m) as [|b|op e|b|]; try done.
  - intros [= <-]. left.
    eapply same_info_trans; [|apply dispatch_same_info]. by same_info_tac.
  - destruct e as [c|c|c p|c ms|c r|p|o].
    + pose proof (request_same_info E (retry c) (advance WAIT_FOR_AUTH_DELAY_MS m)) as H.
      destruct (request E (retry c) _) as [p m1]. intros [= <-]. left.
      eapply same_info_trans; [|eapply same_info_trans; [exact H|]]; by same_info_tac.
    + destruct (network E (fetches m)) as [|r] eqn:Hn; intros [= <-].
      * left. eapply same_info_trans; [|apply on_catch_same_info]. by same_info_tac.
      * right. exists op, c, r. split; [done|]. split; [done|].
        apply (on_response_same_info E c r op).
    + destruct (promises m !! p) as [[v|e]|]; try done.
      * pose proof (request_same_info E (retry c) m) as H.
        destruct (request E (retry c) m) as [p' m1]. intros [= <-]. left.
        eapply same_info_trans; [exact H|]. by same_info_tac.
      * intros [= <-]. left. apply on_catch_same_info.
    + pose proof (request_same_info E (retry c) (advance ms m)) as H.
      destruct (request E (retry c) _) as [p m1]. intros [= <-]. left.
      eapply same_info_trans; [|eapply same_info_trans; [exact H|]]; by same_info_tac.
    + destruct (resp_json r); intros [= <-]; left; [by same_info_tac|].
      eapply same_info_trans; [|apply on_catch_same_info]. by same_info_tac.
    + destruct (promises m !! p); [|done]. intros [= <-]. left. by same_info_tac.
    + intros [= <-]. left. apply after_execute_same_info.
  - intros [= <-]. left.
    eapply same_info_trans; [|apply loop_head_same_info]. by same_info_tac.
Qed.

(** X10. What [getRateLimitInfo] shows changes only when a response
    arrives: enqueueing a unit never changes it, and a turn of the event
    loop either leaves it as it is or is the arrival of the response to a
    [fetch], which sets it from the headers of that response. *)
Theorem quota_changes_on_response_only (E : env) (u : unit_body) (m m' : machine) :
  resume E m = Some m' ->
  limiter_snapshot (enqueue E u m).2 = limiter_snapshot m
  /\ (limiter_snapshot m' = limiter_snapshot m
      \/ exists op c r headers,
           loop m = LoopExecute op (AwaitFetch c)
           /\ network E (fetches m) = FetchResponse r
           /\ resp_headers r = Some headers
           /\ limiter_snapshot m'
              = (parseInt (or_else (headers !! "x-ratelimit-remaining") "Infinity"),
                 reset_time headers (now m),
                 parseInt (or_else (headers !! "x-ratelimit-limit") "Infinity"))).
Proof.
  intros Hr. split; [apply same_info_snapshot, enqueue_same_info|].
  destruct (resume_info E m m' Hr) as [H|(op & c & r & Hl & Hn & H)].
  - left. by apply same_info_snapshot.
  - apply same_info_snapshot in H. rewrite H. unfold headers_read.
    destruct (resp_headers r) as [headers|] eqn:Hh.
    + right. exists op, c, r, headers. split; [done|]. split; [done|]. split; [done|].
      apply (updateRateLimits_snapshot headers (set_fetches (S (fetches m)) m)).
    + by left.
Qed.

Lemma quota_changes_on_response_only_witness :
  let E := always_answers
             (mkResponse 200 "OK"
                (Some {[ "x-ratelimit-remaining" := "10"; "x-ratelimit-limit" := "100";
                         "x-ratelimit-reset" := "17" ]}) (Some JNull)) in
  let m := (request E list_files (new_RateLimiter 0)).2 in
  let m' := default m (resume E m) in
  limiter_snapshot (enqueue E unit_B m).2 = limiter_snapshot m
  /\ (limiter_snapshot m' = limiter_snapshot m
      \/ exists op c r headers,
           loop m = LoopExecute op (AwaitFetch c)
           /\ network E (fetches m) = FetchResponse r
           /\ resp_headers r = Some headers
           /\ limiter_snapshot m'
              = (parseInt (or_else (headers !! "x-ratelimit-remaining") "Infinity"),
                 reset_time headers (now m),
                 parseInt (or_else (headers !! "x-ratelimit-limit") "Infinity"))).
Proof.
  intros E m m'. apply (quota_changes_on_response_only E unit_B m m').
  vm_compute. reflexivity.
Defined.

Lemma same_info_wf (m m' : machine) : same_info m m' -> limiter_wf m -> limiter_wf m'.
Proof. intros [Hs Hl]. unfold limiter_wf. by rewrite Hs, Hl. Qed.

Lemma updateRateLimits_wf (headers : gmap string string) (m : machine) :
  limiter_wf (updateRateLimits headers m).
Proof.
  unfold updateRateLimits, new_Date, new_info, limiter_wf.
  cbn [store limiter rateLimitInfo emit set_limiter set_store set_rateLimitInfo infos dates].
  eexists _, _. split; [apply lookup_insert_eq|]. cbn [resetTime]. apply lookup_insert_eq.
Qed.

Lemma resume_wf (E : env) (m m' : machine) :
  limiter_wf m -> resume E m = Some m' -> limiter_wf m'.
Proof.
  intros Hw Hr. destruct (resume_info E m m' Hr) as [H|(op & c & r & _ & _ & H)].
  - by eapply same_info_wf.
  - eapply same_info_wf; [exact H|]. unfold headers_read.
    destruct (resp_headers r); [apply updateRateLimits_wf | exact Hw].
Qed.

Lemma limiter_step_wf (E : env) (m : machine) (a : limiter_event) :
  limiter_wf m -> limiter_wf (limiter_step E m a).
Proof.
  intros Hw. destruct a as [u|]; cbn [limiter_step].
  - eapply same_info_wf; [apply enqueue_same_info | exact Hw].
  - destruct (resume E m) as [m'|] eqn:Hr; [|done]. by apply (resume_wf E m).
Qed.

Lemma limiter_state_wf (E : env) (t0 : Z) (l : list limiter_event) :
  limiter_wf (limiter_state E t0 l).
Proof.
  unfold limiter_state. induction l as [|a l IH] using rev_ind.
  - unfold new_RateLimiter, new_Date, new_info, limiter_wf.
    cbn [store limiter rateLimitInfo infos dates empty_heap].
    eexists _, _. split; [apply lookup_insert_eq|]. cbn [resetTime]. apply lookup_insert_eq.
  - rewrite fold_left_app. by apply limiter_step_wf.
Qed.

Lemma limiter_step_heap_le (E : env) (m : machine) (a : limiter_event) :
  heap_le (store m) (store (limiter_step E m a)).
Proof.
  destruct a as [u|]; cbn [limiter_step].
  - apply same_info_le, enqueue_same_info.
  - destruct (resume E m) as [m'|] eqn:Hr; [|apply heap_le_refl]. by apply (resume_heap_le E).
Qed.

Lemma limiter_steps_heap_le (E : env) (evs : list limiter_event) (m : machine) :
  heap_le (store m) (store (fold_left (limiter_step E) evs m)).
Proof.
  revert m. induction evs as [|a evs IH]; intros m; [apply heap_le_refl|].
  cbn [fold_left]. eapply heap_le_trans; [apply limiter_step_heap_le | apply IH].
Qed.

(** X11. A record that [getRateLimitInfo] has returned keeps showing the
    quota of the moment of the call: whatever units are enqueued and
    whatever responses arrive afterwards, [updateRateLimits] stores a new
    record with a new [Date] and never writes to an old one. *)
Theorem snapshot_survives (E : env) (t0 : Z) (l evs : list limiter_event) :
  let m := limiter_state E t0 l in
  let r := getRateLimitInfo m in
  snapshot (store (fold_left (limiter_step E) evs r.2)) r.1 = limiter_snapshot m.
Proof.
  intros m r. destruct (limiter_state_wf E t0 l) as (i & t & Hi & Ht). fold m in Hi, Ht.
  pose proof (limiter_steps_heap_le E evs r.2) as Hle.
  unfold r in *. rewrite getRateLimitInfo_snd, getRateLimitInfo_fst in *.
  cbn [store set_store] in Hle.
  set (h := store m) in *. set (o := rateLimitInfo (limiter m)) in *.
  transitivity (snapshot (spread_info o h).2 (spread_info o h).1);
    [|apply spread_info_snapshot].
  unfold spread_info, new_info in *. cbn [fst snd] in *.
  apply (snapshot_heap_le _ _ _ i t Hle).
  - cbn [infos]. rewrite lookup_insert_eq. f_equal. by apply lookup_total_correct.
  - exact Ht.
Qed.

(** ** Endpoints and their requests *)

Lemma request_idle_promises (E : env) (c : call) (m : machine) :
  idle m -> promises (request E c m).2 = promises m.
Proof.
  intros Hidle. unfold request. rewrite enqueue_idle by done. by rewrite loop_head_promises.
Qed.

Lemma call_api_waiting (E : env) (op : api_op) (c : call) (k : cont) (w : world) :
  api_start op w = inr (c, k) -> awaiting w = [] ->
  call_api E op w = waiting_for (request E c (api w)).1 op k (request E c (api w)).2 w.
Proof.
  intros Hs Ha. unfold call_api, waiting_for. rewrite Hs, Ha.
  by destruct (request E c (api w)).
Qed.

Lemma turn_waiting (E : env) (p : pid) (op : api_op) (k : cont) (m m' : machine) (w : world) :
  resume E m = Some m' -> promises m' !! p = None ->
  turn E (waiting_for p op k m w) = waiting_for p op k m' w.
Proof.
  intros Hr Hp. unfold turn, waiting_for. cbn [api set_awaiting set_api].
  rewrite Hr. unfold deliver. cbn [awaiting set_api deliver_all api set_awaiting].
  by rewrite Hp.
Qed.

Lemma turns_waiting (E : env) (p : pid) (op : api_op) (k : cont) (n : nat) (m m' : machine)
    (w : world) :
  quiet_run E n m m' -> promises m !! p = None ->
  acts E (replicate n Turn) (waiting_for p op k m w) = waiting_for p op k m' w.
Proof.
  induction 1 as [|n m m1 m2 Hr Hp _ IH]; intros Hn; [done|].
  cbn [replicate acts fold_left act]. rewrite (turn_waiting E p op k m m1 w Hr); [|by rewrite Hp].
  apply IH. by rewrite Hp.
Qed.

Lemma turn_delivers (E : env) (p : pid) (op : api_op) (k : cont) (m m' : machine)
    (w : world) (o : outcome) :
  resume E m = Some m' -> promises m' !! p = Some o -> awaiting w = [] ->
  turn E (waiting_for p op k m w)
  = finish op (api_finish k o (set_api m' w)).1 (api_finish k o (set_api m' w)).2.
Proof.
  intros Hr Hp Ha. unfold turn, waiting_for. cbn [api set_awaiting set_api].
  rewrite Hr. unfold deliver. cbn [awaiting set_api deliver_all api set_awaiting].
  rewrite Hp.
  replace (set_awaiting [] (set_api m' (set_awaiting [(p, (op, k))] (set_api m w))))
    with (set_api m' w) by (unfold set_api, set_awaiting; cbn; by rewrite Ha).
  by destruct (api_finish k o (set_api m' w)).
Qed.

Lemma acts_app (E : env) (l1 l2 : list action) (w : world) :
  acts E (l1 ++ l2) w = acts E l2 (acts E l1 w).
Proof. unfold acts. apply fold_left_app. Qed.

(** An endpoint that goes to the back end is settled by its continuation
    in the very turn that settles its request. *)
Lemma endpoint_run (E : env) (op : api_op) (c : call) (k : cont) (w : world)
    (o : outcome) (nf : nat) (ts : list string) :
  api_start op w = inr (c, k) ->
  idle (api w) -> fresh_promises (api w) -> awaiting w = [] ->
  completes E c (api w) o nf ts ->
  exists n m',
    (n <= 4)%nat /\ idle m'
    /\ fetches m' = (fetches (api w) + nf)%nat
    /\ toasts m' = toasts (api w) ++ ts
    /\ acts E (Call op :: replicate n Turn) w
       = finish op (api_finish k o (set_api m' w)).1 (api_finish k o (set_api m' w)).2.
Proof.
  intros Hs Hidle Hf Ha (n & m1 & m' & Hn & Hq & Hr & Hi & Hp & Hfe & _ & Ht).
  exists (S n), m'. split; [lia|]. split; [done|]. split; [done|]. split; [done|].
  assert (Hnone : promises (request E c (api w)).2 !! (request E c (api w)).1 = None).
  { rewrite request_idle_promises by done. by apply Hf. }
  replace (S n) with (n + 1)%nat by lia. rewrite replicate_add.
  change (Call op :: replicate n Turn ++ replicate 1 Turn)
    with ([Call op] ++ replicate n Turn ++ replicate 1 Turn).
  rewrite !acts_app. change (acts E [Call op] w) with (call_api E op w).
  rewrite (call_api_waiting E op c k w) by done.
  rewrite (turns_waiting E _ op k n _ m1) by done.
  change (acts E (replicate 1 Turn) ?x) with (turn E x).
  apply turn_delivers; [done| |done].
  rewrite Hp. apply lookup_insert_eq.
Qed.

Lemma api_start_budget (op : api_op) (w : world) (c : call) (k : cont) :
  api_start op w = inr (c, k) -> maxRetries c = default_maxRetries.
Proof.
  destruct op; cbn [api_start];
    unfold getModels, getAgents, getSecurityAnalyzers, getConfig, getFiles, getFile,
      cached_or;
    repeat case_match; intros [= <- <-]; reflexivity.
Qed.

(** The endpoints that cache what they read look their key up first. *)
Lemma api_start_cached (op : api_op) (w : world) (c : call) (key : string) :
  api_start op w = inr (c, KCacheSet key) ->
  returnResponse c = false
  /\ forall w', api_start op w' = cached_or key c (KCacheSet key) w'.
Proof.
  destruct op; cbn [api_start];
    unfold getModels, getAgents, getSecurityAnalyzers, getConfig, getFiles, getFile,
      cached_or;
    repeat case_match; intros [= <- <-]; done.
Qed.

(** X12. The five read endpoints that cache ([getModels], [getAgents],
    [getSecurityAnalyzers], [getConfig], [getFiles]): on a miss, when the
    back end answers with an ok response and a body that parses, the
    endpoint resolves with the body after one [fetch] and stores it under
    its key; a second call is then answered from the cache with no request
    when the body is truthy, and goes to the back end again when it is
    falsy. *)
Theorem read_endpoint_fills_cache (E : env) (op : api_op) (c : call) (key : string)
    (w : world) (r : Response) (j : json) :
  api_start op w = inr (c, KCacheSet key) ->
  idle (api w) -> fresh_promises (api w) -> awaiting w = [] -> may_fetch E c (api w) ->
  network E (fetches (api w)) = FetchResponse r -> ok r = true -> resp_json r = Some j ->
  exists n,
    (n <= 4)%nat
    /\ let w' := acts E (Call op :: replicate n Turn) w in
       finished w' = finished w ++ [(op, Resolved (VJson j))]
       /\ cache w' = <[key := VJson j]> (cache w)
       /\ fetches (api w') = S (fetches (api w))
       /\ awaiting w' = []
       /\ (truthy_value (Some (VJson j)) = true ->
           acts E [Call op] w' = finish op (Resolved (VJson j)) w')
       /\ (truthy_value (Some (VJson j)) = false ->
           api_start op w' = inr (c, KCacheSet key)).
Proof.
  intros Hs Hidle Hf Ha Ht Hn Hok Hj.
  destruct (api_start_cached op w c key Hs) as [Hret Hkey].
  assert (Hc : completes E c (api w) (Resolved (VJson j)) 1 []).
  { apply (fetch_attempt E c _ _ _ (FetchResponse r)); try done.
    - rewrite (api_start_budget op w c _ Hs). by vm_compute.
    - by apply answered_json. }
  destruct (endpoint_run E op c _ w _ _ _ Hs Hidle Hf Ha Hc) as (n & m' & Hle & Hi & Hfe & _ & Hw).
  exists n. split; [done|]. intros w'. unfold w'. rewrite Hw.
  cbn [api_finish fst snd finish cache_set set_cache set_api finished cache api awaiting].
  rewrite Ha. split; [done|]. split; [done|]. split; [lia|]. split; [done|].
  set (w2 := finish _ _ _).
  assert (Hlook : cache_get key w2 = Some (VJson j)) by apply lookup_insert_eq.
  split; intros Htr.
  - change (acts E [Call op] w2) with (call_api E op w2). unfold call_api.
    rewrite Hkey. unfold cached_or. by rewrite Hlook, Htr.
  - rewrite Hkey. unfold cached_or. by rewrite Hlook, Htr.
Qed.

Lemma api_finish_rejected (k : cont) (e : thrown) (w : world) :
  k <> KCheckRateLimit -> api_finish k (Rejected e) w = (Rejected e, w).
Proof. by destruct k. Qed.

(** X13. A failed request changes nothing in the cache: when the back end
    answers the request of an endpoint other than [checkRateLimit] with a
    response that is not ok (and neither a 401 nor a 429), the endpoint
    rejects with the error [Error fetching <url>] and the cache is as it
    was; in particular [saveFile] and [uploadFiles] invalidate nothing
    then. *)
Theorem failed_endpoint_keeps_cache (E : env) (op : api_op) (c : call) (k : cont)
    (w : world) (r : Response) :
  api_start op w = inr (c, k) -> op <> CheckRateLimit ->
  idle (api w) -> fresh_promises (api w) -> awaiting w = [] -> may_fetch E c (api w) ->
  network E (fetches (api w)) = FetchResponse r ->
  ok r = false -> status r <> 401 -> status r <> 429 ->
  exists n,
    (n <= 4)%nat
    /\ let w' := acts E (Call op :: replicate n Turn) w in
       finished w'
       = finished w ++ [(op, Rejected (ThrowError ("Error fetching " +:+ url c)))]
       /\ cache w' = cache w
       /\ OpenHands_rateLimitInfo w' = OpenHands_rateLimitInfo w
       /\ awaiting w' = [].
Proof.
  intros Hs Hop Hidle Hf Ha Ht Hn Hok H401 H429.
  assert (Hk : k <> KCheckRateLimit).
  { intros ->. by apply Hop, (api_start_cont op w c KCheckRateLimit). }
  assert (Hc : completes E c (api w) (Rejected (ThrowError ("Error fetching " +:+ url c))) 1
                 (shown c
                    [if 400 <=? status r
                     then pretty (status r) +:+ " error while fetching " +:+ url c +:+ ": "
                          +:+ statusText r
                     else "Error fetching " +:+ url c +:+ ": " +:+ statusText r;
                     "Error fetching " +:+ url c])).
  { apply (fetch_attempt E c _ _ _ (FetchResponse r)); try done.
    - rewrite (api_start_budget op w c _ Hs). by vm_compute.
    - by apply answered_error. }
  destruct (endpoint_run E op c _ w _ _ _ Hs Hidle Hf Ha Hc) as (n & m' & Hle & _ & _ & _ & Hw).
  exists n. split; [done|]. intros w'. unfold w'. rewrite Hw.
  rewrite api_finish_rejected by done. by rewrite <- Ha.
Qed.

Lemma getRateLimitStatus_frame (w : world) :
  toasts (api (getRateLimitStatus w).2) = toasts (api w)
  /\ OpenHands_rateLimitInfo (getRateLimitStatus w).2 = OpenHands_rateLimitInfo w
  /\ cache (getRateLimitStatus w).2 = cache w
  /\ finished (getRateLimitStatus w).2 = finished w.
Proof.
  unfold getRateLimitStatus. destruct (OpenHands_rateLimitInfo w) as [l|v] eqn:Ho; [|done].
  by destruct (spread_info l (store (api w))).
Qed.

(** X14. [checkRateLimit] does not reject when its request fails: when the
    back end answers with a response that is not ok (and neither a 401
    nor a 429) it resolves, with no toast, and [OpenHands.rateLimitInfo]
    is what it was. *)
Theorem checkRateLimit_resolves (E : env) (w : world) (r : Response) :
  idle (api w) -> fresh_promises (api w) -> awaiting w = [] ->
  may_fetch E checkRateLimit.1 (api w) ->
  network E (fetches (api w)) = FetchResponse r ->
  ok r = false -> status r <> 401 -> status r <> 429 ->
  exists n v,
    (n <= 4)%nat
    /\ let w' := acts E (Call CheckRateLimit :: replicate n Turn) w in
       finished w' = finished w ++ [(CheckRateLimit, Resolved v)]
       /\ toasts (api w') = toasts (api w)
       /\ OpenHands_rateLimitInfo w' = OpenHands_rateLimitInfo w
       /\ cache w' = cache w.
Proof.
  intros Hidle Hf Ha Ht Hn Hok H401 H429.
  pose proof (answered_error E checkRateLimit.1 r Hok H401 H429) as Hans.
  eassert (Hc : completes E checkRateLimit.1 (api w) _ 1 _).
  { eapply (fetch_attempt E _ _ _ _ (FetchResponse r));
      [exact Hidle | by vm_compute | exact Ht | exact Hn | | exact Hans]. done. }
  destruct (endpoint_run E CheckRateLimit _ _ w _ _ _ eq_refl Hidle Hf Ha Hc)
    as (n & m' & Hle & _ & _ & Hto & Hw).
  exists n, (getRateLimitStatus (set_api m' w)).1. split; [done|].
  intros w'. unfold w'. rewrite Hw. cbn [checkRateLimit snd api_finish].
  destruct (getRateLimitStatus_frame (set_api m' w)) as (F1 & F2 & F3 & F4).
  destruct (getRateLimitStatus (set_api m' w)) as [v w2].
  cbn [fst snd] in *. unfold finish.
  cbn [finished api OpenHands_rateLimitInfo cache].
  rewrite F1, F2, F3, F4. cbn [api set_api]. rewrite Hto.
  unfold shown. cbn [disableToast]. by rewrite app_nil_r.
Qed.

(** X15. [getWorkspaceZip] resolves with the blob of an ok response, and
    the body is never parsed as JSON: the request is made with
    [returnResponse]. *)
Theorem getWorkspaceZip_blob (E : env) (w : world) (r : Response) :
  idle (api w) -> fresh_promises (api w) -> awaiting w = [] ->
  may_fetch E getWorkspaceZip.1 (api w) ->
  network E (fetches (api w)) = FetchResponse r -> ok r = true ->
  exists n,
    (n <= 4)%nat
    /\ let w' := acts E (Call GetWorkspaceZip :: replicate n Turn) w in
       finished w' = finished w ++ [(GetWorkspaceZip, Resolved (VBlob r))]
       /\ cache w' = cache w
       /\ fetches (api w') = S (fetches (api w)).
Proof.
  intros Hidle Hf Ha Ht Hn Hok.
  pose proof (answered_response E getWorkspaceZip.1 r Hok eq_refl) as Hans.
  eassert (Hc : completes E getWorkspaceZip.1 (api w) _ 1 _).
  { eapply (fetch_attempt E _ _ _ _ (FetchResponse r));
      [exact Hidle | by vm_compute | exact Ht | exact Hn | | exact Hans]. done. }
  destruct (endpoint_run E GetWorkspaceZip _ _ w _ _ _ eq_refl Hidle Hf Ha Hc)
    as (n & m' & Hle & _ & Hfe & _ & Hw).
  exists n. split; [done|]. intros w'. unfold w'. rewrite Hw. cbn. split; [done|].
  split; [done|]. lia.
Qed.

Lemma getFile_miss (path : string) (w : world) (c : call) (k : cont) :
  api_start (GetFile path) w = inr (c, k) ->
  c = plain_call ("/api/select-file?file=" +:+ encodeURIComponent path) no_options
  /\ k = KGetFile ("file:" +:+ path).
Proof.
  cbn [api_start]. unfold getFile, cached_or. case_match; [done|]. by intros [= <- <-].
Qed.

(** X16. [getFile] caches the [code] property of the body, not the body:
    on a miss answered by an ok response with the body [j], it resolves
    with [j.code] and stores that under [file:<path>]; when reading
    [j.code] throws (the body is [null]) it rejects and stores nothing. *)
Theorem getFile_caches_code (E : env) (path : string) (c : call) (k : cont) (w : world)
    (r : Response) (j : json) :
  api_start (GetFile path) w = inr (c, k) ->
  idle (api w) -> fresh_promises (api w) -> awaiting w = [] -> may_fetch E c (api w) ->
  network E (fetches (api w)) = FetchResponse r -> ok r = true -> resp_json r = Some j ->
  exists n,
    (n <= 4)%nat
    /\ let w' := acts E (Call (GetFile path) :: replicate n Turn) w in
       match get_code (VJson j) with
       | Some content =>
           finished w' = finished w ++ [(GetFile path, Resolved content)]
           /\ cache w' = <["file:" +:+ path := content]> (cache w)
       | None =>
           (exists e, finished w' = finished w ++ [(GetFile path, Rejected e)])
           /\ cache w' = cache w
       end.
Proof.
  intros Hs Hidle Hf Ha Ht Hn Hok Hj.
  destruct (getFile_miss path w c k Hs) as [Hc0 ->].
  assert (Hc : completes E c (api w) (Resolved (VJson j)) 1 []).
  { apply (fetch_attempt E c _ _ _ (FetchResponse r)); try done.
    - rewrite Hc0. by vm_compute.
    - apply answered_json; try done. by rewrite Hc0. }
  destruct (endpoint_run E (GetFile path) c _ w _ _ _ Hs Hidle Hf Ha Hc)
    as (n & m' & Hle & _ & _ & _ & Hw).
  exists n. split; [done|]. intros w'. unfold w'. rewrite Hw. cbn [api_finish].
  destruct (get_code (VJson j)); [done|]. split; [by eexists|done].
Qed.

Lemma read_endpoint_fills_cache_witness :
  let E := mkEnv (fun _ => None) (fun _ => None)
             (fun _ => FetchResponse (mkResponse 200 "OK" (Some ∅) (Some (JArr [JStr "gpt"])))) in
  let c := plain_call "/api/options/models" no_options in
  let w := new_world 0 in
  exists n,
    (n <= 4)%nat
    /\ let w' := acts E (Call GetModels :: replicate n Turn) w in
       finished w' = finished w ++ [(GetModels, Resolved (VJson (JArr [JStr "gpt"])))]
       /\ cache w' = <["models" := VJson (JArr [JStr "gpt"])]> (cache w)
       /\ fetches (api w') = S (fetches (api w))
       /\ awaiting w' = []
       /\ (truthy_value (Some (VJson (JArr [JStr "gpt"]))) = true ->
           acts E [Call GetModels] w'
           = finish GetModels (Resolved (VJson (JArr [JStr "gpt"]))) w')
       /\ (truthy_value (Some (VJson (JArr [JStr "gpt"]))) = false ->
           api_start GetModels w' = inr (c, KCacheSet "models")).
Proof.
  intros E c w.
  apply (read_endpoint_fills_cache E GetModels c "models" w
           (mkResponse 200 "OK" (Some ∅) (Some (JArr [JStr "gpt"]))) (JArr [JStr "gpt"]));
    [vm_compute; reflexivity | repeat split; vm_compute; reflexivity
    | intros p _; vm_compute; reflexivity | vm_compute; reflexivity
    | left; vm_compute; reflexivity | vm_compute; reflexivity ..].
Defined.

Lemma failed_endpoint_keeps_cache_witness :
  let E := always_answers (mkResponse 500 "Internal Server Error" (Some ∅) None) in
  let w := cache_set "files:root" (VJson (JArr [JStr "a.txt"])) (new_world 0) in
  exists n,
    (n <= 4)%nat
    /\ let w' := acts E (Call (SaveFile "a.txt" "x") :: replicate n Turn) w in
       finished w'
       = finished w
         ++ [(SaveFile "a.txt" "x",
              Rejected (ThrowError ("Error fetching " +:+ url (saveFile "a.txt" "x").1)))]
       /\ cache w' = cache w
       /\ OpenHands_rateLimitInfo w' = OpenHands_rateLimitInfo w
       /\ awaiting w' = [].
Proof.
  intros E w.
  apply (failed_endpoint_keeps_cache E (SaveFile "a.txt" "x") (saveFile "a.txt" "x").1
           (saveFile "a.txt" "x").2 w (mkResponse 500 "Internal Server Error" (Some ∅) None));
    [vm_compute; reflexivity | discriminate | repeat split; vm_compute; reflexivity
    | intros p _; vm_compute; reflexivity | vm_compute; reflexivity
    | right; vm_compute; reflexivity | vm_compute; reflexivity | vm_compute; reflexivity
    | by vm_compute | by vm_compute].
Defined.

Lemma checkRateLimit_resolves_witness :
  let E := always_answers (mkResponse 404 "Not Found" (Some ∅) None) in
  let w := new_world 0 in
  exists n v,
    (n <= 4)%nat
    /\ let w' := acts E (Call CheckRateLimit :: replicate n Turn) w in
       finished w' = finished w ++ [(CheckRateLimit, Resolved v)]
       /\ toasts (api w') = toasts (api w)
       /\ OpenHands_rateLimitInfo w' = OpenHands_rateLimitInfo w
       /\ cache w' = cache w.
Proof.
  intros E w.
  apply (checkRateLimit_resolves E w (mkResponse 404 "Not Found" (Some ∅) None));
    [repeat split; vm_compute; reflexivity | intros p _; vm_compute; reflexivity
    | vm_compute; reflexivity | right; vm_compute; reflexivity | vm_compute; reflexivity
    | vm_compute; reflexivity | by vm_compute | by vm_compute].
Defined.

Lemma getWorkspaceZip_blob_witness :
  let E := always_answers (mkResponse 200 "OK" (Some ∅) None) in
  let w := new_world 0 in
  exists n,
    (n <= 4)%nat
    /\ let w' := acts E (Call GetWorkspaceZip :: replicate n Turn) w in
       finished w'
       = finished w ++ [(GetWorkspaceZip, Resolved (VBlob (mkResponse 200 "OK" (Some ∅) None)))]
       /\ cache w' = cache w
       /\ fetches (api w') = S (fetches (api w)).
Proof.
  intros E w.
  apply (getWorkspaceZip_blob E w (mkResponse 200 "OK" (Some ∅) None));
    [repeat split; vm_compute; reflexivity | intros p _; vm_compute; reflexivity
    | vm_compute; reflexivity | right; vm_compute; reflexivity | vm_compute; reflexivity
    | vm_compute; reflexivity].
Defined.

Lemma getFile_caches_code_witness :
  let body := JObj [("code", JStr "print(1)")] in
  let E := always_answers (mkResponse 200 "OK" (Some ∅) (Some body)) in
  let w := new_world 0 in
  exists n,
    (n <= 4)%nat
    /\ let w' := acts E (Call (GetFile "a.py") :: replicate n Turn) w in
       match get_code (VJson body) with
       | Some content =>
           finished w' = finished w ++ [(GetFile "a.py", Resolved content)]
           /\ cache w' = <["file:" +:+ "a.py" := content]> (cache w)
       | None =>
           (exists e, finished w' = finished w ++ [(GetFile "a.py", Rejected e)])
           /\ cache w' = cache w
       end.
Proof.
  intros body E w.
  apply (getFile_caches_code E "a.py"
           (plain_call ("/api/select-file?file=" +:+ encodeURIComponent "a.py") no_options)
           (KGetFile ("file:" +:+ "a.py")) w (mkResponse 200 "OK" (Some ∅) (Some body)) body);
    [vm_compute; reflexivity | repeat split; vm_compute; reflexivity
    | intros p _; vm_compute; reflexivity | vm_compute; reflexivity
    | right; vm_compute; reflexivity | vm_compute; reflexivity ..].
Defined.

(** ** Cache keys and URLs *)

Lemma hex_digit_inj (a b : nat) :
  (a < 16)%nat -> (b < 16)%nat -> hex_digit a = hex_digit b -> a = b.
Proof.
  intros Ha Hb.
  do 16 (destruct a as [|a]; [do 16 (destruct b as [|b]; [by vm_compute|]); lia|]). lia.
Qed.

Lemma nat_of_ascii_bound (c : ascii) : (nat_of_ascii c < 256)%nat.
Proof. apply nat_ascii_bounded. Qed.

Lemma nat_of_ascii_inj (c d : ascii) : nat_of_ascii c = nat_of_ascii d -> c = d.
Proof. intros H. by rewrite <- (ascii_nat_embedding c), <- (ascii_nat_embedding d), H. Qed.

Lemma encodeURIComponent_inj (s t : string) :
  encodeURIComponent s = encodeURIComponent t -> s = t.
Proof.
  revert t. induction s as [|c s IH]; intros [|d t]; cbn [encodeURIComponent].
  - done.
  - by destruct (unreserved d).
  - by destruct (unreserved c).
  - destruct (unreserved c) eqn:Hc, (unreserved d) eqn:Hd.
    + intros [= -> H]. by rewrite (IH t H).
    + intros [= -> _]. by vm_compute in Hc.
    + intros [= <- _]. by vm_compute in Hd.
    + intros Heq. injection Heq as H1 H2 H. rewrite (IH t H). f_equal.
      apply nat_of_ascii_inj.
      pose proof (nat_of_ascii_bound c). pose proof (nat_of_ascii_bound d).
      change (hex_digit (nat_of_ascii c / 16) = hex_digit (nat_of_ascii d / 16)) in H1.
      change (hex_digit (nat_of_ascii c mod 16) = hex_digit (nat_of_ascii d mod 16)) in H2.
      apply hex_digit_inj in H1; [|apply Nat.Div0.div_lt_upper_bound; lia..].
      apply hex_digit_inj in H2; [|apply Nat.mod_upper_bound; lia..].
      rewrite (Nat.div_mod_eq (nat_of_ascii c) 16), (Nat.div_mod_eq (nat_of_ascii d) 16).
      by rewrite H1, H2.
Qed.

Lemma hex_digit_unreserved (n : nat) : (n < 16)%nat -> unreserved (hex_digit n) = true.
Proof. intros Hn. do 16 (destruct n as [|n]; [by vm_compute|]). lia. Qed.

Lemma has_char_app (c : ascii) (s t : string) :
  has_char c (s +:+ t) = has_char c s || has_char c t.
Proof.
  induction s as [|a s IH]; [done|].
  change (String a s +:+ t) with (String a (s +:+ t)). cbn [has_char].
  by rewrite IH, orb_assoc.
Qed.

(** What [encodeURIComponent] returns is made of unreserved bytes and
    percent signs. *)
Lemma encodeURIComponent_chars (s : string) (c : ascii) :
  has_char c (encodeURIComponent s) = true -> unreserved c = true \/ c = "%"%char.
Proof.
  induction s as [|a s IH]; [done|]. cbn [encodeURIComponent].
  destruct (unreserved a) eqn:Ha.
  - cbn [has_char]. intros [H|H]%orb_prop; [|by apply IH].
    apply Ascii.eqb_eq in H as <-. by left.
  - pose proof (nat_of_ascii_bound a) as Hb.
    cbn [has_char]. intros [H|[H|[H|H]%orb_prop]%orb_prop]%orb_prop.
    + apply Ascii.eqb_eq in H as <-. by right.
    + apply Ascii.eqb_eq in H as <-. left. apply hex_digit_unreserved.
      apply Nat.Div0.div_lt_upper_bound. lia.
    + apply Ascii.eqb_eq in H as <-. left. apply hex_digit_unreserved.
      apply Nat.mod_upper_bound. lia.
    + by apply IH.
Qed.

(** X17. The URL that [getFile] and [getFiles] ask for tells the path:
    two paths with the same URL are the same path, and no byte of the path
    reaches the URL as a delimiter of the query. *)
Theorem path_urls_faithful (f : string -> api_op) (w : world) (p q : string)
    (c c' : call) (k k' : cont) :
  f = GetFile \/ f = (fun x => GetFiles (Some x)) /\ p <> EmptyString /\ q <> EmptyString ->
  api_start (f p) w = inr (c, k) -> api_start (f q) w = inr (c', k') ->
  (url c = url c' -> p = q)
  /\ Forall (fun d => has_char d (url c) = false) ["&"; "#"; "+"; " "]%char.
Proof.
  intros [->|(-> & Hp & Hq)] Hs Hs'.
  - apply getFile_miss in Hs as [-> _]. apply getFile_miss in Hs' as [-> _].
    cbn [url plain_call]. split.
    + intros H. apply (inj (String.app _)) in H. by apply encodeURIComponent_inj in H.
    + repeat constructor; rewrite has_char_app;
        (destruct (has_char _ (encodeURIComponent p)) eqn:He; [|done]);
        by apply encodeURIComponent_chars in He as [He|He].
  - cbn [api_start] in Hs, Hs'. unfold getFiles, cached_or in Hs, Hs'.
    assert (Htp : truthy (Some p) = true) by (by destruct p).
    assert (Htq : truthy (Some q) = true) by (by destruct q).
    rewrite Htp in Hs. rewrite Htq in Hs'. cbn [default] in Hs, Hs'.
    destruct (truthy_value _); [done|]. injection Hs as <- _.
    destruct (truthy_value _); [done|]. injection Hs' as <- _.
    cbn [url plain_call]. split.
    + intros H. apply (inj (String.app _)), (inj (String.app _)) in H.
      by apply encodeURIComponent_inj in H.
    + repeat constructor; rewrite !has_char_app;
        (destruct (has_char _ (encodeURIComponent _)) eqn:He; [|done]);
        by apply encodeURIComponent_chars in He as [He|He].
Qed.

Lemma path_urls_faithful_witness :
  let c := plain_call ("/api/select-file?file=" +:+ encodeURIComponent "a b&c=d.py") no_options in
  (url c = url c -> "a b&c=d.py" = "a b&c=d.py")
  /\ Forall (fun d => has_char d (url c) = false) ["&"; "#"; "+"; " "]%char.
Proof.
  intros c.
  apply (path_urls_faithful GetFile (new_world 0) "a b&c=d.py" "a b&c=d.py" c c
           (KGetFile ("file:" +:+ "a b&c=d.py")) (KGetFile ("file:" +:+ "a b&c=d.py")));
    [by left | vm_compute; reflexivity | vm_compute; reflexivity].
Defined.

(** X18. The cache keys of the read endpoints: [getFiles] gives two paths
    the same key only when they name the same listing, where no path (or
    the empty one) and the path ["root"] both name [files:root], so that
    [getFiles("root")] is answered with the cached listing of the
    workspace root; a key of [getFile] is never a key of [getFiles], and
    the four fixed keys are keys of neither. *)
Theorem cache_keys_apart (p q : option string) (path : string) (v : value) (w : world) :
  (files_key p = files_key q
   <-> (if truthy p then default "" p else "root")
       = (if truthy q then default "" q else "root"))
  /\ "file:" +:+ path <> files_key q
  /\ Forall (fun key => key <> files_key q /\ key <> "file:" +:+ path)
       ["models"; "agents"; "security-analyzers"; "config"]
  /\ (cache w !! "files:root" = Some v -> truthy_value (Some v) = true ->
      getFiles (Some "root") w = inl (Resolved v)
      /\ getFiles None w = inl (Resolved v)).
Proof.
  split; [|split; [|split]].
  - unfold files_key. split.
    + destruct (truthy p), (truthy q); intros H; try done.
      * by apply (inj (String.app "files:")) in H.
      * by apply (inj (String.app "files:") _ "root") in H.
      * by apply (inj (String.app "files:") "root") in H.
    + destruct (truthy p), (truthy q); intros H; by rewrite ?H, <- ?H.
  - unfold files_key. by destruct (truthy q).
  - unfold files_key. repeat constructor; by destruct (truthy q).
  - intros Hc Hv. unfold getFiles, cached_or, cache_get. cbn [truthy default files_key].
    change ("files:" +:+ id "root") with "files:root". by rewrite Hc, Hv.
Qed.

Lemma cache_keys_apart_witness :
  let w := cache_set "files:root" (VJson (JArr [JStr "a.txt"])) (new_world 0) in
  getFiles (Some "root") w = inl (Resolved (VJson (JArr [JStr "a.txt"])))
  /\ getFiles None w = inl (Resolved (VJson (JArr [JStr "a.txt"]))).
Proof.
  intros w.
  destruct (cache_keys_apart None None "" (VJson (JArr [JStr "a.txt"])) w) as (_ & _ & _ & H).
  apply H; vm_compute; reflexivity.
Defined.

(** ** The unused updater of the facade *)

(** X19. [OpenHands.updateRateLimitInfo], which no endpoint calls, is the
    same code as [updateRateLimits] of the limiter: for the same headers at
    the same time it would store in [OpenHands.rateLimitInfo] the record
    that the limiter stores, but it emits no [limitUpdate] and leaves the
    limiter alone. *)
Theorem updateRateLimitInfo_same_record (headers : gmap string string) (w : world) :
  let w' := updateRateLimitInfo headers w in
  oh_snapshot w' = inl (limiter_snapshot (updateRateLimits headers (api w)))
  /\ trace (api w') = trace (api w)
  /\ limiter (api w') = limiter (api w)
  /\ cache w' = cache w.
Proof.
  intros w'. split.
  - rewrite updateRateLimits_snapshot.
    unfold w', oh_snapshot, snapshot, updateRateLimitInfo, reset_time, new_Date, new_info.
    simpl. by rewrite !lookup_total_insert_eq.
  - unfold w', updateRateLimitInfo, new_Date, new_info. by simpl.
Qed.

(** ** A burst of requests *)

(** The drain loop gets from its head to the start of the first unit. *)
Lemma loop_head_starts (E : env) (m : machine) (op : QueuedOperation)
    (rest : list QueuedOperation) :
  requestQueue (limiter m) = op :: rest ->
  exists n m1,
    resume_n E n (loop_head E m) = Some (start_execute E op m1)
    /\ requestQueue (limiter m1) = rest
    /\ isProcessing (limiter m1) = isProcessing (limiter m)
    /\ promises m1 = promises m /\ fetches m1 = fetches m /\ next_pid m1 = next_pid m
    /\ queue_events m1 = queue_events m /\ (n <= 1)%nat.
Proof.
  intros Hq. unfold loop_head. rewrite Hq. destruct (num_gt _ _).
  - exists 1%nat. eexists. split.
    + cbn [resume_n]. unfold resume. cbn [loop set_loop]. unfold dispatch.
      cbn [requestQueue limiter advance set_now sleep emit set_loop]. rewrite Hq.
      reflexivity.
    + repeat apply conj; try done.
      unfold queue_events. cbn. rewrite List.filter_app. cbn. by rewrite app_nil_r.
  - exists 0%nat. eexists. split.
    + cbn [resume_n]. unfold dispatch. rewrite Hq. reflexivity.
    + repeat apply conj; try done. lia.
Qed.

(** One unit of [request], answered by an ok response with a body: the
    drain loop is back at its head with the promise of the unit resolved. *)
Lemma request_unit_runs (E : env) (c : call) (p : pid) (rest : list QueuedOperation)
    (m : machine) (r : Response) (j : json) :
  requestQueue (limiter m) = mkOp (ExecuteRequest c) p :: rest ->
  isProcessing (limiter m) = true ->
  (forall t, truthy (getToken E t) = true) ->
  0 <= maxRetries c -> returnResponse c = false ->
  network E (fetches m) = FetchResponse r -> ok r = true -> resp_json r = Some j ->
  exists N m1,
    resume_n E N (loop_head E m) = Some (loop_head E m1)
    /\ requestQueue (limiter m1) = rest
    /\ isProcessing (limiter m1) = true
    /\ promises m1 = <[p := Resolved (VJson j)]> (promises m)
    /\ fetches m1 = S (fetches m) /\ next_pid m1 = next_pid m.
Proof.
  intros Hq Hp Htok Hb Hret Hn Hok Hj.
  destruct (loop_head_starts E m _ rest Hq) as (n0 & md & H0 & D1 & D2 & D3 & D4 & D5 & _).
  rewrite start_execute_fetches in H0; [|done|by right].
  set (op := mkOp (ExecuteRequest c) p) in *.
  set (mf := set_loop _ _) in H0.
  set (m' := set_fetches (S (fetches mf)) mf).
  assert (Hn' : network E (fetches mf) = FetchResponse r) by (by rewrite <- Hn, <- D4).
  destruct (headers_read_frame r m') as (R1 & R2 & _ & _ & R3 & R4 & _ & R5).
  set (ma := set_loop (LoopExecute op (AwaitJson c r)) (headers_read r m')).
  set (ms := set_loop (LoopExecute op (Settled (Resolved (VJson j)))) ma).
  exists (n0 + 3)%nat, (settle p (Resolved (VJson j)) ms).
  split.
  - eapply resume_n_add; [exact H0|]. cbn [resume_n].
    rewrite (resume_fetch E mf op c), Hn' by done.
    rewrite on_response_ok_json by done. fold m' ma.
    rewrite (resume_json E ma op c r), Hj by done. fold ms.
    rewrite (resume_settled E ms op (Resolved (VJson j))) by done.
    by rewrite after_execute_settles.
  - cbn [settle emit set_promises requestQueue isProcessing limiter promises fetches
           next_pid ms ma set_loop].
    rewrite R1, R2, R3, R4, R5. cbn. rewrite D1, D2, D3, D4, D5, Hp. done.
Qed.

Lemma answers_in_turn_tail (E : env) (F : nat) (c : call) (cs : list call) (j : json)
    (js : list json) :
  answers_in_turn E F (c :: cs) (j :: js) -> answers_in_turn E (S F) cs js.
Proof.
  intros [Hlen H]. split; [by injection Hlen|]. intros i c' Hi.
  destruct (H (S i) c' Hi) as (Hb & Hr & r & Hn & Hok & Hj).
  split; [done|]. split; [done|]. exists r. by rewrite Nat.add_succ_comm.
Qed.

(** A queue of units of [request], each answered by an ok response with a
    body, is drained in order. *)
Lemma drain_requests (E : env) (cs : list call) :
  (forall t, truthy (getToken E t) = true) ->
  forall (js : list json) (m : machine) (p0 : pid),
    requestQueue (limiter m) = imap (fun i c => mkOp (ExecuteRequest c) (p0 + i)%nat) cs ->
    isProcessing (limiter m) = true ->
    answers_in_turn E (fetches m) cs js ->
    exists N m',
      resume_n E N (loop_head E m) = Some m'
      /\ idle m'
      /\ fetches m' = (fetches m + length cs)%nat
      /\ next_pid m' = next_pid m
      /\ (forall i j, js !! i = Some j ->
            promises m' !! (p0 + i)%nat = Some (Resolved (VJson j)))
      /\ (forall p, (p < p0)%nat -> promises m' !! p = promises m !! p).
Proof.
  intros Htok. induction cs as [|c cs IH]; intros js m p0 Hq Hp Ha.
  - exists 0%nat, (loop_head E m). unfold loop_head. rewrite Hq. cbn.
    split; [done|]. split; [done|]. split; [lia|]. split; [done|].
    destruct Ha as [Hlen _]. destruct js; [|done]. by split.
  - destruct js as [|j js]; [by destruct Ha|].
    cbn [imap] in Hq. rewrite Nat.add_0_r in Hq.
    destruct Ha as [Hlen H]. destruct (H 0%nat c eq_refl) as (Hb & Hr & r & Hn & Hok & Hj).
    rewrite Nat.add_0_r in Hn. cbn in Hj.
    destruct (request_unit_runs E c p0 _ m r j Hq Hp Htok Hb Hr Hn Hok Hj)
      as (N1 & m1 & H1 & Q1 & P1 & Pr1 & F1 & Np1).
    assert (Hq1 : requestQueue (limiter m1)
                  = imap (fun i c => mkOp (ExecuteRequest c) (S p0 + i)%nat) cs).
    { rewrite Q1. apply imap_ext. intros i x _. cbn. f_equal. lia. }
    assert (Ha1 : answers_in_turn E (fetches m1) cs js).
    { rewrite F1. by apply (answers_in_turn_tail E _ c cs j js). }
    destruct (IH js m1 (S p0) Hq1 P1 Ha1) as (N2 & m' & H2 & Hi & F2 & Np2 & Hres & Hold).
    exists (N1 + N2)%nat, m'. split; [by eapply resume_n_add|]. split; [done|].
    split; [cbn [length]; lia|]. split; [lia|]. split.
    + intros [|i] j' Hi'.
      * cbn in Hi'. injection Hi' as <-. rewrite Nat.add_0_r, Hold by lia.
        rewrite Pr1. apply lookup_insert_eq.
      * rewrite <- Nat.add_succ_comm. by apply Hres.
    + intros p Hlt. rewrite Hold by lia. rewrite Pr1. apply lookup_insert_ne. lia.
Qed.

Lemma request_all_enqueue_all (E : env) (cs : list call) (m : machine) :
  request_all E cs m = enqueue_all E (ExecuteRequest <$> cs) m.
Proof.
  revert m. induction cs as [|c cs IH]; intros m; [done|].
  unfold request_all, enqueue_all in *. cbn [fold_left fmap list_fmap]. apply IH.
Qed.

(** X20. A burst of calls of [request] on an idle queue, each answered by
    an ok response with a body, is served one call at a time and in the
    order of the calls: the call of rank [i] resolves with the body of the
    [fetch] of rank [i], one [fetch] is made for each call, and the drain
    loop stops on an empty queue. *)
Theorem burst_served_in_order (E : env) (cs : list call) (js : list json) (m : machine) :
  idle m -> (forall t, truthy (getToken E t) = true) ->
  answers_in_turn E (fetches m) cs js ->
  exists n m',
    resume_n E n (request_all E cs m) = Some m'
    /\ idle m'
    /\ fetches m' = (fetches m + length cs)%nat
    /\ forall i j, js !! i = Some j ->
         promises m' !! (next_pid m + i)%nat = Some (Resolved (VJson j)).
Proof.
  intros Hidle Htok Ha. destruct cs as [|c cs].
  - exists 0%nat, m. split; [done|]. split; [done|]. split; [cbn; lia|].
    destruct Ha as [Hlen _]. by destruct js.
  - rewrite request_all_enqueue_all. cbn [fmap list_fmap].
    rewrite enqueue_all_idle by done.
    set (mq := queued _ m).
    assert (Hq : requestQueue (limiter mq)
                 = imap (fun i c => mkOp (ExecuteRequest c) (next_pid m + i)%nat) (c :: cs)).
    { exact (imap_fmap (fun i u => mkOp u (next_pid m + i)%nat) ExecuteRequest (c :: cs)). }
    destruct (drain_requests E (c :: cs) Htok js mq (next_pid m) Hq eq_refl Ha)
      as (N & m' & H & Hi & Hf & _ & Hres & _).
    by exists N, m'.
Qed.

Lemma burst_served_in_order_witness :
  let E := mkEnv (fun _ => Some "token") (fun _ => None)
             (fun n => FetchResponse
                         (mkResponse 200 "OK" (Some ∅) (Some (JNum (num_of_Z (Z.of_nat n)))))) in
  let cs := [list_files; plain_call "/api/options/models" no_options] in
  let js := [JNum (num_of_Z 0); JNum (num_of_Z 1)] in
  let m := new_RateLimiter 0 in
  exists n m',
    resume_n E n (request_all E cs m) = Some m'
    /\ idle m'
    /\ fetches m' = (fetches m + length cs)%nat
    /\ forall i j, js !! i = Some j ->
         promises m' !! (next_pid m + i)%nat = Some (Resolved (VJson j)).
Proof.
  intros E cs js m. apply (burst_served_in_order E cs js m).
  - repeat split; vm_compute; reflexivity.
  - intros t. reflexivity.
  - split; [reflexivity|]. intros [|[|i]] c Hc; [| |done].
    + injection Hc as <-. split; [by vm_compute|]. split; [reflexivity|].
      eexists. split; [reflexivity|]. split; vm_compute; reflexivity.
    + injection Hc as <-. split; [by vm_compute|]. split; [reflexivity|].
      eexists. split; [reflexivity|]. split; vm_compute; reflexivity.
Defined.

(** ** A throttled call in front of another *)

(** C3. Where the code departs from the claim: the drain loop does put a
    unit that rejects with a 429 response back at the front
    ([front_requeue_order]), but the units of [request] never reject with
    one.  On a 429 the unit of the call A sleeps and calls [request] again
    from inside the drain loop, so its second attempt is queued behind B
    and awaited by the first.  A is executed once, B and the second attempt
    of A never are, neither promise settles, and the loop stays marked as
    running with nothing left to wake it: for the calls A then B on an idle
    queue with the first [fetch] answered by a 429, however long the
    machine runs. *)
Theorem throttled_request_blocks_queue (E : env) (A B : call) (m : machine) (r : Response)
    (headers : gmap string string) (fuel : nat) :
  idle m -> fresh_promises m -> (forall t, truthy (getToken E t) = true) ->
  0 <= maxRetries A ->
  network E (fetches m) = FetchResponse r -> status r = 429 ->
  resp_headers r = Some headers -> (3 <= fuel)%nat ->
  let pA := next_pid m in
  let pB := S pA in
  let m' := run E fuel (request_all E [A; B] m) in
  loop m' = LoopExecute (mkOp (ExecuteRequest A) pA) (Adopted (S pB))
  /\ requestQueue (limiter m')
     = [mkOp (ExecuteRequest B) pB; mkOp (ExecuteRequest (retry A)) (S pB)]
  /\ queue_events m' = queue_events m ++ [EvExecute pA (url A)]
  /\ fetches m' = S (fetches m)
  /\ promises m' !! pA = None /\ promises m' !! pB = None
  /\ isProcessing (limiter m') = true
  /\ resume E m' = None.
Proof.
  intros Hidle Hfresh Htok Hb Hn H429 Hh Hfuel pA pB m'.
  set (opA := mkOp (ExecuteRequest A) pA). set (opB := mkOp (ExecuteRequest B) pB).
  assert (H0 : request_all E [A; B] m
               = loop_head E (queued [ExecuteRequest A; ExecuteRequest B] m)).
  { rewrite request_all_enqueue_all. by apply enqueue_all_idle. }
  set (mq := queued _ m) in H0.
  assert (Hq : requestQueue (limiter mq) = opA :: [opB]).
  { unfold mq, queued, opA, opB, pB, pA. cbn. by rewrite Nat.add_0_r, Nat.add_1_r. }
  destruct (loop_head_starts E mq opA [opB] Hq)
    as (n & md & Hrun & D1 & D2 & D3 & D4 & D5 & D6 & Hle).
  unfold opA in Hrun. rewrite start_execute_fetches in Hrun; [|done|by right].
  fold opA in Hrun.
  set (mf := set_loop _ _) in Hrun.
  assert (Hnf : network E (fetches mf) = FetchResponse r).
  { change (fetches mf) with (fetches md). by rewrite D4. }
  pose proof (resume_429 E mf opA A r headers eq_refl Hnf H429 Hh) as R1.
  set (ms := retry_after_ms headers) in R1.
  set (mu := updateRateLimits headers (set_fetches (S (fetches mf)) mf)) in R1.
  destruct (updateRateLimits_frame headers (set_fetches (S (fetches mf)) mf))
    as (U1 & U2 & _ & _ & U3 & U4 & _ & U5). fold mu in U1, U2, U3, U4, U5.
  pose proof (updateRateLimits_trace headers (set_fetches (S (fetches mf)) mf)) as Ut.
  fold mu in Ut. clearbody mu.
  set (m1 := set_loop _ (sleep ms mu)) in R1.
  assert (P1 : isProcessing (limiter m1) = true).
  { unfold m1. cbn. rewrite U2. cbn. by rewrite D2. }
  pose proof (resume_retry_after E m1 opA A ms eq_refl P1) as R2.
  set (m2 := set_loop _ _) in R2.
  assert (Np : next_pid m1 = S pB).
  { unfold m1. cbn. rewrite U4. cbn. rewrite D5. unfold mq, queued, pB, pA. cbn. lia. }
  assert (Pr : promises m2 = promises m).
  { unfold m2, m1. cbn. rewrite U3. cbn. by rewrite D3. }
  assert (Hstuck : resume E m2 = None).
  { assert (Hp : promises m2 !! next_pid m1 = None).
    { rewrite Pr, Np. apply Hfresh. unfold pB, pA. lia. }
    unfold resume. cbn [loop m2 set_loop]. by rewrite Hp. }
  assert (Hfin : m' = m2).
  { unfold m'. rewrite H0. apply (resume_n_run E (n + 2)); [|done|lia].
    eapply resume_n_add; [exact Hrun|]. cbn [resume_n]. by rewrite R1, R2. }
  rewrite Hfin. split; [by rewrite <- Np|]. split.
  { unfold m2, m1. cbn. rewrite U1. cbn. rewrite D1, U4. cbn. rewrite D5.
    unfold mq, queued, opB, pB, pA. cbn. do 3 f_equal. lia. }
  split.
  { unfold queue_events. unfold m2, m1. cbn. rewrite Ut. cbn.
    rewrite !List.filter_app. cbn. fold (queue_events md). rewrite D6.
    rewrite !app_nil_r. reflexivity. }
  split; [unfold m2, m1; cbn; rewrite U5; cbn; by rewrite D4|].
  split; [rewrite Pr; apply Hfresh; unfold pA; lia|].
  split; [rewrite Pr; apply Hfresh; unfold pB, pA; lia|].
  split; [|done]. unfold m2. cbn. exact P1.
Qed.

(** The scenario of the claim, with every [fetch] answered by a 429 with
    [retry-after: 2]. *)
Lemma throttled_request_blocks_queue_witness :
  let r := mkResponse 429 "Too Many Requests" (Some {[ "retry-after" := "2" ]}) None in
  let E := always_answers r in
  let A := list_files in
  let B := plain_call "/api/options/models" no_options in
  let m' := run E 100 (request_all E [A; B] (new_RateLimiter 0)) in
  loop m' = LoopExecute (mkOp (ExecuteRequest A) 0%nat) (Adopted 2%nat)
  /\ requestQueue (limiter m')
     = [mkOp (ExecuteRequest B) 1%nat; mkOp (ExecuteRequest (retry A)) 2%nat]
  /\ queue_events m' = queue_events (new_RateLimiter 0) ++ [EvExecute 0%nat (url A)]
  /\ fetches m' = 1%nat
  /\ promises m' !! 0%nat = None /\ promises m' !! 1%nat = None
  /\ isProcessing (limiter m') = true
  /\ resume E m' = None.
Proof.
  intros r E A B.
  apply (throttled_request_blocks_queue E A B (new_RateLimiter 0) r
           {[ "retry-after" := "2" ]} 100);
    [repeat apply conj; vm_compute; reflexivity | intros p _; vm_compute; reflexivity
    | intros t; reflexivity | by vm_compute | vm_compute; reflexivity
    | reflexivity | reflexivity | lia].
Defined.
